(** * tinylsm: a shallow embedding of the LSM engine and its specification

    The development follows the Go sources file by file: bytes and integer
    encodings ([encoding/binary], [hash/crc32], [hash/fnv]), the Bloom filter
    (bloom.go), the skip list (skiplist.go), the memtable, the write-ahead log
    (wal.go), the sorted table writer and reader, and the engine (DB).

    Conventions.  Go's [int] and [int64] are 64-bit signed, [uint32] and
    [uint64] wrap around: all of them are [Z] with the wrap written out.
    A [[]byte] is a [list byte].  A Go panic is the outcome [Panic]; an
    [error] return is [Err]. *)

From Stdlib Require Import ZArith Lia Bool Reals Lra Sorting.Sorted.
From Stdlib Require Import Strings.Byte Strings.String.
From stdpp Require Import base list.

Local Open Scope Z_scope.

(** ** Outcomes of calls *)

Inductive error : Type :=
  | ErrNotFound
  | ErrMemtableImmutable
  | ErrClosed
  | ErrCorruptedData
  | EOF
  | ErrUnexpectedEOF
  | ErrOther (msg : string).

Inductive result (A : Type) : Type :=
  | Ok (a : A)
  | Err (e : error)
  | Panic.
Arguments Ok {A} a.
Arguments Err {A} e.
Arguments Panic {A}.

#[global] Instance result_ret : MRet result := fun A a => Ok a.
#[global] Instance result_bind : MBind result := fun A B k r =>
  match r with
  | Ok a => k a
  | Err e => Err e
  | Panic => Panic
  end.

(** ** Machine integers *)

Definition u32 (z : Z) : Z := z mod 2^32.
Definition u64 (z : Z) : Z := z mod 2^64.
(** Signed 64-bit wrap-around ([int], [int64]). *)
Definition i64 (z : Z) : Z := (z + 2^63) mod 2^64 - 2^63.

(** The largest slice the Go runtime allocates on a 64-bit target; [make]
    panics above it. *)
Definition maxAlloc : Z := 2 ^ 48.

(** ** Bytes *)

Definition byte_to_Z (b : byte) : Z := Z.of_N (Byte.to_N b).
Definition byte_of_Z (z : Z) : byte :=
  match Byte.of_N (Z.to_N (z mod 256)) with
  | Some b => b
  | None => x00
  end.

#[global] Instance byte_eq_dec : EqDecision byte := Byte.byte_eq_dec.

(** [[]byte(s)] for a string literal. *)
Definition bytes_of (s : string) : list byte := list_byte_of_string s.

(** [len(b)] as a Go [int]. *)
Definition len {A} (l : list A) : Z := Z.of_nat (length l).

(** [s[i]] on a slice; [None] is the index-out-of-range panic. *)
Definition index {A} (s : list A) (i : Z) : option A :=
  if (0 <=? i) && (i <? len s) then s !! Z.to_nat i else None.

Definition index_at {A} (s : list A) (i : Z) : option A := index s i.

(** [make([]byte, n)]. *)
Definition make_bytes (n : Z) : result (list byte) :=
  if (0 <=? n) && (n <=? maxAlloc) then Ok (replicate (Z.to_nat n) x00) else Panic.

(** [s[lo:hi]]; [None] is the slice-bounds panic. *)
Definition slice {A} (s : list A) (lo hi : Z) : option (list A) :=
  if (0 <=? lo) && (lo <=? hi) && (hi <=? len s)
  then Some (take (Z.to_nat (hi - lo)) (drop (Z.to_nat lo) s))
  else None.

(** *** Readers

    A sequential reader ([bufio.Reader] over a file, [bytes.Reader] over a
    slice) is the list of bytes it has not yet delivered. *)

(** [io.ReadFull] of [n] bytes, which is also how [binary.Read] fetches a
    fixed-size value: [EOF] when nothing is left, [ErrUnexpectedEOF] when
    the stream ends part-way. *)
Definition ReadFull (n : Z) (rem : list byte) : list byte * result (list byte) :=
  if n =? 0 then (rem, Ok [])
  else if len rem =? 0 then (rem, Err EOF)
  else if len rem <? n then ([], Err ErrUnexpectedEOF)
  else (drop (Z.to_nat n) rem, Ok (take (Z.to_nat n) rem)).

(** [bytes.Reader.Read] into a fresh buffer of [n] bytes: at the end of
    the data it answers [EOF], also for [n = 0]; otherwise it copies what
    there is, without error, and the rest of the buffer stays zero. *)
Definition Reader_Read (n : Z) (rem : list byte) : list byte * result (list byte) :=
  if len rem =? 0 then (rem, Err EOF)
  else (drop (Z.to_nat n) rem,
        Ok (take (Z.to_nat n) rem ++ replicate (Z.to_nat (n - len rem)) x00)).

(** [bytes.Reader.ReadByte]. *)
Definition Reader_ReadByte (rem : list byte) : list byte * result byte :=
  match rem with
  | [] => (rem, Err EOF)
  | b :: rest => (rest, Ok b)
  end.

(** [os.File.ReadAt] into a buffer of [n] bytes at offset [off]. *)
Definition ReadAt (file : list byte) (n off : Z) : result (list byte) :=
  if off <? 0 then Err (ErrOther "negative offset")
  else if n =? 0 then Ok []
  else if len file <? off + n then Err EOF
  else Ok (take (Z.to_nat n) (drop (Z.to_nat off) file)).

(** *** encoding/binary, little endian *)

(** [binary.LittleEndian.PutUintN]: the [n] low bytes of [v], lowest first. *)
Fixpoint le_put (n : nat) (v : Z) : list byte :=
  match n with
  | O => []
  | S n' => byte_of_Z v :: le_put n' (v / 256)
  end.

(** [binary.LittleEndian.UintN]. *)
Fixpoint le_get (bs : list byte) : Z :=
  match bs with
  | [] => 0
  | b :: rest => byte_to_Z b + 256 * le_get rest
  end.

Definition put_u32 (v : Z) : list byte := le_put 4 v.
Definition put_u64 (v : Z) : list byte := le_put 8 v.

(** *** hash/crc32, IEEE polynomial (reflected form 0xEDB88320) *)

Definition crc_poly : Z := 0xEDB88320.

Fixpoint crc_shift (n : nat) (c : Z) : Z :=
  match n with
  | O => c
  | S n' =>
      crc_shift n' (if Z.testbit c 0 then Z.lxor (Z.shiftr c 1) crc_poly
                    else Z.shiftr c 1)
  end.

Definition crc_update (c : Z) (b : byte) : Z :=
  crc_shift 8 (Z.lxor c (byte_to_Z b)).

(** [crc32.ChecksumIEEE]; writing a digest piecewise ([crc.Write] several
    times, then [Sum32]) is the checksum of the concatenation. *)
Definition crc32 (data : list byte) : Z :=
  Z.lxor (fold_left crc_update data 0xFFFFFFFF) 0xFFFFFFFF.

(** *** hash/fnv, 32 bits *)

Definition fnv_offset32 : Z := 2166136261.
Definition fnv_prime32 : Z := 16777619.

(** [fnv.New32a]: xor, then multiply. *)
Definition fnv32a (key : list byte) : Z :=
  fold_left (fun h b => u32 (Z.lxor h (byte_to_Z b) * fnv_prime32)) key fnv_offset32.

(** [fnv.New32]: multiply, then xor. *)
Definition fnv32 (key : list byte) : Z :=
  fold_left (fun h b => Z.lxor (u32 (h * fnv_prime32)) (byte_to_Z b)) key fnv_offset32.

(** *** float64, as far as [NewBloomFilter] uses it

    A non-negative binary64 value is [f_m * 2 ^ f_e].  [round53] is
    round-to-nearest-even to a 53-bit significand (exponents stay far from
    the subnormal and overflow ranges here). *)

Record float64 : Type := { f_m : Z; f_e : Z }.

Definition round53 (m e : Z) : float64 :=
  let k := Z.log2 m + 1 - 53 in
  if k <=? 0 then {| f_m := m; f_e := e |}
  else
    let q := m / 2 ^ k in
    let r := m mod 2 ^ k in
    let half := 2 ^ (k - 1) in
    let q' := if (half <? r) || ((r =? half) && Z.odd q) then q + 1 else q in
    {| f_m := q'; f_e := e + k |}.

(** [float64(n)] for [n >= 0]. *)
Definition float64_of_int (n : Z) : float64 := round53 n 0.

Definition fmul (a b : float64) : float64 :=
  round53 (f_m a * f_m b) (f_e a + f_e b).

(** Truncation toward zero, the integer part of the value. *)
Definition ftrunc (a : float64) : Z :=
  if 0 <=? f_e a then f_m a * 2 ^ f_e a else f_m a / 2 ^ (- f_e a).

(** [math.Ln2] as a float64: 0x3FE62E42FEFA39EF. *)
Definition Ln2 : float64 := {| f_m := 6243314768165359; f_e := -53 |}.

(** ** bloom.go *)

Module BloomFilter.

Record t : Type := mk {
  bits : list byte;
  numBits : Z;   (* uint64 *)
  numHash : Z;   (* uint32 *)
  numItems : Z   (* uint64 *)
}.

(** [uint32(f)]: inside the range of uint32 the integer part; outside it Go
    leaves the result to the implementation (amd64 keeps the low 32 bits). *)
Definition uint32_of_float (f : float64) : Z := u32 (ftrunc f).

Definition NewBloomFilter (expectedItems bitsPerKey : Z) : result t :=
  let expectedItems := if expectedItems <=? 0 then 1 else expectedItems in
  let bitsPerKey := if bitsPerKey <=? 0 then 10 else bitsPerKey in
  let numBits := u64 (i64 (expectedItems * bitsPerKey)) in
  let numBits := if numBits <? 64 then 64 else numBits in
  let numBytes := u64 (numBits + 7) / 8 in
  let numBits := u64 (numBytes * 8) in
  let numHash := uint32_of_float (fmul (float64_of_int bitsPerKey) Ln2) in
  let numHash := if numHash <? 1 then 1 else numHash in
  let numHash := if 30 <? numHash then 30 else numHash in
  bits ← make_bytes numBytes;
  Ok {| bits := bits; numBits := numBits; numHash := numHash; numItems := 0 |}.

Definition hash (key : list byte) : Z * Z :=
  let hash1 := fnv32a key in
  let hash2 := fnv32 key in
  let hash2 := if hash2 mod 2 =? 0 then u32 (hash2 + 1) else hash2 in
  (hash1, hash2).

(** [bf.bits[byteIdx] |= (1 << bitIdx)]; indexing past the slice panics. *)
Definition setBit (bits : list byte) (idx : Z) : result (list byte) :=
  let byteIdx := idx / 8 in
  let bitIdx := idx mod 8 in
  match index bits byteIdx with
  | Some b =>
      Ok (<[Z.to_nat byteIdx := byte_of_Z (Z.lor (byte_to_Z b) (Z.shiftl 1 bitIdx))]> bits)
  | None => Panic
  end.

Definition getBit (bits : list byte) (idx : Z) : result bool :=
  let byteIdx := idx / 8 in
  let bitIdx := idx mod 8 in
  match index bits byteIdx with
  | Some b => Ok (negb (Z.land (byte_to_Z b) (Z.shiftl 1 bitIdx) =? 0))
  | None => Panic
  end.

(** The position probed at round [i]; [% numBits] panics on zero. *)
Definition position (h1 h2 numBits i : Z) : result Z :=
  if numBits =? 0 then Panic
  else Ok (u64 (h1 + u64 (i * h2)) mod numBits).

(** The loop [for i := uint32(0); i < bf.numHash; i++] of [Add], with [n]
    rounds left. *)
Fixpoint Add_loop (n : nat) (i h1 h2 numBits : Z) (bits : list byte)
  : result (list byte) :=
  match n with
  | O => Ok bits
  | S n' =>
      idx ← position h1 h2 numBits i;
      bits' ← setBit bits idx;
      Add_loop n' (i + 1) h1 h2 numBits bits'
  end.

Definition Add (bf : t) (key : list byte) : result t :=
  let '(h1, h2) := hash key in
  bits' ← Add_loop (Z.to_nat (numHash bf)) 0 h1 h2 (numBits bf) (bits bf);
  Ok {| bits := bits'; numBits := numBits bf; numHash := numHash bf;
        numItems := u64 (numItems bf + 1) |}.

Fixpoint MayContain_loop (n : nat) (i h1 h2 numBits : Z) (bits : list byte)
  : result bool :=
  match n with
  | O => Ok true
  | S n' =>
      idx ← position h1 h2 numBits i;
      b ← getBit bits idx;
      if negb b then Ok false
      else MayContain_loop n' (i + 1) h1 h2 numBits bits
  end.

Definition MayContain (bf : t) (key : list byte) : result bool :=
  let '(h1, h2) := hash key in
  MayContain_loop (Z.to_nat (numHash bf)) 0 h1 h2 (numBits bf) (bits bf).

(** Format: [numBits:8][numHash:4][numItems:8][bits...] *)
Definition Encode (bf : t) : list byte :=
  put_u64 (numBits bf) ++ put_u32 (numHash bf) ++ put_u64 (numItems bf) ++ bits bf.

Definition DecodeBloomFilter (data : list byte) : result t :=
  if len data <? 20 then Err ErrCorruptedData
  else
    let numBits := le_get (take 8 data) in
    let numHash := le_get (take 4 (drop 8 data)) in
    let numItems := le_get (take 8 (drop 12 data)) in
    let expectedSize := i64 (u64 (numBits + 7) / 8) in
    if len data <? 20 + expectedSize then Err ErrCorruptedData
    else
      let bits := take (Z.to_nat expectedSize) (drop 20 data) in
      Ok {| bits := bits; numBits := numBits; numHash := numHash;
            numItems := numItems |}.

(** [Add] for each key in turn. *)
Fixpoint AddAll (bf : t) (keys : list (list byte)) : result t :=
  match keys with
  | [] => Ok bf
  | k :: rest => bf' ← Add bf k; AddAll bf' rest
  end.

(** The representation invariant of a filter: the bit array has exactly
    [numBits] bits, there is at least one, and the counters are in range. *)
Definition wf (bf : t) : Prop :=
  numBits bf = 8 * len (bits bf) /\ 0 < numBits bf < 2^64 /\
  0 <= numHash bf < 2^32 /\ 0 <= numItems bf < 2^64.

(** [covers bits bits']: same size, and every bit set in [bits] is set in
    [bits']. *)
Definition covers (bits bits' : list byte) : Prop :=
  length bits' = length bits /\
  forall j, getBit bits j = Ok true -> getBit bits' j = Ok true.

(** [clamp(x, lo, hi)]. *)
Definition clamp (x lo hi : Z) : Z := Z.max lo (Z.min hi x).

(** The hash count as the constructor computes it. *)
Definition numHash_of (bitsPerKey : Z) : Z :=
  let numHash := uint32_of_float (fmul (float64_of_int bitsPerKey) Ln2) in
  let numHash := if numHash <? 1 then 1 else numHash in
  if 30 <? numHash then 30 else numHash.

(** Integer part of [bitsPerKey * math.Ln2], computed exactly. *)
Definition floor_mul_Ln2 (bitsPerKey : Z) : Z :=
  bitsPerKey * f_m Ln2 / 2 ^ 53.

(** The specification's words for the hash count, over the real [ln 2]:
    [n] is the integer part of [x], and [n] is [x] rounded to the nearest
    integer. *)
Definition is_floor (x : R) (n : Z) : Prop := (IZR n <= x < IZR n + 1)%R.
Definition is_round (x : R) (n : Z) : Prop := (IZR n - / 2 <= x < IZR n + / 2)%R.

(** [numBits] as the specification words it: [items * bitsPerKey], at least
    64, rounded up to a multiple of 8. *)
Definition spec_numBits (expectedItems bitsPerKey : Z) : Z :=
  8 * ((Z.max 64 (expectedItems * bitsPerKey) + 7) / 8).

(** A filter as [NewBloomFilter(1, 10)] builds it: 64 bits, 6 hashes. *)
Definition small_filter : t :=
  {| bits := replicate 8 x00; numBits := 64; numHash := 6; numItems := 0 |}.

(** A 20-byte header declaring [numBits = 2^64 - 1] and carrying no bits. *)
Definition overflow_header : list byte := replicate 8 xff ++ replicate 12 x00.

(** [NumItems]: the number of items added. *)
Definition NumItems (bf : t) : Z := numItems bf.

(** [Size]: the size of the filter in bytes. *)
Definition Size (bf : t) : Z := len (bits bf).

(** [Reset]: [for i := range bf.bits { bf.bits[i] = 0 }], and no items. *)
Definition Reset (bf : t) : t :=
  {| bits := map (fun _ => x00) (bits bf); numBits := numBits bf;
     numHash := numHash bf; numItems := 0 |}.

End BloomFilter.

(** ** comparator.go *)

(** [bytes.Compare]: lexicographic order on unsigned bytes, as -1, 0 or +1. *)
Fixpoint bytes_compare (a b : list byte) : Z :=
  match a, b with
  | [], [] => 0
  | [], _ :: _ => -1
  | _ :: _, [] => 1
  | x :: a', y :: b' =>
      if byte_to_Z x <? byte_to_Z y then -1
      else if byte_to_Z y <? byte_to_Z x then 1
      else bytes_compare a' b'
  end.

Record Comparator : Type := {
  Compare : list byte -> list byte -> Z;
  Name : string
}.

Definition DefaultComparator : Comparator :=
  {| Compare := bytes_compare; Name := "lsm.DefaultComparator" |}.

(** ** The memtable's entries *)

Record Entry : Type := {
  Key : list byte;
  Value : list byte;
  Deleted : bool;     (* tombstone flag *)
  Timestamp : Z       (* uint64, 0 for now *)
}.

Definition Entry_Size (e : Entry) : Z :=
  i64 (len (Key e) + len (Value e) + 1 + 8).

Definition NewEntry (key value : list byte) : Entry :=
  {| Key := key; Value := value; Deleted := false; Timestamp := 0 |}.

Definition NewTombstone (key : list byte) : Entry :=
  {| Key := key; Value := []; Deleted := true; Timestamp := 0 |}.

(** ** skiplist.go

    The nodes of the list are kept in the order of their level-0 links,
    each with the number of levels it is linked at ([len(node.forward)]);
    the head is the position before the first node.  [forward[i]] of a
    position is then the first later node linked at level [i]: a node of
    height [h] is in the level-[i] chain exactly when [i < h], which is what
    the splice at the end of [PutEntry] establishes. *)

Module SkipList.

Definition maxLevel : Z := 12.
Definition probability : Z := 4.

Record skipNode : Type := {
  entry : Entry;
  height : nat      (* len(forward) *)
}.

Record t : Type := mk {
  nodes : list skipNode;
  comparator : Comparator;
  level : Z;
  size : Z;         (* int64 *)
  count : Z;        (* int *)
  randSeed : Z      (* uint32 *)
}.

Definition NewSkipListWithComparator (cmp : Comparator) : t :=
  {| nodes := []; comparator := cmp; level := 1; size := 0; count := 0;
     randSeed := 0xdeadbeef |}.

Definition NewSkipList : t := NewSkipListWithComparator DefaultComparator.

(** One step of the generator behind [randomLevel]. *)
Definition lcg (s : Z) : Z := u32 (s * 1664525 + 1013904223).

(** The loop [for level < maxLevel && r%probability == 0]; it runs at most
    [maxLevel - 1] times, [fuel] bounds it. *)
Fixpoint promote (fuel : nat) (level r : Z) : Z :=
  match fuel with
  | O => level
  | S fuel' =>
      if (level <? maxLevel) && (r mod probability =? 0)
      then promote fuel' (level + 1) (r / probability)
      else level
  end.

(** Returns the list with the stepped seed, and the level drawn. *)
Definition randomLevel (sl : t) : t * Z :=
  let seed := lcg (randSeed sl) in
  let sl' := {| nodes := nodes sl; comparator := comparator sl; level := level sl;
                size := size sl; count := count sl; randSeed := seed |} in
  (sl', promote (Z.to_nat maxLevel) 1 seed).

Definition compare (sl : t) (a b : list byte) : Z := Compare (comparator sl) a b.

(** The inner loop of a search at level [i], started at a position whose
    later nodes are [suffix]:
    [for current.forward[i] != nil && compare(current.forward[i].entry.Key, key) < 0].
    The result is how many nodes [current] moves forward. *)
Fixpoint walk (sl : t) (i : nat) (key : list byte) (suffix : list skipNode) : nat :=
  match suffix with
  | [] => O
  | n :: rest =>
      if (i <? height n)%nat then
        (* n is current.forward[i] *)
        if compare sl (Key (entry n)) key <? 0 then S (walk sl i key rest) else O
      else
        (* n is not linked at level i: forward[i] passes over it *)
        match walk sl i key rest with
        | O => O
        | S k => S (S k)
        end
  end.

(** The outer loop [for i := sl.level - 1; i >= 0; i--], with [lvl] levels
    left and [current] after [pos] nodes. *)
Fixpoint descend (sl : t) (lvl : nat) (key : list byte) (pos : nat) : nat :=
  match lvl with
  | O => pos
  | S i => descend sl i key (pos + walk sl i key (drop pos (nodes sl)))
  end.

(** The position of [current] when the search loops end ([update[0]]). *)
Definition search (sl : t) (key : list byte) : nat :=
  descend sl (Z.to_nat (level sl)) key O.

(** [current.forward[0]] for [current] after [pos] nodes: the index and the
    node, or [None] for nil. *)
Fixpoint forward0 (pos : nat) (suffix : list skipNode) : option (nat * skipNode) :=
  match suffix with
  | [] => None
  | n :: rest => if (0 <? height n)%nat then Some (pos, n) else forward0 (S pos) rest
  end.

Definition PutEntry (sl : t) (e : Entry) : t :=
  let pos := search sl (Key e) in
  let insert (_ : unit) :=
    let '(sl1, newLevel) := randomLevel sl in
    let newNode := {| entry := e; height := Z.to_nat newLevel |} in
    {| nodes := take pos (nodes sl1) ++ newNode :: drop pos (nodes sl1);
       comparator := comparator sl1;
       level := if level sl1 <? newLevel then newLevel else level sl1;
       size := i64 (size sl1 + Entry_Size e);
       count := i64 (count sl1 + 1);
       randSeed := randSeed sl1 |} in
  match forward0 pos (drop pos (nodes sl)) with
  | Some (idx, current) =>
      if compare sl (Key (entry current)) (Key e) =? 0 then
        (* key already exists, update value *)
        let oldSize := Entry_Size (entry current) in
        let updated := {| Key := Key (entry current); Value := Value e;
                          Deleted := Deleted e; Timestamp := Timestamp e |} in
        {| nodes := <[idx := {| entry := updated; height := height current |}]> (nodes sl);
           comparator := comparator sl;
           level := level sl;
           size := i64 (size sl + i64 (Entry_Size e - oldSize));
           count := count sl;
           randSeed := randSeed sl |}
      else insert ()
  | None => insert ()
  end.

Definition Put (sl : t) (key value : list byte) : t := PutEntry sl (NewEntry key value).

Definition Delete (sl : t) (key : list byte) : t := PutEntry sl (NewTombstone key).

(** Returns (value, deleted, found). *)
Definition Get (sl : t) (key : list byte) : list byte * bool * bool :=
  let pos := search sl key in
  match forward0 pos (drop pos (nodes sl)) with
  | Some (_, current) =>
      if compare sl (Key (entry current)) key =? 0
      then (Value (entry current), Deleted (entry current), true)
      else ([], false, false)
  | None => ([], false, false)
  end.

Definition Size (sl : t) : Z := size sl.
Definition Count (sl : t) : Z := count sl.

End SkipList.

(** *** The iterator of skiplist.go

    [NewIterator] takes the list's read lock and [Close] releases it, so
    the list does not change under an iterator.  [current] is the head, a
    node (with its index in level-0 order) or nil. *)

Module SkipListIterator.

Inductive position : Type :=
  | AtHead
  | AtNode (i : nat) (n : SkipList.skipNode)
  | AtNil.

Record t : Type := mk {
  skiplist : SkipList.t;     (* the field [list] *)
  current : position
}.

(** [p.forward[0]] for the position [p] that has [pos] nodes before or at
    it (0 for the head). *)
Definition forward (sl : SkipList.t) (pos : nat) : position :=
  match SkipList.forward0 pos (drop pos (SkipList.nodes sl)) with
  | Some (i, n) => AtNode i n
  | None => AtNil
  end.

Definition NewIterator (sl : SkipList.t) : t :=
  {| skiplist := sl; current := AtHead |}.

Definition SeekToFirst (it : t) : t :=
  {| skiplist := skiplist it; current := forward (skiplist it) 0 |}.

(** [Seek]: the search loops of [Get], then [current.forward[0]]. *)
Definition Seek (it : t) (target : list byte) : t :=
  {| skiplist := skiplist it;
     current := forward (skiplist it) (SkipList.search (skiplist it) target) |}.

Definition Valid (it : t) : bool :=
  match current it with
  | AtNil => false
  | _ => true
  end.

Definition Next (it : t) : t :=
  match current it with
  | AtNil => it
  | AtHead => {| skiplist := skiplist it; current := forward (skiplist it) 0 |}
  | AtNode i _ => {| skiplist := skiplist it; current := forward (skiplist it) (S i) |}
  end.

(** [Entry]: the head carries no entry (a nil pointer). *)
Definition Entry (it : t) : option Entry :=
  match current it with
  | AtNode _ n => Some (SkipList.entry n)
  | _ => None
  end.

(** [Key], [Value], [IsDeleted]: nil or false on a nil position; on the
    head they dereference its nil entry. *)
Definition Key (it : t) : result (list byte) :=
  match current it with
  | AtNil => Ok []
  | AtHead => Panic
  | AtNode _ n => Ok (Key (SkipList.entry n))
  end.

Definition Value (it : t) : result (list byte) :=
  match current it with
  | AtNil => Ok []
  | AtHead => Panic
  | AtNode _ n => Ok (Value (SkipList.entry n))
  end.

Definition IsDeleted (it : t) : result bool :=
  match current it with
  | AtNil => Ok false
  | AtHead => Panic
  | AtNode _ n => Ok (Deleted (SkipList.entry n))
  end.

(** The loop [for ; it.Valid(); it.Next()] reading key, value and flag at
    each position, as [FlushMemtableToSSTable] runs it; [None] when [fuel]
    runs out. *)
Fixpoint collect (fuel : nat) (it : t)
  : option (result (list (list byte * list byte * bool))) :=
  match fuel with
  | O => None
  | S fuel' =>
      if Valid it then
        match Key it, Value it, IsDeleted it with
        | Ok k, Ok v, Ok d =>
            match collect fuel' (Next it) with
            | Some (Ok rest) => Some (Ok ((k, v, d) :: rest))
            | r => r
            end
        | _, _, _ => Some Panic
        end
      else Some (Ok [])
  end.

(** A full pass from [SeekToFirst]. *)
Definition entries (sl : SkipList.t)
  : option (result (list (list byte * list byte * bool))) :=
  collect (S (length (SkipList.nodes sl))) (SeekToFirst (NewIterator sl)).

End SkipListIterator.

(** ** The memtable *)

Module Memtable.

Definition memtableActive : Z := 0.
Definition memtableImmutable : Z := 1.

Record t : Type := mk {
  data : SkipList.t;
  state : Z;         (* int32 *)
  maxsize : Z        (* int64 *)
}.

Definition NewMemtable (maxsize : Z) : t :=
  {| data := SkipList.NewSkipList; state := memtableActive; maxsize := maxsize |}.

Definition Put (m : t) (key value : list byte) : result t :=
  if negb (state m =? memtableActive) then Err ErrMemtableImmutable
  else Ok {| data := SkipList.Put (data m) key value; state := state m;
             maxsize := maxsize m |}.

Definition Delete (m : t) (key : list byte) : result t :=
  if negb (state m =? memtableActive) then Err ErrMemtableImmutable
  else Ok {| data := SkipList.Delete (data m) key; state := state m;
             maxsize := maxsize m |}.

Definition Get (m : t) (key : list byte) : list byte * bool * bool :=
  SkipList.Get (data m) key.

Definition Size (m : t) : Z := SkipList.Size (data m).

Definition IsFull (m : t) : bool := maxsize m <=? SkipList.Size (data m).

Definition SetImmutable (m : t) : t :=
  {| data := data m; state := memtableImmutable; maxsize := maxsize m |}.


Definition Count (m : t) : Z := SkipList.Count (data m).

(** [NewIterator]: the iterator of the underlying list. *)
Definition NewIterator (m : t) : SkipListIterator.t :=
  SkipListIterator.NewIterator (data m).

End Memtable.

(** A user-level write, and a sequence of them applied in order to a
    memtable; the first error stops the run. *)
Inductive write : Type :=
  | WPut (key value : list byte)
  | WDelete (key : list byte).

Definition write_key (w : write) : list byte :=
  match w with WPut k _ => k | WDelete k => k end.

(** The value the write leaves in the entry: a tombstone carries none. *)
Definition write_value (w : write) : list byte :=
  match w with WPut _ v => v | WDelete _ => [] end.

Definition apply_write (m : Memtable.t) (w : write) : result Memtable.t :=
  match w with
  | WPut k v => Memtable.Put m k v
  | WDelete k => Memtable.Delete m k
  end.

Fixpoint apply_writes (m : Memtable.t) (ws : list write) : result Memtable.t :=
  match ws with
  | [] => Ok m
  | w :: rest => m' ← apply_write m w; apply_writes m' rest
  end.

(** By how much a write is due to change the byte size: the whole entry for
    a key not in the memtable, the difference of the value lengths for one
    that is. *)
Definition size_delta (m : Memtable.t) (w : write) : Z :=
  let '(old, _, found) := Memtable.Get m (write_key w) in
  if found then len (write_value w) - len old
  else len (write_key w) + len (write_value w) + 9.

(** ** wal.go *)

Module WAL.

Definition RecordTypePut : byte := x01.
Definition RecordTypeDelete : byte := x02.

(** Magic bytes that start a record. *)
Definition walMagic : list byte := [xde; xad; xbe; xef].

(** The writer, with the file under it as the operating system holds it:
    [file] is what has been written, [limit] the size the device lets the
    file grow to ([None]: no limit), [syncErr] what [fsync] answers.  [werr]
    is the sticky error of the [bufio.Writer]. *)
Record t : Type := mk {
  file : list byte;
  limit : option Z;
  syncErr : option error;
  werr : option error;
  syncMode : bool
}.

Definition ErrNoSpace : error := ErrOther "no space left on device".

(** The bytes of one record:
    [magic:4][recordLen:4][type:1][keyLen:4][valueLen:4][key][value][crc:4] *)
Definition encode_record (recordType : byte) (key value : list byte) : list byte :=
  let keyLen := u32 (len key) in
  let valueLen := u32 (len value) in
  let recordLen := u32 (i64 (1 + 4 + 4 + len key + len value + 4)) in
  let checksum :=
    crc32 ([recordType] ++ put_u32 keyLen ++ put_u32 valueLen ++ key ++ value) in
  walMagic ++ put_u32 recordLen ++ [recordType] ++ put_u32 keyLen ++
  put_u32 valueLen ++ key ++ value ++ put_u32 checksum.

(** [Write]: the record goes through the buffered writer and is flushed to
    the file; a device that cannot take it all keeps the part that fits and
    the call fails.  In sync mode the result is that of [fsync]. *)
Definition Write (w : t) (recordType : byte) (key value : list byte)
  : t * result unit :=
  match werr w with
  | Some e => (w, Err e)
  | None =>
      let record := encode_record recordType key value in
      let fits := match limit w with
                  | None => true
                  | Some l => len (file w ++ record) <=? l
                  end in
      if fits then
        let w' := {| file := file w ++ record; limit := limit w;
                     syncErr := syncErr w; werr := None; syncMode := syncMode w |} in
        if syncMode w then
          match syncErr w with
          | Some e => (w', Err e)
          | None => (w', Ok tt)
          end
        else (w', Ok tt)
      else
        let l := default 0 (limit w) in
        ({| file := take (Z.to_nat l) (file w ++ record); limit := limit w;
            syncErr := syncErr w; werr := Some ErrNoSpace; syncMode := syncMode w |},
         Err ErrNoSpace)
  end.

Definition WritePut (w : t) (key value : list byte) : t * result unit :=
  Write w RecordTypePut key value.

Definition WriteDelete (w : t) (key : list byte) : t * result unit :=
  Write w RecordTypeDelete key [].

(** A freshly created log on a device without faults. *)
Definition empty (sync : bool) : t :=
  {| file := []; limit := None; syncErr := None; werr := None; syncMode := sync |}.

(** A user-level write appended to the log. *)
Definition append (w : t) (op : write) : t * result unit :=
  match op with
  | WPut k v => WritePut w k v
  | WDelete k => WriteDelete w k
  end.

Fixpoint append_all (w : t) (ops : list write) : t * result unit :=
  match ops with
  | [] => (w, Ok tt)
  | op :: rest =>
      match append w op with
      | (w', Ok _) => append_all w' rest
      | (w', r) => (w', r)
      end
  end.

(** *** The reader: the state is the part of the file not yet read. *)

Definition maxRecord : Z := 100 * 1024 * 1024.

(** The parsing half of [ReadRecord], once [recordData] is in memory. *)
Definition parse_record (recordLen : Z) (recordData : list byte)
  : result (byte * list byte * list byte) :=
  if len recordData <? 1 + 4 + 4 + 4 then Err (ErrOther "record too short")
  else
    let recordType := default x00 (recordData !! 0%nat) in
    let keyLen := le_get (take 4 (drop 1 recordData)) in
    let valueLen := le_get (take 4 (drop 5 recordData)) in
    let expectedLen := u32 (1 + 4 + 4 + keyLen + valueLen + 4) in
    if negb (recordLen =? expectedLen) then Err (ErrOther "record length mismatch")
    else
      let keyStart := 9 in
      match slice recordData keyStart (u32 (keyStart + keyLen)) with
      | None => Panic
      | Some key =>
          let valueStart := u32 (keyStart + keyLen) in
          match slice recordData valueStart (u32 (valueStart + valueLen)) with
          | None => Panic
          | Some value =>
              let crcStart := u32 (valueStart + valueLen) in
              let tail := drop (Z.to_nat crcStart) recordData in
              if len tail <? 4 then Panic
              else
                let storedCRC := le_get (take 4 tail) in
                let crc := crc32 ([recordType] ++ put_u32 keyLen ++
                                  put_u32 valueLen ++ key ++ value) in
                if negb (crc =? storedCRC)
                then Err (ErrOther "CRC mismatch: corrupted record")
                else Ok (recordType, key, value)
          end
      end.

(** [ReadRecord]: the rest of the stream and the record, [Err EOF] at the
    end, another error for a corrupted record. *)
Definition ReadRecord (rem : list byte)
  : list byte * result (byte * list byte * list byte) :=
  match ReadFull 4 rem with
  | (rem1, Ok magic) =>
      if negb (bool_decide (magic = walMagic))
      then (rem1, Err (ErrOther "invalid magic bytes: corrupted record start"))
      else
        match ReadFull 4 rem1 with
        | (rem2, Ok lenBytes) =>
            let recordLen := le_get lenBytes in
            if maxRecord <? recordLen
            then (rem2, Err (ErrOther "record too large"))
            else
              match ReadFull recordLen rem2 with
              | (rem3, Ok recordData) => (rem3, parse_record recordLen recordData)
              | (rem3, Err e) => (rem3, Err e)
              | (rem3, Panic) => (rem3, Panic)
              end
        | (rem2, Err e) => (rem2, Err e)
        | (rem2, Panic) => (rem2, Panic)
        end
  | (rem1, Err e) => (rem1, Err e)
  | (rem1, Panic) => (rem1, Panic)
  end.

(** [ScanToNextRecord], with [matchCount] bytes of the magic matched so
    far.  When the fourth byte matches, the stream is put back at the start
    of the magic: the four bytes just matched and what follows them. *)
Fixpoint scan (matchCount : nat) (rem : list byte) : list byte * bool :=
  match rem with
  | [] => ([], false)
  | b :: rest =>
      if bool_decide (walMagic !! matchCount = Some b) then
        if bool_decide (S matchCount = 4%nat) then (walMagic ++ rest, true)
        else scan (S matchCount) rest
      else if bool_decide (walMagic !! 0%nat = Some b) then scan 1 rest
      else scan 0 rest
  end.

Definition ScanToNextRecord (rem : list byte) : list byte * bool := scan 0 rem.

(** The loop of [RecoverMemtable]; [recovered] and [corrupted] are its two
    counters.  Every round reads at least one byte or stops, so [fuel]
    above the length of the stream is never used up; [None] says it was. *)
Fixpoint recover_loop (fuel : nat) (rem : list byte) (mem : Memtable.t)
    (recovered corrupted : Z) : option (result (Memtable.t * Z * Z)) :=
  match fuel with
  | O => None
  | S fuel' =>
      match ReadRecord rem with
      | (_, Err EOF) => Some (Ok (mem, recovered, corrupted))
      | (_, Panic) => Some Panic
      | (rem', Err _) =>
          let corrupted := i64 (corrupted + 1) in
          match ScanToNextRecord rem' with
          | (_, false) => Some (Ok (mem, recovered, corrupted))
          | (rem'', true) => recover_loop fuel' rem'' mem recovered corrupted
          end
      | (rem', Ok (recordType, key, value)) =>
          if bool_decide (recordType = RecordTypePut) then
            recover_loop fuel' rem'
              {| Memtable.data := SkipList.Put (Memtable.data mem) key value;
                 Memtable.state := Memtable.state mem;
                 Memtable.maxsize := Memtable.maxsize mem |}
              (i64 (recovered + 1)) corrupted
          else if bool_decide (recordType = RecordTypeDelete) then
            recover_loop fuel' rem'
              {| Memtable.data := SkipList.Delete (Memtable.data mem) key;
                 Memtable.state := Memtable.state mem;
                 Memtable.maxsize := Memtable.maxsize mem |}
              (i64 (recovered + 1)) corrupted
          else recover_loop fuel' rem' mem recovered corrupted
      end
  end.

(** [RecoverMemtable]; [walFile] is [None] when the file does not exist.
    The result carries the memtable and the two counters the function
    reports. *)
Definition RecoverMemtable (walFile : option (list byte)) (maxSize : Z)
  : option (result (Memtable.t * Z * Z)) :=
  match walFile with
  | None => Some (Ok (Memtable.NewMemtable maxSize, 0, 0))
  | Some data =>
      recover_loop (S (length data)) data (Memtable.NewMemtable maxSize) 0 0
  end.

End WAL.

(** The entry a write hands to [PutEntry]. *)
Definition write_entry (w : write) : Entry :=
  match w with
  | WPut k v => NewEntry k v
  | WDelete k => NewTombstone k
  end.

(** ** The sorted table: writer *)

Definition BlockSize : Z := 4 * 1024.
Definition SSTableMagic : Z := 0x53535461626C6521.

Record BlockHandle : Type := {
  Offset : Z;     (* uint64 *)
  Size : Z        (* uint64 *)
}.

Record IndexEntry : Type := {
  FirstKey : list byte;
  Handle : BlockHandle
}.

Module SSTableWriter.

(** [file] is what has gone through the buffered writer, in order. *)
Record t : Type := mk {
  file : list byte;
  offset : Z;                          (* uint64 *)
  blockBuffer : list byte;
  index : list IndexEntry;
  firstKey : list byte;
  entryCount : Z;
  totalKeys : Z;
  bloomFilter : option BloomFilter.t;
  bitsPerKey : Z;
  comparator : Comparator
}.

Definition NewSSTableWriter (cmp : option Comparator) (bitsPerKey : Z) : t :=
  {| file := []; offset := 0; blockBuffer := []; index := []; firstKey := [];
     entryCount := 0; totalKeys := 0; bloomFilter := None;
     bitsPerKey := bitsPerKey;
     comparator := default DefaultComparator cmp |}.

(** One entry inside a block: [keyLen:4][valueLen:4][deleted:1][key][value] *)
Definition encode_entry (key value : list byte) (deleted : bool) : list byte :=
  put_u32 (u32 (len key)) ++ put_u32 (u32 (len value)) ++
  [if deleted then x01 else x00] ++ key ++ value.

Definition flushBlock (w : t) : t :=
  if entryCount w =? 0 then w
  else
    let blockData := blockBuffer w in
    let crc := crc32 blockData in
    let entry := {| FirstKey := firstKey w;
                    Handle := {| Offset := offset w;
                                 Size := u64 (i64 (len blockData + 4)) |} |} in
    {| file := file w ++ blockData ++ put_u32 crc;
       offset := u64 (offset w + u64 (i64 (len blockData + 4)));
       blockBuffer := [];
       index := index w ++ [entry];
       firstKey := [];
       entryCount := 0;
       totalKeys := totalKeys w;
       bloomFilter := bloomFilter w;
       bitsPerKey := bitsPerKey w;
       comparator := comparator w |}.

Definition Add (w : t) (key value : list byte) (deleted : bool) : result t :=
  let totalKeys' := i64 (totalKeys w + 1) in
  bloom ←
    (if 0 <? bitsPerKey w then
       bf ← match bloomFilter w with
            | None => BloomFilter.NewBloomFilter 1000 (bitsPerKey w)
            | Some bf => Ok bf
            end;
       bf' ← BloomFilter.Add bf key;
       Ok (Some bf')
     else Ok (bloomFilter w));
  let firstKey' := if entryCount w =? 0 then key else firstKey w in
  let w' := {| file := file w; offset := offset w;
               blockBuffer := blockBuffer w ++ encode_entry key value deleted;
               index := index w; firstKey := firstKey';
               entryCount := i64 (entryCount w + 1);
               totalKeys := totalKeys'; bloomFilter := bloom;
               bitsPerKey := bitsPerKey w; comparator := comparator w |} in
  if BlockSize <=? len (blockBuffer w') then Ok (flushBlock w') else Ok w'.

(** One index entry on disk: [keyLen:4][key][offset:8][size:8] *)
Definition encode_index_entry (e : IndexEntry) : list byte :=
  put_u32 (u32 (len (FirstKey e))) ++ FirstKey e ++
  put_u64 (Offset (Handle e)) ++ put_u64 (Size (Handle e)).

(** [Finish]: the bytes of the finished file. *)
Definition Finish (w : t) : list byte :=
  let w := flushBlock w in
  let indexOffset := offset w in
  let indexBytes :=
    put_u32 (u32 (len (index w))) ++ concat (map encode_index_entry (index w)) in
  let offset1 :=
    fold_left (fun off e => u64 (off + u64 (i64 (4 + len (FirstKey e) + 8 + 8))))
              (index w) (u64 (indexOffset + 4)) in
  let indexSize := u64 (offset1 - indexOffset) in
  let bloomOffset := offset1 in
  let bloomData := match bloomFilter w with
                   | Some bf => BloomFilter.Encode bf
                   | None => []
                   end in
  let bloomSize := match bloomFilter w with
                   | Some _ => u64 (len bloomData)
                   | None => 0
                   end in
  file w ++ indexBytes ++ bloomData ++
  put_u64 indexOffset ++ put_u64 indexSize ++ put_u64 bloomOffset ++
  put_u64 bloomSize ++ put_u64 SSTableMagic.

(** [Add] for each entry of a stream, then [Finish]. *)
Fixpoint AddAll (w : t) (entries : list (list byte * list byte * bool)) : result t :=
  match entries with
  | [] => Ok w
  | (key, value, deleted) :: rest => w' ← Add w key value deleted; AddAll w' rest
  end.

Definition write_table (bitsPerKey : Z) (entries : list (list byte * list byte * bool))
  : result (list byte) :=
  w ← AddAll (NewSSTableWriter None bitsPerKey) entries; Ok (Finish w).

End SSTableWriter.

(** ** The sorted table: reader *)

Module SSTableReader.

Record t : Type := mk {
  file : list byte;
  size : Z;                            (* int64 *)
  index : list IndexEntry;
  bloomFilter : option BloomFilter.t;
  comparator : Comparator
}.

(** [make([]byte, n)] for a uint64 [n], then [ReadAt] into it. *)
Definition read_exact (file : list byte) (n off : Z) : result (list byte) :=
  _ ← make_bytes n; ReadAt file n off.

(** The loop of [readIndex] with [n] entries still to read; [fuel] bounds
    it by the bytes of the index, of which every entry takes some. *)
Fixpoint readIndex_entries (fuel : nat) (n : Z) (rem : list byte)
  : result (list IndexEntry) :=
  if n <=? 0 then Ok []
  else
    match fuel with
    | O => Err EOF
    | S fuel' =>
        let '(rem1, r1) := ReadFull 4 rem in
        keyLenBytes ← r1;
        let keyLen := le_get keyLenBytes in
        let '(rem2, r2) := Reader_Read keyLen rem1 in
        key ← r2;
        let '(rem3, r3) := ReadFull 8 rem2 in
        offsetBytes ← r3;
        let '(rem4, r4) := ReadFull 8 rem3 in
        sizeBytes ← r4;
        rest ← readIndex_entries fuel' (n - 1) rem4;
        Ok ({| FirstKey := key;
               Handle := {| Offset := le_get offsetBytes;
                            Size := le_get sizeBytes |} |} :: rest)
    end.

Definition readIndex (file : list byte) (indexOffset indexSize : Z)
  : result (list IndexEntry) :=
  indexData ← read_exact file indexSize (i64 indexOffset);
  let '(rem, r) := ReadFull 4 indexData in
  numBytes ← r;
  readIndex_entries (S (length rem)) (le_get numBytes) rem.

(** [readFooter]: the filter, if any, and the index. *)
Definition readFooter (file : list byte)
  : result (option BloomFilter.t * list IndexEntry) :=
  let size := len file in
  let legacy (_ : unit) : result (option BloomFilter.t * list IndexEntry) :=
    if size <? 24 then Err (ErrOther "SSTable too small")
    else
      footer ← ReadAt file 24 (size - 24);
      let indexOffset := le_get (take 8 footer) in
      let indexSize := le_get (take 8 (drop 8 footer)) in
      let magic := le_get (take 8 (drop 16 footer)) in
      if negb (magic =? SSTableMagic)
      then Err (ErrOther "invalid SSTable: bad magic number")
      else idx ← readIndex file indexOffset indexSize; Ok (None, idx) in
  if 40 <=? size then
    footer ← ReadAt file 40 (size - 40);
    let magic := le_get (take 8 (drop 32 footer)) in
    if magic =? SSTableMagic then
      let indexOffset := le_get (take 8 footer) in
      let indexSize := le_get (take 8 (drop 8 footer)) in
      let bloomOffset := le_get (take 8 (drop 16 footer)) in
      let bloomSize := le_get (take 8 (drop 24 footer)) in
      bloom ←
        (if 0 <? bloomSize then
           bloomData ← read_exact file bloomSize (i64 bloomOffset);
           match BloomFilter.DecodeBloomFilter bloomData with
           | Ok bf => Ok (Some bf)
           | Err _ => Err (ErrOther "failed to decode bloom filter")
           | Panic => Panic
           end
         else Ok None);
      idx ← readIndex file indexOffset indexSize;
      Ok (bloom, idx)
    else legacy ()
  else legacy ().

Definition OpenSSTable (file : list byte) (cmp : option Comparator) : result t :=
  '(bloom, idx) ← readFooter file;
  Ok {| file := file; size := len file; index := idx; bloomFilter := bloom;
        comparator := default DefaultComparator cmp |}.

Definition MayContain (r : t) (key : list byte) : result bool :=
  match bloomFilter r with
  | None => Ok true
  | Some bf => BloomFilter.MayContain bf key
  end.

(** [sort.Search(n, f)]: the loop [for i < j] by bisection. *)
Fixpoint sort_Search (fuel : nat) (i j : Z) (f : Z -> bool) : Z :=
  match fuel with
  | O => i
  | S fuel' =>
      if i <? j then
        let h := (i + j) / 2 in
        if negb (f h) then sort_Search fuel' (h + 1) j f
        else sort_Search fuel' i h f
      else i
  end.

Definition findBlock (r : t) (key : list byte) : Z :=
  if len (index r) =? 0 then -1
  else
    let idx :=
      sort_Search (length (index r)) 0 (len (index r))
        (fun i => match index_at (index r) i with
                  | Some e => 0 <? Compare (comparator r) (FirstKey e) key
                  | None => false
                  end) in
    if idx =? 0 then -1 else idx - 1.

(** A block read from the file and checked: [Ok None] when the read fails
    or the CRC does not match, [Panic] when the handle is no block at all. *)
Definition load_block (r : t) (h : BlockHandle) : result (option (list byte)) :=
  _ ← make_bytes (Size h);
  match ReadAt (file r) (Size h) (i64 (Offset h)) with
  | Ok blockData =>
      if len blockData <? 4 then Panic
      else
        let dataPart := take (Z.to_nat (len blockData - 4)) blockData in
        let storedCRC := le_get (drop (Z.to_nat (len blockData - 4)) blockData) in
        if negb (crc32 dataPart =? storedCRC) then Ok None else Ok (Some dataPart)
  | _ => Ok None
  end.

(** One entry decoded from a block reader; a failed read is [None]. *)
Definition read_entry (rem : list byte)
  : option (list byte * (list byte * list byte * bool)) :=
  match ReadFull 4 rem with
  | (rem1, Ok keyLenBytes) =>
      match ReadFull 4 rem1 with
      | (rem2, Ok valueLenBytes) =>
          match Reader_ReadByte rem2 with
          | (rem3, Ok deletedByte) =>
              match Reader_Read (le_get keyLenBytes) rem3 with
              | (rem4, Ok entryKey) =>
                  match Reader_Read (le_get valueLenBytes) rem4 with
                  | (rem5, Ok entryValue) =>
                      Some (rem5, (entryKey, entryValue,
                                   bool_decide (deletedByte = x01)))
                  | _ => None
                  end
              | _ => None
              end
          | _ => None
          end
      | _ => None
      end
  | _ => None
  end.

(** The loop [for reader.Len() > 0] of [searchBlock]. *)
Fixpoint search_entries (fuel : nat) (r : t) (key : list byte) (rem : list byte)
  : list byte * bool * bool :=
  match fuel with
  | O => ([], false, false)
  | S fuel' =>
      if len rem <=? 0 then ([], false, false)
      else
        match read_entry rem with
        | None => ([], false, false)
        | Some (rem', (entryKey, entryValue, deleted)) =>
            let cmp := Compare (comparator r) entryKey key in
            if cmp =? 0 then (entryValue, deleted, true)
            else if 0 <? cmp then ([], false, false)
            else search_entries fuel' r key rem'
        end
  end.

Definition searchBlock (r : t) (blockIdx : Z) (key : list byte)
  : result (list byte * bool * bool) :=
  match index_at (index r) blockIdx with
  | None => Panic
  | Some e =>
      block ← load_block r (Handle e);
      match block with
      | None => Ok ([], false, false)
      | Some dataPart => Ok (search_entries (length dataPart) r key dataPart)
      end
  end.

(** Returns (value, deleted, found). *)
Definition Get (r : t) (key : list byte) : result (list byte * bool * bool) :=
  let blockIdx := findBlock r key in
  if blockIdx <? 0 then Ok ([], false, false)
  else searchBlock r blockIdx key.

End SSTableReader.

Module SSTableIterator.

Record t : Type := mk {
  reader : SSTableReader.t;
  blockIdx : Z;
  blockReader : option (list byte);   (* nil, or what is left of the block *)
  key : list byte;
  value : list byte;
  deleted : bool;
  valid : bool
}.

Definition NewIterator (r : SSTableReader.t) : t :=
  {| reader := r; blockIdx := 0; blockReader := None; key := []; value := [];
     deleted := false; valid := false |}.

Definition set_invalid (it : t) : t :=
  {| reader := reader it; blockIdx := blockIdx it; blockReader := blockReader it;
     key := key it; value := value it; deleted := deleted it; valid := false |}.

(** [loadBlock]: the iterator, and whether the block was loaded. *)
Definition loadBlock (it : t) : result (t * bool) :=
  if len (SSTableReader.index (reader it)) <=? blockIdx it
  then Ok (set_invalid it, false)
  else
    match index_at (SSTableReader.index (reader it)) (blockIdx it) with
    | None => Panic
    | Some e =>
        block ← SSTableReader.load_block (reader it) (Handle e);
        match block with
        | None => Ok (set_invalid it, false)
        | Some dataPart =>
            Ok ({| reader := reader it; blockIdx := blockIdx it;
                   blockReader := Some dataPart; key := key it; value := value it;
                   deleted := deleted it; valid := valid it |}, true)
        end
    end.

(** [Next]; every path through the body of its [for] returns. *)
Definition Next (it : t) : result t :=
  '(it1, loaded) ←
    (match blockReader it with
     | Some (_ :: _) => Ok (it, true)
     | _ =>
         loadBlock {| reader := reader it; blockIdx := i64 (blockIdx it + 1);
                      blockReader := blockReader it; key := key it;
                      value := value it; deleted := deleted it;
                      valid := valid it |}
     end);
  if negb loaded then Ok (set_invalid it1)
  else
    let rem := default [] (blockReader it1) in
    match ReadFull 4 rem with
    | (rem1, Ok keyLenBytes) =>
        match ReadFull 4 rem1 with
        | (rem2, Ok valueLenBytes) =>
            match Reader_ReadByte rem2 with
            | (rem3, Ok deletedByte) =>
                match Reader_Read (le_get keyLenBytes) rem3 with
                | (rem4, Ok k) =>
                    match Reader_Read (le_get valueLenBytes) rem4 with
                    | (rem5, Ok v) =>
                        Ok {| reader := reader it1; blockIdx := blockIdx it1;
                              blockReader := Some rem5; key := k; value := v;
                              deleted := bool_decide (deletedByte = x01);
                              valid := true |}
                    | (rem5, _) =>
                        (* it.value is the fresh buffer the read failed on *)
                        Ok {| reader := reader it1; blockIdx := blockIdx it1;
                              blockReader := Some rem5; key := k;
                              value := replicate (Z.to_nat (le_get valueLenBytes)) x00;
                              deleted := deleted it1; valid := false |}
                    end
                | (rem4, _) =>
                    Ok {| reader := reader it1; blockIdx := blockIdx it1;
                          blockReader := Some rem4;
                          key := replicate (Z.to_nat (le_get keyLenBytes)) x00;
                          value := value it1;
                          deleted := deleted it1; valid := false |}
                end
            | (rem3, _) =>
                Ok {| reader := reader it1; blockIdx := blockIdx it1;
                      blockReader := Some rem3; key := key it1; value := value it1;
                      deleted := deleted it1; valid := false |}
            end
        | (rem2, _) =>
            Ok {| reader := reader it1; blockIdx := blockIdx it1;
                  blockReader := Some rem2; key := key it1; value := value it1;
                  deleted := deleted it1; valid := false |}
        end
    | (rem1, _) =>
        Ok {| reader := reader it1; blockIdx := blockIdx it1;
              blockReader := Some rem1; key := key it1; value := value it1;
              deleted := deleted it1; valid := false |}
    end.

Definition SeekToFirst (it : t) : result t :=
  Next {| reader := reader it; blockIdx := -1; blockReader := None;
          key := key it; value := value it; deleted := deleted it;
          valid := false |}.

(** [for ; it.Valid(); it.Next()], collecting (key, value, deleted). *)
Fixpoint collect (fuel : nat) (it : t) : result (list (list byte * list byte * bool)) :=
  match fuel with
  | O => Ok []
  | S fuel' =>
      if valid it then
        it' ← Next it;
        rest ← collect fuel' it';
        Ok ((key it, value it, deleted it) :: rest)
      else Ok []
  end.

(** The entries a full iteration from [SeekToFirst] yields.  An entry takes
    at least 9 bytes of the file, so the file's length bounds the loop. *)
Definition entries (r : SSTableReader.t) : result (list (list byte * list byte * bool)) :=
  it ← SeekToFirst (NewIterator r);
  collect (S (length (SSTableReader.file r) * S (length (SSTableReader.index r)))) it.

End SSTableIterator.

(** [FlushMemtableToSSTable]: the memtable's entries in key order, through
    the skip-list iterator ([SeekToFirst], [Next] along level 0), into a
    table writer; the result is the finished file.  The table file itself
    is taken to be written without I/O error. *)
Definition FlushMemtableToSSTable (mem : Memtable.t) (bitsPerKey : Z)
  : result (list byte) :=
  let level0 := filter (fun n => (0 < SkipList.height n)%nat)
                       (SkipList.nodes (Memtable.data mem)) in
  SSTableWriter.write_table bitsPerKey
    (map (fun n => (Key (SkipList.entry n), Value (SkipList.entry n),
                    Deleted (SkipList.entry n))) level0).

(** ** The engine *)

Module DB.

(** Modelled from the spec: the field [BloomBitsPerKey], the engine option
    "filter bits per key" that [doFlush] hands to [FlushMemtableToSSTable];
    the options struct at hand does not carry it and its call passes two
    arguments to the three-argument function. *)
Record DBOptions : Type := {
  Dir : string;
  MemtableSize : Z;
  SyncWrites : bool;
  BloomBitsPerKey : Z
}.

Record t : Type := mk {
  opts : DBOptions;
  memtable : Memtable.t;                 (* active memtable for writes *)
  immutable : option Memtable.t;         (* being flushed, nil if not flushing *)
  wal : WAL.t;
  sstables : list SSTableReader.t;       (* newest first *)
  nextSSTableID : Z;                     (* uint64 *)
  closed : bool
}.

Definition set_wal (db : t) (w : WAL.t) : t :=
  {| opts := opts db; memtable := memtable db; immutable := immutable db;
     wal := w; sstables := sstables db; nextSSTableID := nextSSTableID db;
     closed := closed db |}.

Definition set_memtable (db : t) (m : Memtable.t) : t :=
  {| opts := opts db; memtable := m; immutable := immutable db;
     wal := wal db; sstables := sstables db; nextSSTableID := nextSSTableID db;
     closed := closed db |}.

Definition doFlush (db : t) : t * result unit :=
  match immutable db with
  | None => (db, Ok tt)
  | Some imm =>
      let db1 := {| opts := opts db; memtable := memtable db; immutable := immutable db;
                    wal := wal db; sstables := sstables db;
                    nextSSTableID := u64 (nextSSTableID db + 1);
                    closed := closed db |} in
      match FlushMemtableToSSTable imm (BloomBitsPerKey (opts db)) with
      | Ok file =>
          match SSTableReader.OpenSSTable file None with
          | Ok reader =>
              ({| opts := opts db1; memtable := memtable db1; immutable := None;
                  wal := wal db1; sstables := reader :: sstables db1;
                  nextSSTableID := nextSSTableID db1; closed := closed db1 |},
               Ok tt)
          | Err _ => (db1, @Err unit (ErrOther "failed to open new SSTable"))
          | Panic => (db1, @Panic unit)
          end
      | Err _ => (db1, @Err unit (ErrOther "flush failed"))
      | Panic => (db1, @Panic unit)
      end
  end.

(** [triggerFlush]; closing the old log, removing its file and opening the
    new one are taken to succeed. *)
Definition triggerFlush (db : t) : t * result unit :=
  let '(db0, r0) := match immutable db with
                    | Some _ => doFlush db
                    | None => (db, Ok tt)
                    end in
  match r0 with
  | Ok _ =>
      let oldWAL := wal db0 in
      let db1 := {| opts := opts db0; memtable := Memtable.NewMemtable (MemtableSize (opts db0));
                    immutable := Some (Memtable.SetImmutable (memtable db0));
                    wal := wal db0; sstables := sstables db0;
                    nextSSTableID := nextSSTableID db0; closed := closed db0 |} in
      match doFlush db1 with
      | (db2, Ok _) =>
          let newWAL := {| WAL.file := []; WAL.limit := WAL.limit oldWAL;
                           WAL.syncErr := WAL.syncErr oldWAL; WAL.werr := None;
                           WAL.syncMode := SyncWrites (opts db2) |} in
          (set_wal db2 newWAL, Ok tt)
      | (db2, r) => (db2, r)
      end
  | _ => (db0, r0)
  end.

(** What follows the WAL append in [Put] and [Delete]: the memtable write's
    outcome, then the flush when the memtable is full. *)
Definition after_write (db : t) (r : result Memtable.t) : t * result unit :=
  match r with
  | Ok m =>
      let db' := set_memtable db m in
      if Memtable.IsFull m then triggerFlush db' else (db', Ok tt)
  | Err e => (db, @Err unit e)
  | Panic => (db, @Panic unit)
  end.

Definition Put (db : t) (key value : list byte) : t * result unit :=
  if closed db then (db, Err ErrClosed)
  else
    match WAL.WritePut (wal db) key value with
    | (w, Ok _) => after_write (set_wal db w) (Memtable.Put (memtable db) key value)
    | (w, Err _) => (set_wal db w, Err (ErrOther "WAL write failed"))
    | (w, Panic) => (set_wal db w, Panic)
    end.

Definition Delete (db : t) (key : list byte) : t * result unit :=
  if closed db then (db, Err ErrClosed)
  else
    match WAL.WriteDelete (wal db) key with
    | (w, Ok _) => after_write (set_wal db w) (Memtable.Delete (memtable db) key)
    | (w, Err _) => (set_wal db w, Err (ErrOther "WAL write failed"))
    | (w, Panic) => (set_wal db w, Panic)
    end.

(** The answer of one layer that reports the key as found. *)
Definition answer (value : list byte) (deleted : bool) : result (list byte) :=
  if deleted then Err ErrNotFound else Ok value.

(** The loop over [db.sstables], newest to oldest. *)
Fixpoint Get_sstables (ssts : list SSTableReader.t) (key : list byte)
  : result (list byte) :=
  match ssts with
  | [] => Err ErrNotFound
  | sst :: rest =>
      match SSTableReader.Get sst key with
      | Ok (value, deleted, found) =>
          if found then answer value deleted else Get_sstables rest key
      | Err e => Err e
      | Panic => Panic
      end
  end.

Definition Get (db : t) (key : list byte) : result (list byte) :=
  if closed db then Err ErrClosed
  else
    let '(value, deleted, found) := Memtable.Get (memtable db) key in
    if found then answer value deleted
    else
      let tables (_ : unit) := Get_sstables (sstables db) key in
      match immutable db with
      | Some imm =>
          let '(value, deleted, found) := Memtable.Get imm key in
          if found then answer value deleted else tables ()
      | None => tables ()
      end.

(** The layers [Get] consults, in order, each with what it reports for the
    key: (value, deleted, found). *)
Definition layers (db : t) (key : list byte)
  : list (result (list byte * bool * bool)) :=
  [Ok (Memtable.Get (memtable db) key)] ++
  match immutable db with
  | Some imm => [Ok (Memtable.Get imm key)]
  | None => []
  end ++
  map (fun sst => SSTableReader.Get sst key) (sstables db).

(** A layer that answers, without a hit. *)
Definition reports_absent (r : result (list byte * bool * bool)) : Prop :=
  exists value deleted, r = Ok (value, deleted, false).

End DB.

(** A write's record is accepted by the reader's size check. *)
Definition record_fits (w : write) : Prop :=
  1 + 4 + 4 + len (write_key w) + len (write_value w) + 4 <= WAL.maxRecord.

Definition write_type (w : write) : byte :=
  match w with
  | WPut _ _ => WAL.RecordTypePut
  | WDelete _ => WAL.RecordTypeDelete
  end.

(** The bytes [WAL.append] adds to the file for a write. *)
Definition encode_write (w : write) : list byte :=
  WAL.encode_record (write_type w) (write_key w) (write_value w).

(** A record's bytes with an arbitrary stored checksum [crc]. *)
Definition frame (recordType : byte) (key value : list byte) (crc : Z) : list byte :=
  WAL.walMagic ++ put_u32 (u32 (i64 (1 + 4 + 4 + len key + len value + 4))) ++
  [recordType] ++ put_u32 (u32 (len key)) ++ put_u32 (u32 (len value)) ++
  key ++ value ++ put_u32 crc.

(** The checksum [ReadRecord] computes over a record's fields. *)
Definition record_crc (recordType : byte) (key value : list byte) : Z :=
  crc32 ([recordType] ++ put_u32 (u32 (len key)) ++ put_u32 (u32 (len value)) ++
         key ++ value).

(** Byte [i] of the key-and-value part of a write's record replaced by [b]
    on disk; the part starts 17 bytes into the record. *)
Definition corrupt_payload (w : write) (i : nat) (b : byte) : list byte :=
  <[(17 + i)%nat := b]> (encode_write w).

(** The writes of the recovery test, and the log they leave. *)
Definition sample_writes : list write :=
  [WPut (bytes_of "name") (bytes_of "Alice"); WPut (bytes_of "age") (bytes_of "30");
   WDelete (bytes_of "age"); WPut (bytes_of "city") (bytes_of "NYC")].

Definition sample_wal : WAL.t := (WAL.append_all (WAL.empty false) sample_writes).1.

(** A value of 100 MiB less 12 bytes: with an empty key its record is one
    byte longer than the reader accepts. *)
Definition big_value : list byte := replicate (Z.to_nat 104857588) x00.

(** The value of a call known to succeed. *)
Definition got {A} (default : A) (r : result A) : A :=
  match r with
  | Ok a => a
  | _ => default
  end.

(** The recovered counter after a run of good records. *)
Definition count_up (ws : list write) (recovered : Z) : Z :=
  fold_left (fun r _ => i64 (r + 1)) ws recovered.

(** The key and the value the reader finds in a record whose payload byte
    [i] was replaced by [b]. *)
Definition corrupt_key (w : write) (i : nat) (b : byte) : list byte :=
  take (length (write_key w)) (<[i := b]> (write_key w ++ write_value w)).

Definition corrupt_value (w : write) (i : nat) (b : byte) : list byte :=
  drop (length (write_key w)) (<[i := b]> (write_key w ++ write_value w)).

(** The rule of the read path, over what the layers report in order: the
    first hit answers; a layer that does not answer ends the lookup. *)
Fixpoint first_found (layers : list (result (list byte * bool * bool)))
  : result (list byte) :=
  match layers with
  | [] => Err ErrNotFound
  | Ok (value, deleted, found) :: rest =>
      if found then DB.answer value deleted else first_found rest
  | Err e :: _ => Err e
  | Panic :: _ => Panic
  end.

(** A user-level write through the engine. *)
Definition DB_write (db : DB.t) (w : write) : DB.t * result unit :=
  match w with
  | WPut k v => DB.Put db k v
  | WDelete k => DB.Delete db k
  end.

(** *** Sample data *)

(** A stream of three entries with a tombstone in the middle, and one of
    two entries that ends in a tombstone. *)
Definition tombstone_inside : list (list byte * list byte * bool) :=
  [(bytes_of "a", bytes_of "1", false); (bytes_of "b", [], true);
   (bytes_of "c", bytes_of "3", false)].

Definition tombstone_last : list (list byte * list byte * bool) :=
  [(bytes_of "a", bytes_of "1", false); (bytes_of "b", [], true)].

Definition empty_reader : SSTableReader.t :=
  {| SSTableReader.file := []; SSTableReader.size := 0; SSTableReader.index := [];
     SSTableReader.bloomFilter := None; SSTableReader.comparator := DefaultComparator |}.

(** The table written from a stream with [bitsPerKey] filter bits, opened. *)
Definition table_of (bitsPerKey : Z) (entries : list (list byte * list byte * bool))
  : SSTableReader.t :=
  got empty_reader
    (file ← SSTableWriter.write_table bitsPerKey entries;
     SSTableReader.OpenSSTable file None).

(** The bytes of that table. *)
Definition table_file (bitsPerKey : Z) (entries : list (list byte * list byte * bool))
  : list byte :=
  got [] (SSTableWriter.write_table bitsPerKey entries).

(** An engine with an empty memtable over one table, and one whose log
    device is full. *)
Definition sample_db : DB.t :=
  {| DB.opts := {| DB.Dir := "db"; DB.MemtableSize := 4 * 1024 * 1024;
                   DB.SyncWrites := false; DB.BloomBitsPerKey := 10 |};
     DB.memtable := Memtable.NewMemtable (4 * 1024 * 1024);
     DB.immutable := None;
     DB.wal := WAL.empty false;
     DB.sstables := [table_of 10 tombstone_inside];
     DB.nextSSTableID := 2;
     DB.closed := false |}.

Definition full_disk_db : DB.t :=
  DB.set_wal sample_db
    {| WAL.file := []; WAL.limit := Some 10; WAL.syncErr := None;
       WAL.werr := None; WAL.syncMode := false |}.

(** The memtable after [Put("k", "value")]. *)
Definition mem_k_value : Memtable.t :=
  got (Memtable.NewMemtable 1024)
      (apply_writes (Memtable.NewMemtable 1024) [WPut (bytes_of "k") (bytes_of "value")]).

(** ... and after a further [Put("k", "longer value")]. *)
Definition mem_k_longer : Memtable.t :=
  got mem_k_value
      (apply_write mem_k_value (WPut (bytes_of "k") (bytes_of "longer value"))).

(** *** What the skip list holds

    Reference functions the skip list is compared with. *)

(** Keys in strictly ascending byte order. *)
Fixpoint ascending (keys : list (list byte)) : bool :=
  match keys with
  | a :: rest =>
      match rest with
      | b :: _ => (bytes_compare a b <? 0) && ascending rest
      | [] => true
      end
  | [] => true
  end.

(** How many leading nodes have a key below [key]. *)
Fixpoint lower_bound (key : list byte) (ns : list SkipList.skipNode) : nat :=
  match ns with
  | [] => O
  | n :: rest =>
      if bytes_compare (Key (SkipList.entry n)) key <? 0
      then S (lower_bound key rest) else O
  end.

(** The entry of the first node carrying [key]. *)
Fixpoint assoc (key : list byte) (ns : list SkipList.skipNode) : option Entry :=
  match ns with
  | [] => None
  | n :: rest =>
      if bool_decide (Key (SkipList.entry n) = key) then Some (SkipList.entry n)
      else assoc key rest
  end.

(** The last entry for [key] in a sequence of writes, oldest first. *)
Fixpoint last_write (key : list byte) (es : list Entry) : option Entry :=
  match es with
  | [] => None
  | e :: rest =>
      match last_write key rest with
      | Some e' => Some e'
      | None => if bool_decide (Key e = key) then Some e else None
      end
  end.

(** What a lookup answers for an entry, or for none. *)
Definition lookup_answer (o : option Entry) : list byte * bool * bool :=
  match o with
  | Some e => (Value e, Deleted e, true)
  | None => ([], false, false)
  end.

(** The bytes the size counter charges for the entries of the nodes. *)
Definition total_size (ns : list SkipList.skipNode) : Z :=
  fold_right (fun n acc => len (Key (SkipList.entry n)) +
                           len (Value (SkipList.entry n)) + 9 + acc) 0 ns.

(** The keys of a sequence of writes without repetition count. *)
Definition distinct_keys (es : list Entry) : nat :=
  length (remove_dups (map Key es)).

(** The key of a node, and the strict byte order on keys. *)
Definition key_of (n : SkipList.skipNode) : list byte := Key (SkipList.entry n).
Definition klt (a b : list byte) : Prop := bytes_compare a b < 0.

(** The representation invariant of a skip list: bytewise comparator, keys
    strictly ascending along level 0, every node linked at level 0 and at
    no level above the list's, which stays within [maxLevel]. *)
Definition sl_ok (sl : SkipList.t) : Prop :=
  SkipList.comparator sl = DefaultComparator /\
  StronglySorted klt (map key_of (SkipList.nodes sl)) /\
  Forall (fun n => (1 <= SkipList.height n)%nat /\
                   Z.of_nat (SkipList.height n) <= SkipList.level sl) (SkipList.nodes sl) /\
  1 <= SkipList.level sl <= 12.

(** The node [PutEntry] leaves where the key was already present: value,
    flag and timestamp are overwritten in place. *)
Definition updated_node (cur : SkipList.skipNode) (e : Entry) : SkipList.skipNode :=
  {| SkipList.entry := {| Key := Key (SkipList.entry cur); Value := Value e;
                          Deleted := Deleted e; Timestamp := Timestamp e |};
     SkipList.height := SkipList.height cur |}.

(** The node [PutEntry] links for a new key. *)
Definition new_node (sl : SkipList.t) (e : Entry) : SkipList.skipNode :=
  {| SkipList.entry := e;
     SkipList.height := Z.to_nat (SkipList.randomLevel sl).2 |}.

(** What the iterator reads at a node. *)
Definition node_triple (n : SkipList.skipNode) : list byte * list byte * bool :=
  (Key (SkipList.entry n), Value (SkipList.entry n), Deleted (SkipList.entry n)).

(** A record whose declared lengths pass the reader's length check by
    wrapping around: [keyLen = 2^32 - 10], [valueLen = 10], [recordLen = 13]. *)
Definition overflow_record : list byte :=
  WAL.walMagic ++ put_u32 13 ++ [x01] ++ put_u32 (2^32 - 10) ++ put_u32 10 ++
  replicate 4 x00.

(** The four bytes of [data] at offset [j] are the magic. *)
Definition magic_at (data : list byte) (j : nat) : Prop :=
  take 4 (drop j data) = WAL.walMagic.


(** What [Get] is due to answer for the key of a write just made. *)
Definition write_answer (w : write) : result (list byte) :=
  match w with
  | WPut _ value => Ok value
  | WDelete _ => Err ErrNotFound
  end.


(** * Properties *)

(** ** Integers and bytes *)

Lemma bind_Ok {A B} (a : A) (k : A -> result B) : (Ok a ≫= k) = k a.
Proof. reflexivity. Qed.

Lemma u32_range z : 0 <= u32 z < 2^32.
Proof. unfold u32. apply Z.mod_pos_bound. lia. Qed.

Lemma u64_range z : 0 <= u64 z < 2^64.
Proof. unfold u64. apply Z.mod_pos_bound. lia. Qed.

Lemma u32_small z : 0 <= z < 2^32 -> u32 z = z.
Proof. intros. unfold u32. apply Z.mod_small. lia. Qed.

Lemma u64_small z : 0 <= z < 2^64 -> u64 z = z.
Proof. intros. unfold u64. apply Z.mod_small. lia. Qed.

Lemma i64_small z : - 2^63 <= z < 2^63 -> i64 z = z.
Proof. intros. unfold i64. rewrite Z.mod_small; lia. Qed.

Lemma byte_to_Z_range b : 0 <= byte_to_Z b < 256.
Proof.
  unfold byte_to_Z. pose proof (Byte.to_N_bounded b). lia.
Qed.

Lemma byte_of_to_Z b : byte_of_Z (byte_to_Z b) = b.
Proof.
  unfold byte_of_Z. pose proof (byte_to_Z_range b) as Hr.
  rewrite Z.mod_small by lia. unfold byte_to_Z.
  rewrite N2Z.id, Byte.of_to_N. reflexivity.
Qed.

Lemma byte_to_of_Z z : byte_to_Z (byte_of_Z z) = z mod 256.
Proof.
  unfold byte_of_Z, byte_to_Z.
  assert (Hm : 0 <= z mod 256 < 256) by (apply Z.mod_pos_bound; lia).
  destruct (Byte.of_N (Z.to_N (z mod 256))) as [b|] eqn:E.
  - apply Byte.to_of_N in E. rewrite E. lia.
  - apply Byte.of_N_None_iff in E. lia.
Qed.

Lemma le_put_length n v : length (le_put n v) = n.
Proof. revert v. induction n as [|n IH]; intros v; simpl; [done | by rewrite IH]. Qed.

Lemma le_get_range bs : 0 <= le_get bs < 2 ^ (8 * Z.of_nat (length bs)).
Proof.
  induction bs as [|b bs IH]; simpl le_get.
  - simpl. lia.
  - pose proof (byte_to_Z_range b).
    replace (8 * Z.of_nat (length (b :: bs))) with (8 + 8 * Z.of_nat (length bs))
      by (simpl length; lia).
    rewrite Z.pow_add_r by lia. change (2 ^ 8) with 256. nia.
Qed.

Lemma le_get_put n v : le_get (le_put n v) = v mod 2 ^ (8 * Z.of_nat n).
Proof.
  revert v. induction n as [|n IH]; intros v.
  - simpl. by rewrite Z.mod_1_r.
  - cbn [le_put le_get]. rewrite IH, byte_to_of_Z.
    replace (8 * Z.of_nat (S n)) with (8 + 8 * Z.of_nat n) by lia.
    rewrite Z.pow_add_r by lia. change (2 ^ 8) with 256.
    rewrite Z.rem_mul_r by lia. reflexivity.
Qed.

Lemma le_put_get bs : le_put (length bs) (le_get bs) = bs.
Proof.
  induction bs as [|b bs IH]; [done|].
  cbn [length le_put le_get].
  pose proof (byte_to_Z_range b) as Hb.
  f_equal.
  - rewrite <- (byte_of_to_Z b) at 2. unfold byte_of_Z.
    replace ((byte_to_Z b + 256 * le_get bs) mod 256) with (byte_to_Z b mod 256); [done|].
    rewrite (Z.mod_small (byte_to_Z b)) by lia.
    apply Z.mod_unique_pos with (q := le_get bs); lia.
  - replace ((byte_to_Z b + 256 * le_get bs) / 256) with (le_get bs); [done|].
    apply Z.div_unique_pos with (r := byte_to_Z b); lia.
Qed.

Lemma get_put_u32 v : le_get (put_u32 v) = u32 v.
Proof. unfold put_u32. by rewrite le_get_put. Qed.

Lemma get_put_u64 v : le_get (put_u64 v) = u64 v.
Proof. unfold put_u64. by rewrite le_get_put. Qed.

(** Published check values of the three hash functions. *)
Example crc32_check : crc32 (bytes_of "123456789") = 0xCBF43926.
Proof. vm_compute. reflexivity. Qed.

Example fnv32a_check : fnv32a (bytes_of "a") = 0xe40c292c.
Proof. vm_compute. reflexivity. Qed.

Example fnv32_check : fnv32 (bytes_of "a") = 0x050c5d7e.
Proof. vm_compute. reflexivity. Qed.

(** ** Bloom filter *)

Import BloomFilter.

Lemma land_bit x k : 0 <= k ->
  negb (Z.land x (Z.shiftl 1 k) =? 0) = Z.testbit x k.
Proof.
  intros Hk. rewrite Z.shiftl_1_l.
  destruct (Z.testbit x k) eqn:E.
  - apply negb_true_iff, Z.eqb_neq. intros H0.
    assert (Z.testbit (Z.land x (2 ^ k)) k = true) as Hb
      by (rewrite Z.land_spec, E, Z.pow2_bits_true; auto).
    rewrite H0, Z.bits_0 in Hb. discriminate.
  - apply negb_false_iff, Z.eqb_eq. apply Z.bits_inj'. intros n Hn.
    rewrite Z.land_spec, Z.bits_0, Z.pow2_bits_eqb by lia.
    destruct (Z.eqb_spec k n); subst; rewrite ?E, ?andb_false_r; auto.
Qed.

Lemma lor_bit_byte b k : 0 <= k < 8 ->
  byte_to_Z (byte_of_Z (Z.lor (byte_to_Z b) (Z.shiftl 1 k))) =
  Z.lor (byte_to_Z b) (Z.shiftl 1 k).
Proof.
  intros Hk. rewrite byte_to_of_Z. apply Z.mod_small.
  pose proof (byte_to_Z_range b) as Hb.
  rewrite Z.shiftl_1_l.
  assert (0 < 2 ^ k) by (apply Z.pow_pos_nonneg; lia).
  split; [apply Z.lor_nonneg; lia|].
  destruct (Z.eq_dec (Z.lor (byte_to_Z b) (2 ^ k)) 0) as [->|Hne]; [lia|].
  assert (0 <= Z.lor (byte_to_Z b) (2 ^ k)) by (apply Z.lor_nonneg; lia).
  apply (Z.log2_lt_pow2 _ 8); [lia|].
  rewrite Z.log2_lor by lia. rewrite Z.log2_pow2 by lia.
  destruct (Z.eq_dec (byte_to_Z b) 0) as [->|]; [simpl; lia|].
  assert (Z.log2 (byte_to_Z b) < 8) by (apply Z.log2_lt_pow2; lia).
  lia.
Qed.

Lemma index_Some {A} (s : list A) i x :
  index s i = Some x <-> 0 <= i /\ s !! Z.to_nat i = Some x.
Proof.
  unfold index, len. split.
  - destruct (Z.leb_spec 0 i); [|done]. destruct (Z.ltb_spec i (Z.of_nat (length s))); done.
  - intros [Hi Hl]. pose proof (lookup_lt_Some _ _ _ Hl).
    destruct (Z.leb_spec 0 i); [|lia].
    destruct (Z.ltb_spec i (Z.of_nat (length s))); [done|lia].
Qed.

Lemma index_in_range {A} (s : list A) i :
  0 <= i < len s -> exists x, index s i = Some x.
Proof.
  intros H. unfold len in H.
  destruct (lookup_lt_is_Some_2 s (Z.to_nat i)) as [x Hx]; [lia|].
  exists x. apply index_Some. split; [lia|done].
Qed.

Lemma setBit_length bits idx bits' :
  setBit bits idx = Ok bits' -> length bits' = length bits.
Proof.
  unfold setBit. destruct (index bits _); [|discriminate].
  intros [= <-]. apply length_insert.
Qed.

Lemma setBit_in_range bits idx :
  0 <= idx < 8 * len bits -> exists bits', setBit bits idx = Ok bits'.
Proof.
  intros H. unfold setBit.
  destruct (index_in_range bits (idx / 8)) as [x ->]; [|eauto].
  split; [apply Z.div_pos; lia | apply Z.div_lt_upper_bound; lia].
Qed.

(** The bit just set reads back as set. *)
Lemma getBit_setBit_same bits idx bits' :
  setBit bits idx = Ok bits' -> getBit bits' idx = Ok true.
Proof.
  unfold setBit, getBit. destruct (index bits _) as [b|] eqn:E; [|discriminate].
  intros [= <-]. apply index_Some in E as [Hi E].
  pose proof (lookup_lt_Some _ _ _ E) as Hlt.
  match goal with |- context [index ?l ?i] =>
    assert (index l i = Some (byte_of_Z (Z.lor (byte_to_Z b) (Z.shiftl 1 (idx mod 8))))) as ->
  end.
  { apply index_Some. split; [done|]. by apply list_lookup_insert_eq. }
  assert (0 <= idx mod 8 < 8) as Hk by (apply Z.mod_pos_bound; lia).
  rewrite lor_bit_byte, land_bit by lia.
  rewrite Z.lor_spec, Z.shiftl_1_l, Z.pow2_bits_true, orb_true_r by lia.
  reflexivity.
Qed.

(** Setting a bit clears none. *)
Lemma getBit_setBit_mono bits idx bits' j :
  setBit bits idx = Ok bits' -> getBit bits j = Ok true -> getBit bits' j = Ok true.
Proof.
  unfold setBit, getBit. destruct (index bits (idx / 8)) as [b|] eqn:E; [|discriminate].
  intros [= <-]. apply index_Some in E as [Hi E].
  pose proof (lookup_lt_Some _ _ _ E) as Hlt.
  destruct (index bits (j / 8)) as [c|] eqn:Ej; [|discriminate].
  apply index_Some in Ej as [Hj Ej].
  assert (0 <= idx mod 8 < 8) by (apply Z.mod_pos_bound; lia).
  assert (0 <= j mod 8 < 8) by (apply Z.mod_pos_bound; lia).
  destruct (decide (Z.to_nat (idx / 8) = Z.to_nat (j / 8))) as [Heq|Hne].
  - assert (c = b) as -> by congruence.
    match goal with |- context [index ?l ?i] =>
      assert (index l i = Some (byte_of_Z (Z.lor (byte_to_Z b) (Z.shiftl 1 (idx mod 8))))) as ->
    end.
    { apply index_Some. split; [done|]. rewrite <- Heq. by apply list_lookup_insert_eq. }
    rewrite lor_bit_byte, !land_bit by lia.
    intros [= Hb]. rewrite Z.lor_spec, Hb. reflexivity.
  - match goal with |- context [index ?l ?i] => assert (index l i = Some c) as -> end.
    { apply index_Some. split; [done|]. by rewrite list_lookup_insert_ne. }
    auto.
Qed.

Lemma covers_refl bits : covers bits bits.
Proof. split; auto. Qed.

Lemma covers_trans a b c : covers a b -> covers b c -> covers a c.
Proof. intros [L1 H1] [L2 H2]. split; [congruence | auto]. Qed.

Lemma setBit_covers bits idx bits' : setBit bits idx = Ok bits' -> covers bits bits'.
Proof.
  intros H. split; [eapply setBit_length; eauto|].
  intros j. eapply getBit_setBit_mono; eauto.
Qed.

Lemma position_range h1 h2 nb i :
  0 < nb -> exists idx, position h1 h2 nb i = Ok idx /\ 0 <= idx < nb.
Proof.
  intros H. unfold position. destruct (Z.eqb_spec nb 0); [lia|].
  eexists; split; [reflexivity|]. apply Z.mod_pos_bound. lia.
Qed.

(** [Add]'s loop runs to the end on a well-sized array, sets every probed
    position and clears nothing. *)
Lemma Add_loop_spec n : forall i h1 h2 nb bits,
  0 < nb -> nb = 8 * len bits ->
  exists bits', Add_loop n i h1 h2 nb bits = Ok bits' /\ covers bits bits' /\
    forall j, i <= j < i + Z.of_nat n ->
      exists idx, position h1 h2 nb j = Ok idx /\ getBit bits' idx = Ok true.
Proof.
  induction n as [|n IH]; intros i h1 h2 nb bits Hpos Hnb.
  - exists bits. split; [done|]. split; [apply covers_refl|]. intros j Hj. lia.
  - cbn [Add_loop].
    destruct (position_range h1 h2 nb i Hpos) as (idx & Hp & Hidx).
    rewrite Hp. cbn.
    destruct (setBit_in_range bits idx) as [bits1 Hs]; [lia|].
    rewrite Hs. cbn.
    pose proof (setBit_covers _ _ _ Hs) as Hc1.
    destruct (IH (i + 1) h1 h2 nb bits1 Hpos) as (bits' & Hl & Hc & Hall).
    { destruct Hc1 as [Hlen _]. unfold len in *. rewrite Hlen. done. }
    exists bits'. split; [done|]. split; [eapply covers_trans; eauto|].
    intros j Hj. destruct (Z.eq_dec j i) as [->|Hne].
    + exists idx. split; [done|]. apply Hc. eapply getBit_setBit_same; eauto.
    + apply Hall. lia.
Qed.

Lemma MayContain_loop_true n : forall i h1 h2 nb bits,
  (forall j, i <= j < i + Z.of_nat n ->
     exists idx, position h1 h2 nb j = Ok idx /\ getBit bits idx = Ok true) ->
  MayContain_loop n i h1 h2 nb bits = Ok true.
Proof.
  induction n as [|n IH]; intros i h1 h2 nb bits H; [done|].
  cbn [MayContain_loop].
  destruct (H i) as (idx & Hp & Hg); [lia|].
  rewrite Hp. cbn. rewrite Hg. cbn.
  apply IH. intros j Hj. apply H. lia.
Qed.

(** The probes of a key that all hit stay hits when bits are only added. *)
Lemma MayContain_loop_covers n : forall i h1 h2 nb bits bits',
  covers bits bits' ->
  MayContain_loop n i h1 h2 nb bits = Ok true ->
  MayContain_loop n i h1 h2 nb bits' = Ok true.
Proof.
  induction n as [|n IH]; intros i h1 h2 nb bits bits' Hc; [done|].
  cbn [MayContain_loop].
  destruct (position h1 h2 nb i) as [idx| |]; cbn; try discriminate.
  destruct (getBit bits idx) as [[|]| |] eqn:Hg; cbn; try discriminate.
  destruct Hc as [Hlen Hc]. rewrite (Hc _ Hg). cbn.
  apply IH. split; auto.
Qed.

Lemma Add_spec bf key :
  wf bf ->
  exists bf', Add bf key = Ok bf' /\ wf bf' /\ covers (bits bf) (bits bf') /\
    numBits bf' = numBits bf /\ numHash bf' = numHash bf /\
    MayContain bf' key = Ok true.
Proof.
  intros (Hnb & Hpos & Hh & Hi).
  unfold Add, MayContain. destruct (hash key) as [h1 h2].
  destruct (Add_loop_spec (Z.to_nat (numHash bf)) 0 h1 h2 (numBits bf) (bits bf))
    as (bits' & Hl & Hc & Hall); [lia|done|].
  rewrite Hl. cbn. eexists. split; [reflexivity|]. cbn.
  split; [|split; [done|split; [done|split; [done|]]]].
  - destruct Hc as [Hlen _]. unfold wf, len in *. cbn. rewrite Hlen.
    pose proof (u64_range (numItems bf + 1)). lia.
  - apply MayContain_loop_true. done.
Qed.

Lemma MayContain_covers bf bf' key :
  covers (bits bf) (bits bf') -> numBits bf' = numBits bf -> numHash bf' = numHash bf ->
  MayContain bf key = Ok true -> MayContain bf' key = Ok true.
Proof.
  unfold MayContain. intros Hc -> ->. destruct (hash key).
  apply MayContain_loop_covers. done.
Qed.

Lemma AddAll_spec keys : forall bf,
  wf bf ->
  exists bf', AddAll bf keys = Ok bf' /\ wf bf' /\ covers (bits bf) (bits bf') /\
    numBits bf' = numBits bf /\ numHash bf' = numHash bf /\
    forall k, k ∈ keys -> MayContain bf' k = Ok true.
Proof.
  induction keys as [|k keys IH]; intros bf Hwf.
  - exists bf. cbn. split; [done|]. split; [done|]. split; [apply covers_refl|].
    split; [done|]. split; [done|]. intros k Hk. inversion Hk.
  - cbn [AddAll].
    destruct (Add_spec bf k Hwf) as (bf1 & Ha & Hwf1 & Hc1 & Hnb1 & Hnh1 & Hm1).
    rewrite Ha. cbn.
    destruct (IH bf1 Hwf1) as (bf' & Hall & Hwf' & Hc & Hnb & Hnh & Hm).
    exists bf'. split; [done|]. split; [done|].
    split; [eapply covers_trans; eauto|]. split; [congruence|]. split; [congruence|].
    intros k' Hk'. apply elem_of_cons in Hk' as [->|Hin]; [|exact (Hm _ Hin)].
    eapply MayContain_covers; eauto.
Qed.

Lemma put_u32_length v : length (put_u32 v) = 4%nat.
Proof. apply le_put_length. Qed.

Lemma put_u64_length v : length (put_u64 v) = 8%nat.
Proof. apply le_put_length. Qed.

Lemma len_app {A} (l k : list A) : len (l ++ k) = len l + len k.
Proof. unfold len. rewrite length_app. lia. Qed.

Lemma len_nonneg {A} (l : list A) : 0 <= len l.
Proof. unfold len. lia. Qed.

Lemma len_put_u32 v : len (put_u32 v) = 4.
Proof. unfold len. by rewrite put_u32_length. Qed.

Lemma len_put_u64 v : len (put_u64 v) = 8.
Proof. unfold len. by rewrite put_u64_length. Qed.

Lemma len_cons {A} (x : A) l : len (x :: l) = 1 + len l.
Proof. unfold len. cbn [length]. lia. Qed.

Lemma len_nil {A} : len (@nil A) = 0.
Proof. done. Qed.

Lemma Encode_len bf : len (Encode bf) = 20 + len (bits bf).
Proof.
  unfold Encode. rewrite !len_app. unfold len.
  rewrite !put_u64_length, put_u32_length. lia.
Qed.

Lemma header_fields (a b c d : list byte) :
  length a = 8%nat -> length b = 4%nat -> length c = 8%nat ->
  take 8 (a ++ b ++ c ++ d) = a /\ take 4 (drop 8 (a ++ b ++ c ++ d)) = b /\
  take 8 (drop 12 (a ++ b ++ c ++ d)) = c /\ drop 20 (a ++ b ++ c ++ d) = d.
Proof.
  intros Ha Hb Hc.
  do 9 (destruct a as [|? a]; try discriminate).
  do 5 (destruct b as [|? b]; try discriminate).
  do 9 (destruct c as [|? c]; try discriminate).
  done.
Qed.

(** Decoding an encoded well-formed filter gives the filter back. *)
Lemma Decode_Encode bf : wf bf -> DecodeBloomFilter (Encode bf) = Ok bf.
Proof.
  intros (Hnb & Hpos & Hh & Hi). unfold DecodeBloomFilter.
  rewrite Encode_len. pose proof (len_nonneg (bits bf)) as Hl.
  destruct (Z.ltb_spec (20 + len (bits bf)) 20); [lia|].
  unfold Encode.
  destruct (header_fields (put_u64 (numBits bf)) (put_u32 (numHash bf))
              (put_u64 (numItems bf)) (bits bf)) as (-> & -> & -> & ->);
    auto using put_u64_length, put_u32_length.
  rewrite !get_put_u64, get_put_u32.
  rewrite (u64_small (numBits bf)), (u64_small (numItems bf)),
    (u32_small (numHash bf)) by lia.
  rewrite (u64_small (numBits bf + 7)) by lia.
  assert ((numBits bf + 7) / 8 = len (bits bf)) as ->.
  { symmetry. apply Z.div_unique_pos with (r := 7); lia. }
  rewrite i64_small by lia.
  destruct (Z.ltb_spec (20 + len (bits bf)) (20 + len (bits bf))); [lia|].
  unfold len. rewrite Nat2Z.id, firstn_all. by destruct bf.
Qed.

(** *** The constructor's parameters *)

Lemma float64_of_small_int b : 0 < b < 2^53 -> float64_of_int b = {| f_m := b; f_e := 0 |}.
Proof.
  intros Hb. unfold float64_of_int, round53.
  assert (Z.log2 b < 53) by (apply Z.log2_lt_pow2; lia).
  destruct (Z.leb_spec (Z.log2 b + 1 - 53) 0); [done | lia].
Qed.

(** From 45 bits per key on, the truncated product is at least 30 and still
    inside uint32. *)
Lemma numHash_large b : 45 <= b < 2^32 ->
  30 <= ftrunc (fmul (float64_of_int b) Ln2) < 2^32.
Proof.
  intros Hb. rewrite float64_of_small_int by lia.
  unfold fmul, Ln2. cbn [f_m f_e].
  set (m := b * 6243314768165359).
  assert (Hm : 30 * 2^53 <= m < 2^85 - 2^32) by (subst m; lia).
  clearbody m. unfold round53.
  assert (0 < m) as Hm0 by lia.
  pose proof (Z.log2_spec m Hm0) as [Hlo Hhi].
  assert (57 <= Z.log2 m) as Hl1.
  { apply Z.log2_le_pow2; lia. }
  assert (Z.log2 m < 85) as Hl2.
  { apply Z.log2_lt_pow2; lia. }
  set (k := Z.log2 m + 1 - 53) in *.
  destruct (Z.leb_spec k 0) as [|_]; [lia|].
  cbn zeta. set (q := m / 2 ^ k).
  match goal with
  | |- context [if ?c then q + 1 else q] => set (q' := if c then q + 1 else q)
  end.
  assert (q <= q' <= q + 1) as Hq' by (subst q'; destruct (_ || _); lia).
  clearbody q'. unfold ftrunc. cbn [f_m f_e].
  destruct (Z.leb_spec 0 (0 + -53 + k)) as [|_]; [lia|].
  replace (- (0 + -53 + k)) with (53 - k) by lia.
  set (P := 2 ^ k) in *. set (Q := 2 ^ (53 - k)).
  assert (0 < P) as HP by (apply Z.pow_pos_nonneg; lia).
  assert (0 < Q) as HQ by (apply Z.pow_pos_nonneg; lia).
  assert (P * Q = 2^53) as HPQ.
  { subst P Q. rewrite <- Z.pow_add_r by lia. f_equal. lia. }
  assert (P <= 2^32) as HP32.
  { subst P. apply Z.pow_le_mono_r; lia. }
  assert (P * q <= m) as Hq1 by (apply Z.mul_div_le; lia).
  assert (30 * Q <= q) as Hq2.
  { apply Z.div_le_lower_bound; [lia|]. nia. }
  split.
  - apply Z.div_le_lower_bound; lia.
  - apply Z.div_lt_upper_bound; [lia|].
    apply (Z.mul_lt_mono_pos_l P); [lia|]. nia.
Qed.

Lemma numHash_of_small_table :
  forallb (fun b => numHash_of b =? clamp (floor_mul_Ln2 b) 1 30)
          (map Z.of_nat (seq 1 44)) = true.
Proof. vm_compute. reflexivity. Qed.

Lemma numHash_of_floor b : 0 < b < 2^32 ->
  numHash_of b = clamp (floor_mul_Ln2 b) 1 30.
Proof.
  intros Hb. destruct (Z_lt_le_dec b 45) as [Hs|Hl].
  - pose proof numHash_of_small_table as Ht.
    rewrite forallb_forall in Ht.
    apply Z.eqb_eq, Ht. apply in_map_iff. exists (Z.to_nat b).
    split; [lia|]. apply in_seq. lia.
  - pose proof (numHash_large b ltac:(lia)) as Hr.
    unfold numHash_of, uint32_of_float. rewrite u32_small by lia.
    destruct (Z.ltb_spec (ftrunc (fmul (float64_of_int b) Ln2)) 1); [lia|].
    assert (30 <= floor_mul_Ln2 b).
    { unfold floor_mul_Ln2, Ln2. cbn [f_m]. apply Z.div_le_lower_bound; lia. }
    unfold clamp. destruct (Z.ltb_spec 30 (ftrunc (fmul (float64_of_int b) Ln2))); lia.
Qed.

(** *** Rational bounds on [ln 2]

    [exp x > 1 + x] at a 1024th of the exponent, squared ten times with the
    bound rounded down at each step. *)

Lemma exp_lower_neg : (1/2 < exp (-9/13))%R.
Proof.
  assert (H0 : ((13303/13312) < exp (-9/13312))%R).
  { replace (13303/13312)%R with (1 + (-9/13312))%R by lra. apply exp_ineq1. lra. }
  assert (H1 : ((998648293623/1000000000000) < exp (-9/6656))%R).
  { replace (-9/6656)%R with ((-9/13312) + (-9/13312))%R by lra. rewrite exp_plus. nra. }
  clear H0.
  assert (H2 : ((199459682871/200000000000) < exp (-9/3328))%R).
  { replace (-9/3328)%R with ((-9/6656) + (-9/6656))%R by lra. rewrite exp_plus. nra. }
  clear H1.
  assert (H3 : ((994604127273/1000000000000) < exp (-9/1664))%R).
  { replace (-9/1664)%R with ((-9/3328) + (-9/3328))%R by lra. rewrite exp_plus. nra. }
  clear H2.
  assert (H4 : ((989237369987/1000000000000) < exp (-9/832))%R).
  { replace (-9/832)%R with ((-9/1664) + (-9/1664))%R by lra. rewrite exp_plus. nra. }
  clear H3.
  assert (H5 : ((978590574177/1000000000000) < exp (-9/416))%R).
  { replace (-9/416)%R with ((-9/832) + (-9/832))%R by lra. rewrite exp_plus. nra. }
  clear H4.
  assert (H6 : ((957639511867/1000000000000) < exp (-9/208))%R).
  { replace (-9/208)%R with ((-9/416) + (-9/416))%R by lra. rewrite exp_plus. nra. }
  clear H5.
  assert (H7 : ((917073434687/1000000000000) < exp (-9/104))%R).
  { replace (-9/104)%R with ((-9/208) + (-9/208))%R by lra. rewrite exp_plus. nra. }
  clear H6.
  assert (H8 : ((841023684607/1000000000000) < exp (-9/52))%R).
  { replace (-9/52)%R with ((-9/104) + (-9/104))%R by lra. rewrite exp_plus. nra. }
  clear H7.
  assert (H9 : ((176830209517/250000000000) < exp (-9/26))%R).
  { replace (-9/26)%R with ((-9/52) + (-9/52))%R by lra. rewrite exp_plus. nra. }
  clear H8.
  assert (H10 : ((125075691991/250000000000) < exp (-9/13))%R).
  { replace (-9/13)%R with ((-9/26) + (-9/26))%R by lra. rewrite exp_plus. nra. }
  clear H9.
  lra.
Qed.

Lemma exp_lower_pos : (2 < exp (25/36))%R.
Proof.
  assert (H0 : ((36889/36864) < exp (25/36864))%R).
  { replace (36889/36864)%R with (1 + (25/36864))%R by lra. apply exp_ineq1. lra. }
  assert (H1 : ((250339199179/250000000000) < exp (25/18432))%R).
  { replace (25/18432)%R with ((25/36864) + (25/36864))%R by lra. rewrite exp_plus. nra. }
  clear H0.
  assert (H2 : ((125339429291/125000000000) < exp (25/9216))%R).
  { replace (25/9216)%R with ((25/18432) + (25/18432))%R by lra. rewrite exp_plus. nra. }
  clear H1.
  assert (H3 : ((502719121119/500000000000) < exp (25/4608))%R).
  { replace (25/4608)%R with ((25/9216) + (25/9216))%R by lra. rewrite exp_plus. nra. }
  clear H2.
  assert (H4 : ((1010906058953/1000000000000) < exp (25/2304))%R).
  { replace (25/2304)%R with ((25/4608) + (25/4608))%R by lra. rewrite exp_plus. nra. }
  clear H3.
  assert (H5 : ((510965530013/500000000000) < exp (25/1152))%R).
  { replace (25/1152)%R with ((25/2304) + (25/2304))%R by lra. rewrite exp_plus. nra. }
  clear H4.
  assert (H6 : ((261085772861/250000000000) < exp (25/576))%R).
  { replace (25/576)%R with ((25/1152) + (25/1152))%R by lra. rewrite exp_plus. nra. }
  clear H5.
  assert (H7 : ((218130498529/200000000000) < exp (25/288))%R).
  { replace (25/288)%R with ((25/576) + (25/576))%R by lra. rewrite exp_plus. nra. }
  clear H6.
  assert (H8 : ((1189522859711/1000000000000) < exp (25/144))%R).
  { replace (25/144)%R with ((25/288) + (25/288))%R by lra. rewrite exp_plus. nra. }
  clear H7.
  assert (H9 : ((707482316887/500000000000) < exp (25/72))%R).
  { replace (25/72)%R with ((25/144) + (25/144))%R by lra. rewrite exp_plus. nra. }
  clear H8.
  assert (H10 : ((200212491483/100000000000) < exp (25/36))%R).
  { replace (25/36)%R with ((25/72) + (25/72))%R by lra. rewrite exp_plus. nra. }
  clear H9.
  lra.
Qed.

Lemma ln2_bounds : (9/13 < ln 2 < 25/36)%R.
Proof.
  split; apply exp_lt_inv; rewrite exp_ln by lra.
  - pose proof exp_lower_neg as H. pose proof (exp_pos (9/13)) as Hp.
    replace (-9/13)%R with (- (9/13))%R in H by lra.
    rewrite exp_Ropp in H.
    assert (exp (9/13) * / exp (9/13) = 1)%R by (apply Rinv_r; lra).
    nra.
  - apply exp_lower_pos.
Qed.

Lemma floor_mul_Ln2_table :
  forallb (fun b => let n := floor_mul_Ln2 b in
                    (13 * n <=? 9 * b) && (25 * b <=? 36 * (n + 1)))
          (map Z.of_nat (seq 1 43)) = true.
Proof. vm_compute. reflexivity. Qed.

(** Up to 43 bits per key the exact product with [math.Ln2] and the real
    product with [ln 2] have the same integer part. *)
Lemma floor_mul_Ln2_real b : 0 < b < 44 -> is_floor (IZR b * ln 2) (floor_mul_Ln2 b).
Proof.
  intros Hb. pose proof floor_mul_Ln2_table as Ht.
  rewrite forallb_forall in Ht.
  specialize (Ht b). cbv zeta in Ht.
  rewrite andb_true_iff, !Z.leb_le in Ht.
  destruct Ht as [H1 H2].
  { apply in_map_iff. exists (Z.to_nat b). split; [lia|]. apply in_seq. lia. }
  set (n := floor_mul_Ln2 b) in *. clearbody n.
  apply IZR_le in H1, H2. rewrite !mult_IZR in H1, H2. rewrite plus_IZR in H2.
  assert (0 < IZR b)%R by (apply IZR_lt; lia).
  pose proof ln2_bounds. unfold is_floor. nra.
Qed.

Lemma is_floor_unique x n m : is_floor x n -> is_floor x m -> n = m.
Proof.
  unfold is_floor. intros [H1 H2] [H3 H4].
  assert (IZR n < IZR (m + 1))%R as Ha by (rewrite plus_IZR; lra).
  assert (IZR m < IZR (n + 1))%R as Hb by (rewrite plus_IZR; lra).
  apply lt_IZR in Ha, Hb. lia.
Qed.

Lemma numHash_of_real b n : 0 < b < 2^32 -> is_floor (IZR b * ln 2) n ->
  numHash_of b = clamp n 1 30.
Proof.
  intros Hb Hn. rewrite numHash_of_floor by done.
  destruct (Z_lt_le_dec b 44) as [Hs|Hl].
  - f_equal. eapply is_floor_unique; [|exact Hn]. apply floor_mul_Ln2_real. lia.
  - assert (30 <= floor_mul_Ln2 b).
    { unfold floor_mul_Ln2, Ln2. cbn [f_m]. apply Z.div_le_lower_bound; lia. }
    assert (30 <= n).
    { destruct Hn as [_ Hn]. pose proof ln2_bounds.
      assert (44 <= IZR b)%R by (apply IZR_le; lia).
      assert (IZR 29 < IZR n)%R as Hlt by nra.
      apply lt_IZR in Hlt. lia. }
    unfold clamp. lia.
Qed.

Lemma NewBloomFilter_ok e b :
  0 < e -> 0 < b -> e * b <= 8 * maxAlloc ->
  NewBloomFilter e b =
    Ok {| bits := replicate (Z.to_nat (spec_numBits e b / 8)) x00;
          numBits := spec_numBits e b;
          numHash := numHash_of b;
          numItems := 0 |}.
Proof.
  intros He Hb Hm. unfold NewBloomFilter, spec_numBits, maxAlloc in *.
  destruct (Z.leb_spec e 0); [lia|]. destruct (Z.leb_spec b 0); [lia|].
  assert (0 < e * b) by nia.
  rewrite i64_small by lia. rewrite (u64_small (e * b)) by lia.
  set (nb := if e * b <? 64 then 64 else e * b).
  assert (nb = Z.max 64 (e * b)) as Hnb
    by (subst nb; destruct (Z.ltb_spec (e * b) 64); lia).
  clearbody nb. rewrite <- Hnb.
  rewrite (u64_small (nb + 7)) by lia.
  assert (0 <= (nb + 7) / 8 <= 2^48) as Hq.
  { split; [apply Z.div_pos; lia|].
    apply Z.lt_succ_r. apply Z.div_lt_upper_bound; lia. }
  rewrite (u64_small ((nb + 7) / 8 * 8)) by lia.
  unfold make_bytes, maxAlloc.
  destruct (Z.leb_spec 0 ((nb + 7) / 8)); [|lia].
  destruct (Z.leb_spec ((nb + 7) / 8) (2^48)); [|lia].
  cbn. fold (numHash_of b).
  replace (8 * ((nb + 7) / 8) / 8) with ((nb + 7) / 8)
    by (rewrite Z.mul_comm, Z.div_mul; lia).
  do 2 f_equal. lia.
Qed.

Lemma spec_numBits_bytes e b :
  0 < e * b <= 8 * maxAlloc ->
  spec_numBits e b = 8 * (spec_numBits e b / 8) /\ 8 <= spec_numBits e b / 8 <= maxAlloc.
Proof.
  intros H. unfold spec_numBits, maxAlloc in *.
  replace (8 * ((Z.max 64 (e * b) + 7) / 8) / 8) with ((Z.max 64 (e * b) + 7) / 8)
    by (symmetry; rewrite (Z.mul_comm 8); apply Z.div_mul; lia).
  split; [done|].
  split; [apply Z.div_le_lower_bound; lia|].
  apply Z.lt_succ_r. apply Z.div_lt_upper_bound; lia.
Qed.

Lemma numHash_of_range b : 1 <= numHash_of b <= 30.
Proof.
  unfold numHash_of. cbv zeta.
  destruct (Z.ltb_spec (uint32_of_float (fmul (float64_of_int b) Ln2)) 1).
  - destruct (Z.ltb_spec 30 1); lia.
  - destruct (Z.ltb_spec 30 (uint32_of_float (fmul (float64_of_int b) Ln2))); lia.
Qed.

Lemma NewBloomFilter_wf e b bf :
  0 < e -> 0 < b -> e * b <= 8 * maxAlloc ->
  NewBloomFilter e b = Ok bf -> wf bf.
Proof.
  intros He Hb Hm. rewrite NewBloomFilter_ok by done. intros [= <-].
  assert (0 < e * b) by nia.
  destruct (spec_numBits_bytes e b) as [H1 H2]; [lia|].
  pose proof (numHash_of_range b).
  unfold wf, len, maxAlloc in *. cbn [bits numBits numHash numItems].
  rewrite length_replicate. lia.
Qed.

(** C8, as amended.  For [expectedItems > 0] and [0 < bitsPerKey < 2^32]
    whose product stays within what [make] allocates, [NewBloomFilter]
    returns a filter whose [numBits] is [items * bitsPerKey], at least 64,
    rounded up to a byte multiple, and whose [numHash] is
    [clamp(floor(bitsPerKey * ln 2), 1, 30)]: the product is truncated, not
    rounded. *)
Theorem NewBloomFilter_parameters (expectedItems bitsPerKey n : Z) :
  0 < expectedItems -> 0 < bitsPerKey < 2^32 ->
  expectedItems * bitsPerKey <= 8 * maxAlloc ->
  is_floor (IZR bitsPerKey * ln 2) n ->
  exists bf, NewBloomFilter expectedItems bitsPerKey = Ok bf /\
    numBits bf = spec_numBits expectedItems bitsPerKey /\
    numHash bf = clamp n 1 30.
Proof.
  intros He Hb Hm Hn. eexists. split; [apply NewBloomFilter_ok; lia|].
  cbn [numBits numHash]. split; [done|]. by apply numHash_of_real.
Qed.

Lemma NewBloomFilter_parameters_witness :
  exists bf, NewBloomFilter 100 10 = Ok bf /\
    numBits bf = spec_numBits 100 10 /\ numHash bf = clamp 6 1 30.
Proof.
  apply (NewBloomFilter_parameters 100 10 6).
  - lia.
  - lia.
  - unfold maxAlloc. lia.
  - unfold is_floor. pose proof ln2_bounds. lra.
Defined.

(** C8 as stated fails: with 10 bits per key, [10 * ln 2 = 6.93...] rounds
    to 7, and the filter has 6 hash functions. *)
Lemma NewBloomFilter_numHash_not_rounded :
  ~ (forall bf n, NewBloomFilter 100 10 = Ok bf ->
       is_round (IZR 10 * ln 2) n -> numHash bf = clamp n 1 30).
Proof.
  intros H.
  specialize (H _ 7 (NewBloomFilter_ok 100 10 ltac:(lia) ltac:(lia)
                       ltac:(unfold maxAlloc; lia))).
  assert (is_round (IZR 10 * ln 2) 7) as Hr
    by (unfold is_round; pose proof ln2_bounds; lra).
  specialize (H Hr). vm_compute in H. discriminate.
Qed.

(** C6.  On a well-formed filter, after any sequence of [Add]s every added
    key is reported by [MayContain], on the filter itself and on the filter
    decoded from its encoding. *)
Theorem bloom_no_false_negatives (bf : BloomFilter.t) (keys : list (list byte)) :
  wf bf ->
  exists bf', AddAll bf keys = Ok bf' /\
    forall k, k ∈ keys ->
      MayContain bf' k = Ok true /\
      exists bf'', DecodeBloomFilter (Encode bf') = Ok bf'' /\
                   MayContain bf'' k = Ok true.
Proof.
  intros Hwf.
  destruct (AddAll_spec keys bf Hwf) as (bf' & Hall & Hwf' & _ & _ & _ & Hm).
  exists bf'. split; [done|]. intros k Hk. split; [auto|].
  exists bf'. split; [by apply Decode_Encode | auto].
Qed.

Lemma bloom_no_false_negatives_witness :
  wf small_filter /\
  exists bf', AddAll small_filter [bytes_of "hello"; bytes_of "world"] = Ok bf' /\
    forall k, k ∈ [bytes_of "hello"; bytes_of "world"] ->
      MayContain bf' k = Ok true /\
      exists bf'', DecodeBloomFilter (Encode bf') = Ok bf'' /\
                   MayContain bf'' k = Ok true.
Proof.
  assert (wf small_filter) as Hwf by (unfold wf; vm_compute; intuition discriminate).
  split; [exact Hwf|].
  apply (bloom_no_false_negatives small_filter _ Hwf).
Defined.

(** The constructor builds [small_filter]. *)
Example NewBloomFilter_small : NewBloomFilter 1 10 = Ok small_filter.
Proof. vm_compute. reflexivity. Qed.

(** *** Decoding *)

(** What [DecodeBloomFilter] checks: the 20-byte header, then room for
    [(numBits + 7) / 8] bytes with the sum taken in uint64. *)
Lemma DecodeBloomFilter_spec data :
  let numBits := le_get (take 8 data) in
  let expectedSize := u64 (numBits + 7) / 8 in
  if (len data <? 20) || (len data <? 20 + expectedSize)
  then DecodeBloomFilter data = Err ErrCorruptedData
  else DecodeBloomFilter data =
       Ok {| bits := take (Z.to_nat expectedSize) (drop 20 data);
             numBits := numBits;
             numHash := le_get (take 4 (drop 8 data));
             numItems := le_get (take 8 (drop 12 data)) |}.
Proof.
  cbv zeta. unfold DecodeBloomFilter.
  pose proof (u64_range (le_get (take 8 data) + 7)) as Hr.
  assert (0 <= u64 (le_get (take 8 data) + 7) / 8 < 2^61) as Hq.
  { split; [apply Z.div_pos; lia | apply Z.div_lt_upper_bound; lia]. }
  rewrite i64_small by lia.
  destruct (len data <? 20); [done|]. cbn.
  destruct (len data <? 20 + _); done.
Qed.

(** C10: the claim fails on the code at [overflow_header].  The header
    declares [2^64 - 1] bits, so the input is shorter than
    [20 + ceil(numBits / 8)], yet decoding succeeds, with an empty bit
    array: [numBits + 7] wraps around in uint64. *)
Theorem DecodeBloomFilter_numBits_overflow :
  DecodeBloomFilter overflow_header =
    Ok {| bits := []; numBits := 2^64 - 1; numHash := 0; numItems := 0 |} /\
  len overflow_header < 20 + (2^64 - 1 + 7) / 8.
Proof. split; vm_compute; reflexivity. Qed.

(** The filter so decoded makes [MayContain] panic as soon as it probes. *)
Example DecodeBloomFilter_overflow_panics :
  MayContain {| bits := []; numBits := 2^64 - 1; numHash := 1; numItems := 0 |}
             (bytes_of "k") = Panic.
Proof. vm_compute. reflexivity. Qed.

(** ** Skip list *)

Lemma promote_spec fuel : forall level r,
  1 <= level <= 12 -> 12 <= level + Z.of_nat fuel ->
  let l' := SkipList.promote fuel level r in
  level <= l' <= 12 /\
  (forall j, 0 <= j < l' - level -> (r / 4 ^ j) mod 4 = 0) /\
  (l' < 12 -> (r / 4 ^ (l' - level)) mod 4 <> 0).
Proof.
  induction fuel as [|fuel IH]; intros level r Hl Hf; cbn [SkipList.promote].
  - cbv zeta. split; [lia|]. split; intros; lia.
  - unfold SkipList.maxLevel, SkipList.probability.
    destruct (Z.ltb_spec level 12) as [Hlt|Hge]; cbn [andb].
    + destruct (Z.eqb_spec (r mod 4) 0) as [Hz|Hnz].
      * specialize (IH (level + 1) (r / 4) ltac:(lia) ltac:(lia)).
        cbv zeta in IH |- *. destruct IH as (Hr & Hall & Hstop).
        set (l' := SkipList.promote fuel (level + 1) (r / 4)) in *.
        split; [lia|]. split.
        -- intros j Hj. destruct (Z.eq_dec j 0) as [->|Hj0].
           ++ by rewrite Z.pow_0_r, Z.div_1_r.
           ++ replace (4 ^ j) with (4 * 4 ^ (j - 1)).
              ** rewrite <- Z.div_div by (try apply Z.pow_pos_nonneg; lia).
                 apply Hall. lia.
              ** rewrite <- (Z.pow_succ_r 4) by lia. f_equal. lia.
        -- intros Hlt'. specialize (Hstop Hlt').
           replace (4 ^ (l' - level)) with (4 * 4 ^ (l' - (level + 1))).
           ++ rewrite <- Z.div_div by (try apply Z.pow_pos_nonneg; lia). done.
           ++ rewrite <- (Z.pow_succ_r 4) by lia. f_equal. lia.
      * cbv zeta. split; [lia|]. split; [intros; lia|].
        intros _. by rewrite Z.sub_diag, Z.pow_0_r, Z.div_1_r.
    + cbv zeta. split; [lia|]. split; intros; lia.
Qed.

Lemma randomLevel_range sl : 1 <= (SkipList.randomLevel sl).2 <= 12.
Proof.
  unfold SkipList.randomLevel. cbn [snd].
  pose proof (promote_spec (Z.to_nat SkipList.maxLevel) 1
                (SkipList.lcg (SkipList.randSeed sl))) as H.
  cbv zeta in H. destruct H as (H & _); [lia | unfold SkipList.maxLevel; lia | lia].
Qed.

Lemma PutEntry_seed sl e :
  (length (SkipList.nodes (SkipList.PutEntry sl e)) = length (SkipList.nodes sl) /\
   SkipList.randSeed (SkipList.PutEntry sl e) = SkipList.randSeed sl) \/
  (length (SkipList.nodes (SkipList.PutEntry sl e)) = S (length (SkipList.nodes sl)) /\
   SkipList.randSeed (SkipList.PutEntry sl e) = SkipList.lcg (SkipList.randSeed sl)).
Proof.
  unfold SkipList.PutEntry.
  assert (forall pos (l : list SkipList.skipNode) x,
            length (take pos l ++ x :: drop pos l) = S (length l)) as Hins.
  { intros pos l x. rewrite length_app. cbn [length].
    pose proof (f_equal length (take_drop pos l)) as Hl.
    rewrite length_app in Hl. lia. }
  destruct (SkipList.forward0 _ _) as [[idx cur]|].
  - destruct (_ =? 0).
    + left. cbn. by rewrite length_insert.
    + right. cbn. by rewrite Hins.
  - right. cbn. by rewrite Hins.
Qed.

Lemma PutEntry_comparator sl e :
  SkipList.comparator (SkipList.PutEntry sl e) = SkipList.comparator sl.
Proof.
  unfold SkipList.PutEntry.
  destruct (SkipList.forward0 _ _) as [[idx cur]|]; [destruct (_ =? 0)|]; done.
Qed.

Lemma PutEntries_seed es : forall sl,
  SkipList.randSeed sl = Nat.iter (length (SkipList.nodes sl)) SkipList.lcg 0xdeadbeef ->
  let sl' := fold_left SkipList.PutEntry es sl in
  SkipList.randSeed sl' = Nat.iter (length (SkipList.nodes sl')) SkipList.lcg 0xdeadbeef.
Proof.
  induction es as [|e es IH]; intros sl H; [done|].
  cbn [fold_left]. apply IH.
  destruct (PutEntry_seed sl e) as [[-> ->]|[-> ->]]; [done|].
  cbn [Nat.iter]. by rewrite H.
Qed.

(** C9.  A new list starts from the seed 0xDEADBEEF.  A level draw steps
    the seed once, by [s' = s * 1664525 + 1013904223] in 32 bits, and leaves
    the list otherwise alone; the level starts at 1 and grows by one for each
    leading base-4 digit of [s'] that is zero (the loop tests [r mod 4 == 0]
    and divides [r] by 4), up to 12.  [PutEntry] draws exactly when it links
    a new node, so after any sequence of insertions the seed is the start
    seed stepped once per node: the levels drawn depend on nothing else. *)
Theorem randomLevel_deterministic :
  (forall cmp, SkipList.randSeed (SkipList.NewSkipListWithComparator cmp) = 0xDEADBEEF) /\
  (forall sl,
     let sl' := (SkipList.randomLevel sl).1 in
     let lvl := (SkipList.randomLevel sl).2 in
     SkipList.randSeed sl' = (SkipList.randSeed sl * 1664525 + 1013904223) mod 2^32 /\
     SkipList.nodes sl' = SkipList.nodes sl /\
     1 <= lvl <= 12 /\
     (forall j, 0 <= j < lvl - 1 -> (SkipList.randSeed sl' / 4 ^ j) mod 4 = 0) /\
     (lvl < 12 -> (SkipList.randSeed sl' / 4 ^ (lvl - 1)) mod 4 <> 0)) /\
  (forall cmp es,
     let sl := fold_left SkipList.PutEntry es (SkipList.NewSkipListWithComparator cmp) in
     SkipList.randSeed sl = Nat.iter (length (SkipList.nodes sl)) SkipList.lcg 0xDEADBEEF).
Proof.
  split; [done|]. split.
  - intros sl. cbv zeta. unfold SkipList.randomLevel. cbn [fst snd SkipList.randSeed SkipList.nodes].
    split; [done|]. split; [done|].
    pose proof (promote_spec (Z.to_nat SkipList.maxLevel) 1
                  (SkipList.lcg (SkipList.randSeed sl))) as H.
    cbv zeta in H. destruct H as (H1 & H2 & H3); [lia | unfold SkipList.maxLevel; lia |].
    split; [lia|]. split; [exact H2 | exact H3].
  - intros cmp es. apply PutEntries_seed. done.
Qed.

(** The first draws of a fresh list, as the generator gives them. *)
Example first_levels :
  map SkipList.height
      (SkipList.nodes
         (fold_left (fun s k => SkipList.Put s k k)
                    (map bytes_of ["a"; "b"; "c"; "d"; "e"; "f"; "g"]%string)
                    SkipList.NewSkipList))
  = [1; 1; 2; 1; 1; 1; 2]%nat.
Proof. vm_compute. reflexivity. Qed.

(** ** Memtable size accounting *)

Lemma i64_repr x : exists k, i64 x = x + k * 2^64.
Proof.
  unfold i64. exists (- ((x + 2^63) / 2^64)).
  pose proof (Z.div_mod (x + 2^63) (2^64) ltac:(lia)). lia.
Qed.

Lemma i64_shift x k : i64 (x + k * 2^64) = i64 x.
Proof.
  unfold i64. replace (x + k * 2^64 + 2^63) with (x + 2^63 + k * 2^64) by lia.
  by rewrite Z.mod_add by lia.
Qed.

(** Sums and differences of wrapped values wrap as the plain ones do. *)
Lemma i64_add_sub a b c : i64 (a + i64 (i64 b - i64 c)) = i64 (a + b - c).
Proof.
  destruct (i64_repr b) as [kb ->]. destruct (i64_repr c) as [kc ->].
  destruct (i64_repr (b + kb * 2^64 - (c + kc * 2^64))) as [k ->].
  replace (a + (b + kb * 2^64 - (c + kc * 2^64) + k * 2^64))
    with (a + b - c + (kb - kc + k) * 2^64) by lia.
  apply i64_shift.
Qed.

Lemma i64_add a b : i64 (a + i64 b) = i64 (a + b).
Proof.
  destruct (i64_repr b) as [kb ->].
  replace (a + (b + kb * 2^64)) with (a + b + kb * 2^64) by lia.
  apply i64_shift.
Qed.

Lemma bytes_compare_eq a : forall b, bytes_compare a b = 0 -> a = b.
Proof.
  induction a as [|x a IH]; intros [|y b]; cbn; try done.
  destruct (Z.ltb_spec (byte_to_Z x) (byte_to_Z y)); [done|].
  destruct (Z.ltb_spec (byte_to_Z y) (byte_to_Z x)); [done|].
  intros H1. f_equal; [|auto].
  rewrite <- (byte_of_to_Z x), <- (byte_of_to_Z y). f_equal. lia.
Qed.

Lemma bytes_compare_refl a : bytes_compare a a = 0.
Proof.
  induction a as [|x a IH]; cbn; [done|].
  by rewrite Z.ltb_irrefl.
Qed.

(** Every memtable reached from [NewMemtable] orders keys bytewise. *)
Lemma apply_write_comparator m w m' :
  apply_write m w = Ok m' ->
  SkipList.comparator (Memtable.data m') = SkipList.comparator (Memtable.data m).
Proof.
  destruct w; cbn; unfold Memtable.Put, Memtable.Delete;
    destruct (negb _); intros [= <-]; cbn; apply PutEntry_comparator.
Qed.

Lemma apply_writes_comparator ws : forall m m',
  apply_writes m ws = Ok m' ->
  SkipList.comparator (Memtable.data m') = SkipList.comparator (Memtable.data m).
Proof.
  induction ws as [|w ws IH]; intros m m'; cbn [apply_writes].
  - by intros [= <-].
  - destruct (apply_write m w) as [m1| |] eqn:E; cbn; try done.
    intros H. rewrite (IH _ _ H). eapply apply_write_comparator; eauto.
Qed.

Lemma apply_write_PutEntry m w m' :
  apply_write m w = Ok m' ->
  Memtable.data m' = SkipList.PutEntry (Memtable.data m) (write_entry w).
Proof.
  destruct w; cbn; unfold Memtable.Put, Memtable.Delete;
    destruct (negb _); intros [= <-]; done.
Qed.

Lemma PutEntry_size sl e :
  SkipList.comparator sl = DefaultComparator ->
  SkipList.size (SkipList.PutEntry sl e) =
  i64 (SkipList.size sl +
       let '(old, _, found) := SkipList.Get sl (Key e) in
       if found then len (Value e) - len old
       else len (Key e) + len (Value e) + 9).
Proof.
  intros Hc. unfold SkipList.PutEntry, SkipList.Get, SkipList.compare.
  rewrite Hc. cbn [Compare DefaultComparator].
  destruct (SkipList.forward0 _ _) as [[idx cur]|].
  - destruct (Z.eqb_spec (bytes_compare (Key (SkipList.entry cur)) (Key e)) 0) as [Heq|Hne].
    + apply bytes_compare_eq in Heq. cbn [SkipList.size].
      unfold Entry_Size. rewrite i64_add_sub. f_equal. rewrite Heq. lia.
    + cbn [SkipList.size SkipList.randomLevel]. unfold Entry_Size.
      rewrite i64_add. f_equal. lia.
  - cbn [SkipList.size SkipList.randomLevel]. unfold Entry_Size.
    rewrite i64_add. f_equal. lia.
Qed.

(** C7, as amended.  On a memtable reached from a new one by successful
    writes, a successful Put or Delete changes [Size] by exactly
    [len(key) + len(value) + 9] when the key is not in the memtable, and by
    [len(new value) - len(old value)] when it is (a Delete writes the empty
    value), as long as the sum stays inside int64.  So [Size] does not
    decrease across a write whose key is new or whose value is not shorter
    than the one it replaces. *)
Theorem memtable_size_change (maxsize : Z) (ws : list write) (m : Memtable.t)
    (w : write) (m' : Memtable.t) :
  apply_writes (Memtable.NewMemtable maxsize) ws = Ok m ->
  apply_write m w = Ok m' ->
  - 2^63 <= Memtable.Size m + size_delta m w < 2^63 ->
  Memtable.Size m' = Memtable.Size m + size_delta m w /\
  (0 <= size_delta m w -> Memtable.Size m <= Memtable.Size m').
Proof.
  intros Hreach Hw Hrange.
  assert (Memtable.Size m' = Memtable.Size m + size_delta m w) as Heq.
  { unfold Memtable.Size, SkipList.Size.
    rewrite (apply_write_PutEntry _ _ _ Hw).
    rewrite PutEntry_size
      by (rewrite (apply_writes_comparator _ _ _ Hreach); done).
    rewrite <- (i64_small (SkipList.size (Memtable.data m) + size_delta m w)) by exact Hrange.
    unfold size_delta, Memtable.Get. by destruct w. }
  split; [exact Heq | lia].
Qed.

Lemma memtable_size_change_witness :
  Memtable.Size mem_k_longer =
    Memtable.Size mem_k_value +
    size_delta mem_k_value (WPut (bytes_of "k") (bytes_of "longer value")) /\
  (0 <= size_delta mem_k_value (WPut (bytes_of "k") (bytes_of "longer value")) ->
   Memtable.Size mem_k_value <= Memtable.Size mem_k_longer).
Proof.
  apply (memtable_size_change 1024 [WPut (bytes_of "k") (bytes_of "value")]).
  - vm_compute. reflexivity.
  - vm_compute. reflexivity.
  - vm_compute. split; [discriminate | reflexivity].
Defined.

(** C7 as stated fails: deleting a key that holds a value shrinks [Size]. *)
Lemma memtable_size_not_monotone :
  apply_writes (Memtable.NewMemtable 1024) [WPut (bytes_of "k") (bytes_of "value")]
    = Ok mem_k_value /\
  exists m', apply_write mem_k_value (WDelete (bytes_of "k")) = Ok m' /\
             Memtable.Size mem_k_value = 15 /\ Memtable.Size m' = 10.
Proof.
  split; [vm_compute; reflexivity|].
  eexists. split; [reflexivity|].
  split; vm_compute; reflexivity.
Qed.

(** ** Write-ahead log *)

Lemma lxor_range a b n :
  0 <= n -> 0 <= a < 2 ^ n -> 0 <= b < 2 ^ n -> 0 <= Z.lxor a b < 2 ^ n.
Proof.
  intros Hn Ha Hb.
  assert (0 <= Z.lxor a b) as H0 by (apply Z.lxor_nonneg; lia).
  split; [done|].
  destruct (Z.eq_dec (Z.lxor a b) 0) as [->|Hne].
  - apply Z.pow_pos_nonneg; lia.
  - apply Z.log2_lt_pow2; [lia|].
    pose proof (Z.log2_lxor a b ltac:(lia) ltac:(lia)) as Hl.
    assert (0 < n) as Hpos.
    { destruct (Z.eq_dec n 0) as [->|]; [|lia].
      assert (a = 0) as -> by lia. assert (b = 0) as -> by lia. done. }
    assert (Z.log2 a < n).
    { destruct (Z.eq_dec a 0) as [->|]; [simpl; lia | apply Z.log2_lt_pow2; lia]. }
    assert (Z.log2 b < n).
    { destruct (Z.eq_dec b 0) as [->|]; [simpl; lia | apply Z.log2_lt_pow2; lia]. }
    lia.
Qed.

Lemma crc_shift_range n : forall c, 0 <= c < 2^32 -> 0 <= crc_shift n c < 2^32.
Proof.
  induction n as [|n IH]; intros c Hc; cbn [crc_shift]; [done|].
  apply IH.
  assert (0 <= Z.shiftr c 1 < 2^32) as Hs.
  { rewrite Z.shiftr_div_pow2 by lia. change (2 ^ 1) with 2.
    split; [apply Z.div_pos; lia | apply Z.div_lt_upper_bound; lia]. }
  destruct (Z.testbit c 0); [|done].
  apply (lxor_range _ _ 32); [lia | done | unfold crc_poly; lia].
Qed.

Lemma crc32_range data : 0 <= crc32 data < 2^32.
Proof.
  unfold crc32.
  assert (forall c, 0 <= c < 2^32 -> 0 <= fold_left crc_update data c < 2^32) as H.
  { induction data as [|b data IH]; intros c Hc; cbn [fold_left]; [done|].
    apply IH. unfold crc_update. apply crc_shift_range.
    pose proof (byte_to_Z_range b).
    apply (lxor_range _ _ 32); lia. }
  apply (lxor_range _ _ 32); [lia | apply H; lia | lia].
Qed.

(** *** The CRC tells any change of a single byte

    One step of the shift register is injective on 32-bit states (bit 31 of
    the result says whether the polynomial was added), so two messages that
    differ in one byte reach different states after that byte and keep
    them apart to the end. *)

Lemma lxor_cancel_l a b c : Z.lxor a b = Z.lxor a c -> b = c.
Proof.
  intros H. rewrite <- (Z.lxor_0_l b), <- (Z.lxor_0_l c), <- (Z.lxor_nilpotent a).
  rewrite !Z.lxor_assoc. by f_equal.
Qed.

Lemma bit32_clear c : 0 <= c < 2^32 -> Z.testbit c 32 = false.
Proof.
  intros Hc. destruct (Z.eq_dec c 0) as [->|]; [done|].
  apply Z.bits_above_log2; [lia|]. apply Z.log2_lt_pow2; lia.
Qed.

Lemma crc_shift_step_bit31 c : 0 <= c < 2^32 ->
  Z.testbit (if Z.testbit c 0 then Z.lxor (Z.shiftr c 1) crc_poly else Z.shiftr c 1) 31
  = Z.testbit c 0.
Proof.
  intros Hc.
  assert (Z.testbit (Z.shiftr c 1) 31 = false) as Hs
    by (rewrite Z.shiftr_spec by lia; by apply bit32_clear).
  destruct (Z.testbit c 0); [|done].
  rewrite Z.lxor_spec, Hs. reflexivity.
Qed.

Lemma crc_shift_step_inj c c' :
  0 <= c < 2^32 -> 0 <= c' < 2^32 ->
  (if Z.testbit c 0 then Z.lxor (Z.shiftr c 1) crc_poly else Z.shiftr c 1) =
  (if Z.testbit c' 0 then Z.lxor (Z.shiftr c' 1) crc_poly else Z.shiftr c' 1) ->
  c = c'.
Proof.
  intros Hc Hc' H.
  pose proof (crc_shift_step_bit31 c Hc) as Hb.
  pose proof (crc_shift_step_bit31 c' Hc') as Hb'.
  rewrite H, Hb' in Hb.
  assert (Z.shiftr c 1 = Z.shiftr c' 1) as Hs.
  { rewrite Hb in H. destruct (Z.testbit c 0); [|done].
    rewrite !(Z.lxor_comm _ crc_poly) in H. by apply lxor_cancel_l in H. }
  rewrite !Z.shiftr_div_pow2 in Hs by lia. change (2 ^ 1) with 2 in Hs.
  pose proof (Z.bit0_mod c) as Hm. pose proof (Z.bit0_mod c') as Hm'.
  rewrite Hb in Hm'.
  pose proof (Z.div_mod c 2 ltac:(lia)). pose proof (Z.div_mod c' 2 ltac:(lia)). lia.
Qed.

Lemma crc_shift_inj n : forall c c',
  0 <= c < 2^32 -> 0 <= c' < 2^32 -> crc_shift n c = crc_shift n c' -> c = c'.
Proof.
  induction n as [|n IH]; intros c c' Hc Hc'; cbn [crc_shift]; [done|].
  intros H. apply IH in H.
  - by apply crc_shift_step_inj.
  - apply (crc_shift_range 1 c Hc).
  - apply (crc_shift_range 1 c' Hc').
Qed.

Lemma crc_update_range c b : 0 <= c < 2^32 -> 0 <= crc_update c b < 2^32.
Proof.
  intros Hc. unfold crc_update. apply crc_shift_range.
  pose proof (byte_to_Z_range b). apply (lxor_range _ _ 32); lia.
Qed.

Lemma crc_update_inj_state c c' b :
  0 <= c < 2^32 -> 0 <= c' < 2^32 -> crc_update c b = crc_update c' b -> c = c'.
Proof.
  intros Hc Hc' H. unfold crc_update in H. pose proof (byte_to_Z_range b).
  apply crc_shift_inj in H; [| apply (lxor_range _ _ 32); lia..].
  rewrite !(Z.lxor_comm _ (byte_to_Z b)) in H. by apply lxor_cancel_l in H.
Qed.

Lemma crc_update_inj_byte c b b' :
  0 <= c < 2^32 -> crc_update c b = crc_update c b' -> b = b'.
Proof.
  intros Hc H. unfold crc_update in H.
  pose proof (byte_to_Z_range b). pose proof (byte_to_Z_range b').
  apply crc_shift_inj in H; [| apply (lxor_range _ _ 32); lia..].
  apply lxor_cancel_l in H.
  rewrite <- (byte_of_to_Z b), <- (byte_of_to_Z b'). by f_equal.
Qed.

Lemma crc_fold_range data : forall c,
  0 <= c < 2^32 -> 0 <= fold_left crc_update data c < 2^32.
Proof.
  induction data as [|b data IH]; intros c Hc; cbn [fold_left]; [done|].
  apply IH. by apply crc_update_range.
Qed.

Lemma crc_fold_inj data : forall c c',
  0 <= c < 2^32 -> 0 <= c' < 2^32 ->
  fold_left crc_update data c = fold_left crc_update data c' -> c = c'.
Proof.
  induction data as [|b data IH]; intros c c' Hc Hc'; cbn [fold_left]; [done|].
  intros H. apply IH in H; [| by apply crc_update_range..].
  by apply crc_update_inj_state in H.
Qed.

(** Replacing one byte of a message by a different one changes its CRC. *)
Lemma crc32_single_byte (data : list byte) (j : nat) (b0 b : byte) :
  data !! j = Some b0 -> b <> b0 -> crc32 (<[j := b]> data) <> crc32 data.
Proof.
  intros Hj Hne. pose proof (lookup_lt_Some _ _ _ Hj) as Hlt.
  rewrite insert_take_drop by done.
  rewrite <- (take_drop_middle data j b0 Hj) at 3.
  unfold crc32. rewrite !fold_left_app. cbn [fold_left].
  set (s := fold_left crc_update (take j data) 4294967295).
  assert (0 <= s < 2^32) as Hs by (apply crc_fold_range; lia).
  intros H. rewrite !(Z.lxor_comm _ 4294967295) in H. apply lxor_cancel_l in H.
  apply crc_fold_inj in H; [| by apply crc_update_range..].
  by apply crc_update_inj_byte in H.
Qed.

Lemma ReadFull_app a rest :
  ReadFull (len a) (a ++ rest) = (rest, Ok a).
Proof.
  unfold ReadFull. pose proof (len_nonneg a) as Ha.
  pose proof (len_nonneg rest) as Hr.
  destruct (Z.eqb_spec (len a) 0) as [H0|Hn0].
  - destruct a; [done | unfold len in H0; cbn in H0; lia].
  - rewrite len_app.
    destruct (Z.eqb_spec (len a + len rest) 0); [lia|].
    destruct (Z.ltb_spec (len a + len rest) (len a)); [lia|].
    unfold len. rewrite Nat2Z.id, drop_app_length, take_app_length. done.
Qed.

Lemma slice_app {A} (pre mid post : list A) :
  slice (pre ++ mid ++ post) (len pre) (len pre + len mid) = Some mid.
Proof.
  unfold slice. pose proof (len_nonneg pre). pose proof (len_nonneg mid).
  pose proof (len_nonneg post). rewrite !len_app.
  destruct (Z.leb_spec 0 (len pre)); [|lia].
  destruct (Z.leb_spec (len pre) (len pre + len mid)); [|lia].
  destruct (Z.leb_spec (len pre + len mid) (len pre + (len mid + len post))); [|lia].
  cbn. replace (len pre + len mid - len pre) with (len mid) by lia.
  unfold len. rewrite !Nat2Z.id, drop_app_length, take_app_length. done.
Qed.

Lemma body_fields (ty : byte) (a b X : list byte) :
  length a = 4%nat -> length b = 4%nat ->
  let body := [ty] ++ a ++ b ++ X in
  body !! 0%nat = Some ty /\ take 4 (drop 1 body) = a /\
  take 4 (drop 5 body) = b /\ len ([ty] ++ a ++ b) = 9.
Proof.
  intros Ha Hb.
  do 5 (destruct a as [|? a]; try discriminate).
  do 5 (destruct b as [|? b]; try discriminate).
  done.
Qed.

(** Reading a well-framed record: the reader returns the fields when the
    stored checksum is the one it computes, and a corruption error
    otherwise; either way the stream is left right after the record. *)
Lemma ReadRecord_frame ty key value c rest :
  1 + 4 + 4 + len key + len value + 4 <= WAL.maxRecord ->
  0 <= c < 2^32 ->
  WAL.ReadRecord (frame ty key value c ++ rest) =
  (rest, if record_crc ty key value =? c then Ok (ty, key, value)
         else Err (ErrOther "CRC mismatch: corrupted record")).
Proof.
  intros Hfit Hc. unfold WAL.maxRecord in Hfit.
  pose proof (len_nonneg key) as Hk. pose proof (len_nonneg value) as Hv.
  unfold frame, record_crc.
  rewrite (u32_small (len key)), (u32_small (len value)) by lia.
  rewrite i64_small, u32_small by lia.
  set (crc := crc32 _).
  set (L := 1 + 4 + 4 + len key + len value + 4).
  set (body := [ty] ++ put_u32 (len key) ++ put_u32 (len value) ++ key ++ value ++ put_u32 c).
  assert (len body = L) as HbodyL.
  { subst body L. rewrite !len_app, !len_put_u32, len_cons, len_nil. lia. }
  unfold WAL.ReadRecord.
  rewrite <- (app_assoc WAL.walMagic).
  change 4 with (len WAL.walMagic) at 1. rewrite ReadFull_app.
  rewrite bool_decide_eq_true_2 by done. cbn [negb].
  rewrite <- (app_assoc (put_u32 L)).
  replace 4 with (len (put_u32 L)) at 1 by (unfold len; by rewrite put_u32_length).
  rewrite ReadFull_app. rewrite get_put_u32, u32_small by (subst L; lia).
  destruct (Z.ltb_spec WAL.maxRecord L) as [Hbig|_];
    [unfold WAL.maxRecord in Hbig; subst L; lia|].
  rewrite <- HbodyL, ReadFull_app.
  unfold WAL.parse_record. rewrite HbodyL.
  destruct (Z.ltb_spec L (1 + 4 + 4 + 4)); [subst L; lia|].
  destruct (body_fields ty (put_u32 (len key)) (put_u32 (len value))
              (key ++ value ++ put_u32 c)) as (H0 & H1 & H2 & H9);
    [apply put_u32_length | apply put_u32_length |].
  cbv zeta in H0, H1, H2. fold body in H0, H1, H2.
  rewrite H0, H1, H2. cbn [default].
  rewrite !get_put_u32, (u32_small (len key)), (u32_small (len value)) by lia.
  rewrite (u32_small (1 + 4 + 4 + len key + len value + 4)) by lia.
  fold L. rewrite Z.eqb_refl. cbn [negb].
  rewrite (u32_small (9 + len key)) by lia.
  rewrite (u32_small (9 + len key + len value)) by lia.
  set (pre := [ty] ++ put_u32 (len key) ++ put_u32 (len value)) in *.
  assert (body = pre ++ key ++ (value ++ put_u32 c)) as Hb1.
  { subst body pre. by rewrite <- !app_assoc. }
  assert (body = (pre ++ key) ++ value ++ put_u32 c) as Hb2.
  { subst body pre. by rewrite <- !app_assoc. }
  rewrite Hb1 at 1. rewrite <- H9 at 1 2. rewrite slice_app.
  rewrite Hb2 at 1.
  replace (9 + len key) with (len (pre ++ key)) at 1 by (rewrite len_app; lia).
  replace (9 + len key + len value) with (len (pre ++ key) + len value) at 1
    by (rewrite len_app; lia).
  rewrite slice_app.
  assert (drop (Z.to_nat (9 + len key + len value)) body = put_u32 c) as ->.
  { rewrite Hb2, app_assoc. apply drop_app_length'.
    rewrite length_app. unfold len in *. rewrite length_app in *. lia. }
  rewrite len_put_u32. cbn [Z.ltb Z.compare Pos.compare Pos.compare_cont].
  rewrite firstn_all2 by (rewrite put_u32_length; lia).
  rewrite get_put_u32, (u32_small c) by done.
  change (Datatypes.id ty) with ty. fold crc. by destruct (crc =? c).
Qed.

Lemma encode_record_frame ty key value :
  WAL.encode_record ty key value = frame ty key value (record_crc ty key value).
Proof. reflexivity. Qed.

Lemma record_crc_range ty key value : 0 <= record_crc ty key value < 2^32.
Proof. apply crc32_range. Qed.

(** Reading back a record that was written gives its three fields and
    leaves the stream right after it. *)
Lemma ReadRecord_encode ty key value rest :
  1 + 4 + 4 + len key + len value + 4 <= WAL.maxRecord ->
  WAL.ReadRecord (WAL.encode_record ty key value ++ rest) = (rest, Ok (ty, key, value)).
Proof.
  intros Hfit. rewrite encode_record_frame, ReadRecord_frame
    by (done || apply record_crc_range).
  by rewrite Z.eqb_refl.
Qed.

Lemma write_type_dispatch w mem :
  Memtable.state mem = Memtable.memtableActive ->
  exists mem', apply_write mem w = Ok mem' /\
    Memtable.state mem' = Memtable.memtableActive /\
    mem' = {| Memtable.data := SkipList.PutEntry (Memtable.data mem) (write_entry w);
              Memtable.state := Memtable.state mem;
              Memtable.maxsize := Memtable.maxsize mem |}.
Proof.
  intros Hs. destruct w; cbn; unfold Memtable.Put, Memtable.Delete;
    rewrite Hs; cbn; eexists; (split; [reflexivity|]); done.
Qed.

(** One round of the recovery loop on a well-formed record applies it. *)
Lemma recover_loop_step fuel w rest mem recovered corrupted :
  record_fits w ->
  WAL.recover_loop (S fuel) (encode_write w ++ rest) mem recovered corrupted =
  WAL.recover_loop fuel rest
    {| Memtable.data := SkipList.PutEntry (Memtable.data mem) (write_entry w);
       Memtable.state := Memtable.state mem;
       Memtable.maxsize := Memtable.maxsize mem |}
    (i64 (recovered + 1)) corrupted.
Proof.
  intros Hfit. cbn [WAL.recover_loop]. unfold encode_write.
  rewrite ReadRecord_encode by exact Hfit.
  destruct w; cbn [write_type write_key write_value write_entry];
    unfold WAL.RecordTypePut, WAL.RecordTypeDelete; done.
Qed.

Lemma recover_loop_end fuel mem recovered corrupted :
  WAL.recover_loop (S fuel) [] mem recovered corrupted =
  Some (Ok (mem, recovered, corrupted)).
Proof. done. Qed.

Lemma recover_loop_records ws : forall fuel mem recovered corrupted,
  Forall record_fits ws -> (length ws < fuel)%nat ->
  Memtable.state mem = Memtable.memtableActive ->
  exists mem',
    WAL.recover_loop fuel (concat (map encode_write ws)) mem recovered corrupted =
      Some (Ok (mem', count_up ws recovered, corrupted)) /\
    apply_writes mem ws = Ok mem'.
Proof.
  induction ws as [|w ws IH]; intros fuel mem recovered corrupted Hfit Hfuel Hst.
  - destruct fuel; [cbn in Hfuel; lia|]. exists mem. done.
  - destruct fuel; [cbn in Hfuel; lia|].
    apply Forall_cons in Hfit as [Hw Hws].
    cbn [map concat]. rewrite recover_loop_step by done.
    destruct (write_type_dispatch w mem Hst) as (mem1 & Happ & Hst1 & Heq).
    cbn [apply_writes]. rewrite Happ. cbn. rewrite <- Heq.
    apply IH; [done | cbn in Hfuel; lia | done].
Qed.

Lemma encode_write_length w : (1 <= length (encode_write w))%nat.
Proof. unfold encode_write, WAL.encode_record. cbn. lia. Qed.

Lemma concat_encode_length ws :
  (length ws <= length (concat (map encode_write ws)))%nat.
Proof.
  induction ws as [|w ws IH]; cbn [map concat length]; [lia|].
  rewrite length_app. pose proof (encode_write_length w). lia.
Qed.

(** What successful appends leave in the file. *)
Lemma append_all_file ws : forall w0 w,
  WAL.append_all w0 ws = (w, Ok tt) ->
  WAL.file w = WAL.file w0 ++ concat (map encode_write ws).
Proof.
  induction ws as [|op ws IH]; intros w0 w; cbn [WAL.append_all map concat].
  - intros [= <-]. by rewrite app_nil_r.
  - destruct (WAL.append w0 op) as [w1 r] eqn:E.
    assert (forall u, r = Ok u -> WAL.file w1 = WAL.file w0 ++ encode_write op) as Hf.
    { intros u ->. revert E. unfold WAL.append, WAL.WritePut, WAL.WriteDelete, WAL.Write.
      unfold encode_write.
      destruct op; cbn [write_type write_key write_value];
        destruct (WAL.werr w0); try discriminate;
        (match goal with |- context [if ?c then _ else _] => destruct c end;
         [|discriminate]);
        destruct (WAL.syncMode w0); [destruct (WAL.syncErr w0); try discriminate| |
                                     destruct (WAL.syncErr w0); try discriminate|];
        intros [= <-]; done. }
    destruct r as [[]| |]; try discriminate.
    intros H. rewrite (IH _ _ H), (Hf tt eq_refl), app_assoc. done.
Qed.

(** On a device without faults every append succeeds. *)
Lemma append_all_empty ws sync :
  exists w, WAL.append_all (WAL.empty sync) ws = (w, Ok tt).
Proof.
  assert (forall w0, WAL.limit w0 = None -> WAL.syncErr w0 = None -> WAL.werr w0 = None ->
            exists w, WAL.append_all w0 ws = (w, Ok tt)) as H.
  { induction ws as [|op ws IH]; intros w0 Hr Hs He; cbn [WAL.append_all]; [eauto|].
    assert (exists w1, WAL.append w0 op = (w1, Ok tt) /\ WAL.limit w1 = None /\
                       WAL.syncErr w1 = None /\ WAL.werr w1 = None) as (w1 & -> & H1 & H2 & H3).
    { unfold WAL.append, WAL.WritePut, WAL.WriteDelete, WAL.Write.
      destruct op; rewrite He, Hr, Hs; destruct (WAL.syncMode w0);
        eexists; (split; [reflexivity|]); done. }
    by apply IH. }
  by apply H.
Qed.

(** *** The recovery loop always terminates *)




(** A successful scan leaves the stream at a magic, no further back than
    the bytes it has matched. *)
Lemma scan_found rem : forall matchCount rem',
  WAL.scan matchCount rem = (rem', true) ->
  exists rest, rem' = WAL.walMagic ++ rest /\
               (length rest + 4 <= length rem + matchCount)%nat.
Proof.
  induction rem as [|b rest IH]; intros mc rem'; cbn [WAL.scan]; [discriminate|].
  destruct (bool_decide (WAL.walMagic !! mc = Some b)) eqn:Em.
  - destruct (bool_decide (S mc = 4%nat)) eqn:E4.
    + apply bool_decide_eq_true in E4. intros [= <-].
      exists rest. split; [done|]. cbn. lia.
    + intros (r & -> & Hr)%IH. exists r. split; [done|]. cbn. lia.
  - destruct (bool_decide (WAL.walMagic !! 0%nat = Some b));
      intros (r & -> & Hr)%IH; exists r; (split; [done|]); cbn; lia.
Qed.




(** C2, as amended.  For every sequence of Put/Delete operations whose
    records pass the reader's 100 MiB size check, written through
    [WAL.Write] to an empty log without a write error: recovery over the
    resulting bytes returns without error and without a corrupted record,
    and the memtable it builds answers [Get] for every key (so for every
    key mentioned in the sequence) as the memtable built by applying the
    sequence to an empty one. *)
Theorem wal_round_trip (w0 w : WAL.t) (ws : list write) (maxSize : Z) :
  WAL.file w0 = [] ->
  WAL.append_all w0 ws = (w, Ok tt) ->
  Forall record_fits ws ->
  exists mrec mseq recovered,
    WAL.RecoverMemtable (Some (WAL.file w)) maxSize = Some (Ok (mrec, recovered, 0)) /\
    apply_writes (Memtable.NewMemtable maxSize) ws = Ok mseq /\
    forall key, Memtable.Get mrec key = Memtable.Get mseq key.
Proof.
  intros Hempty Happ Hfit.
  rewrite (append_all_file _ _ _ Happ), Hempty, app_nil_l.
  unfold WAL.RecoverMemtable.
  destruct (recover_loop_records ws (S (length (concat (map encode_write ws))))
              (Memtable.NewMemtable maxSize) 0 0 Hfit) as (m & Hrec & Hseq).
  { pose proof (concat_encode_length ws). lia. }
  { done. }
  exists m, m, (count_up ws 0). done.
Qed.

Lemma wal_round_trip_witness :
  exists mrec mseq recovered,
    WAL.RecoverMemtable (Some (WAL.file sample_wal)) 1024 = Some (Ok (mrec, recovered, 0)) /\
    apply_writes (Memtable.NewMemtable 1024) sample_writes = Ok mseq /\
    forall key, Memtable.Get mrec key = Memtable.Get mseq key.
Proof.
  apply (wal_round_trip (WAL.empty false) sample_wal sample_writes 1024).
  - reflexivity.
  - vm_compute. reflexivity.
  - repeat constructor; vm_compute; discriminate.
Defined.

(** *** A record the writer accepts and the reader refuses *)

Lemma scan_zeros n tail :
  WAL.scan 0 (replicate n x00 ++ tail) = WAL.scan 0 tail.
Proof. induction n as [|n IH]; [done|]. cbn. exact IH. Qed.

(** After a refused record the rest of the log is searched for a magic; in
    four bytes there is room for the magic alone. *)
Lemma scan_four (l : list byte) :
  length l = 4%nat ->
  WAL.scan 0 l = (WAL.walMagic, true) \/ exists r, WAL.scan 0 l = (r, false).
Proof.
  intros Hl. destruct (WAL.scan 0 l) as [r [|]] eqn:E; [|eauto].
  left. apply scan_found in E as (rest & -> & Hr).
  destruct rest; [by rewrite app_nil_r | cbn in Hr; lia].
Qed.

Lemma recover_loop_unfold fuel rem mem recovered corrupted :
  WAL.recover_loop (S fuel) rem mem recovered corrupted =
  match WAL.ReadRecord rem with
  | (_, Err EOF) => Some (Ok (mem, recovered, corrupted))
  | (_, Panic) => Some Panic
  | (rem', Err _) =>
      match WAL.ScanToNextRecord rem' with
      | (_, false) => Some (Ok (mem, recovered, i64 (corrupted + 1)))
      | (rem'', true) => WAL.recover_loop fuel rem'' mem recovered (i64 (corrupted + 1))
      end
  | (rem', Ok (recordType, key, value)) =>
      if bool_decide (recordType = WAL.RecordTypePut) then
        WAL.recover_loop fuel rem'
          {| Memtable.data := SkipList.Put (Memtable.data mem) key value;
             Memtable.state := Memtable.state mem;
             Memtable.maxsize := Memtable.maxsize mem |}
          (i64 (recovered + 1)) corrupted
      else if bool_decide (recordType = WAL.RecordTypeDelete) then
        WAL.recover_loop fuel rem'
          {| Memtable.data := SkipList.Delete (Memtable.data mem) key;
             Memtable.state := Memtable.state mem;
             Memtable.maxsize := Memtable.maxsize mem |}
          (i64 (recovered + 1)) corrupted
      else WAL.recover_loop fuel rem' mem recovered corrupted
  end.
Proof. reflexivity. Qed.

(** A log that is a magic and nothing more ends the loop. *)
Lemma recover_loop_magic_only fuel mem recovered corrupted :
  WAL.recover_loop (S fuel) WAL.walMagic mem recovered corrupted =
  Some (Ok (mem, recovered, corrupted)).
Proof. reflexivity. Qed.

Lemma ReadRecord_too_large lenBytes body :
  length lenBytes = 4%nat -> WAL.maxRecord < le_get lenBytes ->
  WAL.ReadRecord (WAL.walMagic ++ lenBytes ++ body) =
  (body, Err (ErrOther "record too large")).
Proof.
  intros Hl Hbig. unfold WAL.ReadRecord.
  change 4 with (len WAL.walMagic) at 1. rewrite ReadFull_app.
  rewrite bool_decide_eq_true_2 by done. cbn [negb].
  replace 4 with (len lenBytes) at 1 by (unfold len; rewrite Hl; done).
  rewrite ReadFull_app.
  destruct (Z.ltb_spec WAL.maxRecord (le_get lenBytes)); [done | lia].
Qed.

Lemma oversized_record_lost (n : nat) (maxSize : Z) :
  Z.of_nat n = 104857588 ->
  exists corrupted,
    WAL.RecoverMemtable
      (Some (WAL.encode_record WAL.RecordTypePut [] (replicate n x00))) maxSize
    = Some (Ok (Memtable.NewMemtable maxSize, 0, corrupted)).
Proof.
  intros Hn. unfold WAL.RecoverMemtable, WAL.encode_record.
  assert (len (replicate n x00) = 104857588) as Hlen
    by (unfold len; rewrite length_replicate; exact Hn).
  rewrite Hlen. change (len (@nil byte)) with 0.
  set (crc := crc32 _). clearbody crc.
  set (v := replicate n x00) in *.
  match goal with |- context [WAL.recover_loop (S ?f)] =>
    assert (exists fuel, f = S fuel) as [fuel ->] by (cbn [app WAL.walMagic length]; eauto)
  end.
  rewrite recover_loop_unfold, ReadRecord_too_large;
    [| apply put_u32_length | rewrite get_put_u32; vm_compute; reflexivity].
  replace (put_u32 (u32 104857588)) with [xf4; xff; x3f; x06] by (vm_compute; reflexivity).
  replace (put_u32 (u32 0)) with [x00; x00; x00; x00] by (vm_compute; reflexivity).
  unfold WAL.ScanToNextRecord, WAL.RecordTypePut. cbn [app WAL.scan].
  repeat (rewrite bool_decide_eq_false_2 by (cbn; discriminate)).
  subst v. rewrite scan_zeros.
  destruct (scan_four (put_u32 crc) (put_u32_length crc)) as [->|[r ->]]; [|eauto].
  rewrite recover_loop_magic_only. eauto.
Qed.

Lemma put_then_get_empty_key (v : list byte) (maxSize : Z) :
  exists mseq, apply_writes (Memtable.NewMemtable maxSize) [WPut [] v] = Ok mseq /\
               (Memtable.Get mseq []).2 = true /\
               (Memtable.Get (Memtable.NewMemtable maxSize) []).2 = false.
Proof. eexists. split; [reflexivity|]. split; reflexivity. Qed.

(** C2 as stated fails.  [Put("", v)] with [v] of 104857588 bytes is
    written without error, recovery returns without error, and the
    recovered memtable does not hold the key that the sequential one
    holds. *)
Lemma wal_round_trip_oversized :
  exists w mrec mseq recovered corrupted,
    WAL.append_all (WAL.empty false) [WPut [] big_value] = (w, Ok tt) /\
    WAL.RecoverMemtable (Some (WAL.file w)) 1024 = Some (Ok (mrec, recovered, corrupted)) /\
    apply_writes (Memtable.NewMemtable 1024) [WPut [] big_value] = Ok mseq /\
    (Memtable.Get mseq []).2 = true /\ (Memtable.Get mrec []).2 = false.
Proof.
  destruct (append_all_empty [WPut [] big_value] false) as [w Hw].
  destruct (oversized_record_lost (Z.to_nat 104857588) 1024) as [c Hc];
    [apply Z2Nat.id; lia|].
  destruct (put_then_get_empty_key big_value 1024) as (mseq & H1 & H2 & H3).
  exists w, (Memtable.NewMemtable 1024), mseq, 0, c.
  split; [exact Hw|]. split; [|exact (conj H1 (conj H2 H3))].
  rewrite (append_all_file _ _ _ Hw).
  change (WAL.RecoverMemtable
            (Some (WAL.encode_record WAL.RecordTypePut [] big_value ++ [])) 1024 =
          Some (Ok (Memtable.NewMemtable 1024, 0, c))).
  rewrite app_nil_r. exact Hc.
Qed.

(** *** Recovery across a corrupted record *)

Lemma corrupt_payload_frame w i b :
  (i < length (write_key w ++ write_value w))%nat ->
  corrupt_payload w i b =
  frame (write_type w) (corrupt_key w i b) (corrupt_value w i b)
        (record_crc (write_type w) (write_key w) (write_value w)) /\
  len (corrupt_key w i b) = len (write_key w) /\
  len (corrupt_value w i b) = len (write_value w).
Proof.
  intros Hi. unfold corrupt_key, corrupt_value.
  set (k := write_key w) in *. set (v := write_value w) in *.
  set (p' := <[i := b]> (k ++ v)).
  assert (length p' = length (k ++ v)) as Hp' by apply length_insert.
  rewrite length_app in Hp'.
  assert (len (take (length k) p') = len k) as Hk.
  { unfold len. rewrite length_take. lia. }
  assert (len (drop (length k) p') = len v) as Hv.
  { unfold len. rewrite length_drop. lia. }
  split; [|done].
  unfold corrupt_payload, encode_write. rewrite encode_record_frame.
  fold k v. unfold frame. rewrite Hk, Hv.
  set (A := put_u32 (u32 (i64 (1 + 4 + 4 + len k + len v + 4)))).
  set (B := put_u32 (u32 (len k))). set (C := put_u32 (u32 (len v))).
  set (crc := put_u32 _).
  assert (length A = 4%nat) as HA by apply put_u32_length.
  assert (length B = 4%nat) as HB by apply put_u32_length.
  assert (length C = 4%nat) as HC by apply put_u32_length.
  replace (WAL.walMagic ++ A ++ [write_type w] ++ B ++ C ++ k ++ v ++ crc)
    with ((WAL.walMagic ++ A ++ [write_type w] ++ B ++ C) ++ (k ++ v) ++ crc)
    by (by rewrite <- !app_assoc).
  replace (WAL.walMagic ++ A ++ [write_type w] ++ B ++ C ++
           take (length k) p' ++ drop (length k) p' ++ crc)
    with ((WAL.walMagic ++ A ++ [write_type w] ++ B ++ C) ++ p' ++ crc)
    by (rewrite <- !app_assoc, (app_assoc (take _ _)), take_drop; done).
  assert (length (WAL.walMagic ++ A ++ [write_type w] ++ B ++ C) = 17%nat) as H17.
  { rewrite !length_app, HA, HB, HC. done. }
  rewrite insert_app_r_alt by lia.
  rewrite H17. replace (17 + i - 17)%nat with i by lia.
  rewrite insert_app_l by done. done.
Qed.

Lemma scan_magic rest : WAL.scan 0 (WAL.walMagic ++ rest) = (WAL.walMagic ++ rest, true).
Proof. reflexivity. Qed.

(** The checksum the reader computes over a record with one payload byte
    changed is not the one stored in it. *)
Lemma corrupt_payload_crc w i b0 b :
  (write_key w ++ write_value w) !! i = Some b0 -> b <> b0 ->
  record_crc (write_type w) (corrupt_key w i b) (corrupt_value w i b) <>
  record_crc (write_type w) (write_key w) (write_value w).
Proof.
  intros Hi Hne. pose proof (lookup_lt_Some _ _ _ Hi) as Hlt.
  destruct (corrupt_payload_frame w i b Hlt) as (_ & Hk & Hv).
  unfold record_crc. rewrite Hk, Hv.
  unfold corrupt_key, corrupt_value.
  set (k := write_key w) in *. set (v := write_value w) in *.
  set (A := put_u32 (u32 (len k))). set (B := put_u32 (u32 (len v))).
  rewrite take_drop.
  replace ([write_type w] ++ A ++ B ++ <[i:=b]> (k ++ v))
    with (<[(9 + i)%nat := b]> (([write_type w] ++ A ++ B) ++ k ++ v)).
  - replace ([write_type w] ++ A ++ B ++ k ++ v)
      with (([write_type w] ++ A ++ B) ++ k ++ v) by (by rewrite <- !app_assoc).
    apply (crc32_single_byte _ _ b0); [|done].
    rewrite lookup_app_r by (rewrite !length_app; subst A B; rewrite !put_u32_length; cbn; lia).
    rewrite !length_app. subst A B. rewrite !put_u32_length. cbn [length].
    replace (9 + i - (1 + (4 + 4)))%nat with i by lia. done.
  - rewrite insert_app_r_alt
      by (rewrite !length_app; subst A B; rewrite !put_u32_length; cbn; lia).
    rewrite !length_app. subst A B. rewrite !put_u32_length. cbn [length].
    replace (9 + i - (1 + (4 + 4)))%nat with i by lia.
    by rewrite <- !app_assoc.
Qed.

(** C3.  A log of three valid records in which one byte of the second
    record's key-and-value part was replaced by a different one (the stored
    CRC then no longer matches): [RecoverMemtable] returns without error,
    the memtable is the one built from records 1 and 3, two records are
    counted as recovered and exactly one as corrupted. *)
Theorem recovery_skips_corrupted_record (w1 w2 w3 : write) (i : nat) (b0 b : byte)
    (maxSize : Z) :
  record_fits w1 -> record_fits w2 -> record_fits w3 ->
  (write_key w2 ++ write_value w2) !! i = Some b0 -> b <> b0 ->
  record_crc (write_type w2) (corrupt_key w2 i b) (corrupt_value w2 i b) <>
    record_crc (write_type w2) (write_key w2) (write_value w2) /\
  exists mem,
    WAL.RecoverMemtable
      (Some (encode_write w1 ++ corrupt_payload w2 i b ++ encode_write w3)) maxSize
    = Some (Ok (mem, 2, 1)) /\
    apply_writes (Memtable.NewMemtable maxSize) [w1; w3] = Ok mem.
Proof.
  intros Hf1 Hf2 Hf3 Hb0 Hne.
  pose proof (corrupt_payload_crc w2 i b0 b Hb0 Hne) as Hcrc.
  split; [exact Hcrc|].
  pose proof (lookup_lt_Some _ _ _ Hb0) as Hi.
  unfold WAL.RecoverMemtable.
  match goal with |- context [WAL.recover_loop (S ?f)] => set (fuel := f) end.
  assert (3 <= fuel)%nat as Hfuel.
  { subst fuel. rewrite !length_app.
    pose proof (encode_write_length w1). pose proof (encode_write_length w3).
    assert (length (corrupt_payload w2 i b) = length (encode_write w2)) as ->
      by apply length_insert.
    pose proof (encode_write_length w2). lia. }
  clearbody fuel.
  destruct fuel as [|[|[|fuel]]]; try lia.
  rewrite recover_loop_step by done.
  destruct (corrupt_payload_frame w2 i b Hi) as (-> & Hk & Hv).
  rewrite recover_loop_unfold.
  rewrite ReadRecord_frame;
    [| unfold record_fits in Hf2; rewrite Hk, Hv; exact Hf2 | apply record_crc_range].
  destruct (Z.eqb_spec (record_crc (write_type w2) (corrupt_key w2 i b) (corrupt_value w2 i b))
              (record_crc (write_type w2) (write_key w2) (write_value w2))) as [Heq|_];
    [done|].
  unfold WAL.ScanToNextRecord, encode_write at 1.
  rewrite encode_record_frame. unfold frame at 1. rewrite scan_magic.
  change (WAL.walMagic ++ ?x) with (frame (write_type w3) (write_key w3) (write_value w3)
    (record_crc (write_type w3) (write_key w3) (write_value w3))).
  rewrite <- encode_record_frame. fold (encode_write w3).
  destruct (write_type_dispatch w1 (Memtable.NewMemtable maxSize) eq_refl)
    as (m1 & Happ1 & Hst1 & Heq1).
  rewrite <- Heq1. cbn [apply_writes]. rewrite Happ1, bind_Ok.
  destruct (recover_loop_records [w3] (S (S fuel)) m1 (i64 (0 + 1)) (i64 (0 + 1)))
    as (m & Hrec & Hseq); [by constructor | cbn; lia | done |].
  cbn [map concat] in Hrec. rewrite app_nil_r in Hrec.
  exists m. split; [|exact Hseq]. exact Hrec.
Qed.

Lemma recovery_skips_corrupted_record_witness :
  record_crc WAL.RecordTypePut
    (corrupt_key (WPut (bytes_of "age") (bytes_of "30")) 1 x00)
    (corrupt_value (WPut (bytes_of "age") (bytes_of "30")) 1 x00) <>
    record_crc WAL.RecordTypePut (bytes_of "age") (bytes_of "30") /\
  exists mem,
    WAL.RecoverMemtable
      (Some (encode_write (WPut (bytes_of "name") (bytes_of "Alice")) ++
             corrupt_payload (WPut (bytes_of "age") (bytes_of "30")) 1 x00 ++
             encode_write (WPut (bytes_of "city") (bytes_of "NYC")))) 1024
    = Some (Ok (mem, 2, 1)) /\
    apply_writes (Memtable.NewMemtable 1024)
      [WPut (bytes_of "name") (bytes_of "Alice"); WPut (bytes_of "city") (bytes_of "NYC")]
    = Ok mem.
Proof.
  apply (recovery_skips_corrupted_record
           (WPut (bytes_of "name") (bytes_of "Alice"))
           (WPut (bytes_of "age") (bytes_of "30"))
           (WPut (bytes_of "city") (bytes_of "NYC")) 1 "g"%byte x00 1024).
  - vm_compute. discriminate.
  - vm_compute. discriminate.
  - vm_compute. discriminate.
  - reflexivity.
  - discriminate.
Defined.

(** ** The engine *)

Lemma Get_sstables_first_found ssts key :
  DB.Get_sstables ssts key =
  first_found (map (fun sst => SSTableReader.Get sst key) ssts).
Proof.
  induction ssts as [|sst rest IH]; cbn [DB.Get_sstables map first_found]; [done|].
  destruct (SSTableReader.Get sst key) as [[[v d] [|]]| |]; done.
Qed.

Lemma Get_first_found db key :
  DB.closed db = false -> DB.Get db key = first_found (DB.layers db key).
Proof.
  intros Hc. unfold DB.Get, DB.layers. rewrite Hc.
  cbn [app first_found].
  destruct (Memtable.Get (DB.memtable db) key) as [[v d] [|]]; [done|].
  destruct (DB.immutable db) as [imm|]; cbn [app first_found].
  - destruct (Memtable.Get imm key) as [[v' d'] [|]]; [done|].
    apply Get_sstables_first_found.
  - apply Get_sstables_first_found.
Qed.

Lemma first_found_hit pre : forall value deleted post,
  Forall DB.reports_absent pre ->
  first_found (pre ++ Ok (value, deleted, true) :: post) = DB.answer value deleted.
Proof.
  induction pre as [|r pre IH]; intros value deleted post Hpre; [done|].
  apply Forall_cons in Hpre as [(v & d & ->) Hpre].
  cbn [app first_found]. by apply IH.
Qed.

Lemma first_found_none layers :
  Forall DB.reports_absent layers -> first_found layers = Err ErrNotFound.
Proof.
  induction layers as [|r layers IH]; intros H; [done|].
  apply Forall_cons in H as [(v & d & ->) H]. cbn [first_found]. by apply IH.
Qed.

(** C1.  On an open database, [Get] consults the layers in the order of
    [DB.layers]: the active memtable, the immutable memtable when there is
    one, then the tables in list order (newest first).  When a layer
    reports the key as found and every layer before it reports it absent,
    the result is [ErrNotFound] if that entry is a tombstone and its value
    otherwise; when every layer reports the key absent, the result is
    [ErrNotFound]. *)
Theorem Get_first_layer_wins (db : DB.t) (key : list byte) :
  DB.closed db = false ->
  (forall pre value deleted post,
     DB.layers db key = pre ++ Ok (value, deleted, true) :: post ->
     Forall DB.reports_absent pre ->
     DB.Get db key = if deleted then Err ErrNotFound else Ok value) /\
  (Forall DB.reports_absent (DB.layers db key) -> DB.Get db key = Err ErrNotFound).
Proof.
  intros Hc. rewrite Get_first_found by done. split.
  - intros pre value deleted post -> Hpre. by apply first_found_hit.
  - apply first_found_none.
Qed.

Lemma Get_first_layer_wins_witness :
  DB.Get sample_db (bytes_of "a") = Ok (bytes_of "1") /\
  DB.Get sample_db (bytes_of "b") = Err ErrNotFound /\
  DB.Get sample_db (bytes_of "zz") = Err ErrNotFound.
Proof.
  split; [|split].
  - apply (proj1 (Get_first_layer_wins sample_db (bytes_of "a") eq_refl)
             [Ok ([], false, false)] (bytes_of "1") false []).
    + vm_compute. reflexivity.
    + repeat constructor. by exists [], false.
  - apply (proj1 (Get_first_layer_wins sample_db (bytes_of "b") eq_refl)
             [Ok ([], false, false)] [] true []).
    + vm_compute. reflexivity.
    + repeat constructor. by exists [], false.
  - apply (proj2 (Get_first_layer_wins sample_db (bytes_of "zz") eq_refl)).
    assert (DB.layers sample_db (bytes_of "zz") =
            [Ok ([], false, false); Ok ([], false, false)]) as ->
      by (vm_compute; reflexivity).
    repeat constructor; by exists [], false.
Defined.

(** C4.  When the WAL append of a Put or a Delete returns an error, the
    operation returns an error and leaves the memtable as it was (so no
    entry is inserted or updated and size and count are unchanged); the
    immutable memtable and the tables are untouched as well. *)
Theorem wal_failure_leaves_memtable (db : DB.t) (w : write) (wal' : WAL.t) (e : error) :
  WAL.append (DB.wal db) w = (wal', Err e) ->
  exists e',
    (DB_write db w).2 = Err e' /\
    DB.memtable (DB_write db w).1 = DB.memtable db /\
    Memtable.Size (DB.memtable (DB_write db w).1) = Memtable.Size (DB.memtable db) /\
    Memtable.Count (DB.memtable (DB_write db w).1) = Memtable.Count (DB.memtable db) /\
    DB.immutable (DB_write db w).1 = DB.immutable db /\
    DB.sstables (DB_write db w).1 = DB.sstables db.
Proof.
  intros Hw. destruct w as [k v|k]; cbn [WAL.append DB_write] in *;
    unfold DB.Put, DB.Delete; destruct (DB.closed db);
    try (exists ErrClosed; by repeat split);
    rewrite Hw; eexists; by repeat split.
Qed.

Lemma wal_failure_leaves_memtable_witness :
  exists e',
    (DB_write full_disk_db (WPut (bytes_of "hello") (bytes_of "world"))).2 = Err e' /\
    DB.memtable (DB_write full_disk_db (WPut (bytes_of "hello") (bytes_of "world"))).1
      = DB.memtable full_disk_db /\
    Memtable.Size (DB.memtable (DB_write full_disk_db (WPut (bytes_of "hello") (bytes_of "world"))).1)
      = Memtable.Size (DB.memtable full_disk_db) /\
    Memtable.Count (DB.memtable (DB_write full_disk_db (WPut (bytes_of "hello") (bytes_of "world"))).1)
      = Memtable.Count (DB.memtable full_disk_db) /\
    DB.immutable (DB_write full_disk_db (WPut (bytes_of "hello") (bytes_of "world"))).1
      = DB.immutable full_disk_db /\
    DB.sstables (DB_write full_disk_db (WPut (bytes_of "hello") (bytes_of "world"))).1
      = DB.sstables full_disk_db.
Proof.
  eapply (wal_failure_leaves_memtable full_disk_db
            (WPut (bytes_of "hello") (bytes_of "world"))).
  vm_compute. reflexivity.
Defined.

(** The failed append leaves a truncated record in the log, which recovery
    counts as corrupted and skips. *)
Example wal_failure_partial_record :
  WAL.file (DB.wal (DB_write full_disk_db (WPut (bytes_of "hello") (bytes_of "world"))).1)
    = take 10 (encode_write (WPut (bytes_of "hello") (bytes_of "world"))) /\
  WAL.RecoverMemtable
    (Some (take 10 (encode_write (WPut (bytes_of "hello") (bytes_of "world"))))) 1024
    = Some (Ok (Memtable.NewMemtable 1024, 0, 1)).
Proof. split; vm_compute; reflexivity. Qed.

(** ** Sorted tables *)

(** Scenario 1 of the spec, and the two flush scenarios' read rule, on the
    sample engine: a Put is read back, an absent key is not found. *)
Example put_then_get :
  DB.Get (DB_write sample_db (WPut (bytes_of "hello") (bytes_of "world"))).1 (bytes_of "hello")
    = Ok (bytes_of "world") /\
  DB.Get (DB_write sample_db (WPut (bytes_of "hello") (bytes_of "world"))).1 (bytes_of "nope")
    = Err ErrNotFound /\
  DB.Get (DB_write sample_db (WDelete (bytes_of "a"))).1 (bytes_of "a") = Err ErrNotFound.
Proof. repeat split; vm_compute; reflexivity. Qed.

(** A stream whose tombstone is followed by another entry round-trips,
    with or without the filter. *)
Example table_round_trip_tombstone_inside :
  SSTableIterator.entries (table_of 10 tombstone_inside) = Ok tombstone_inside /\
  SSTableIterator.entries (table_of 0 tombstone_inside) = Ok tombstone_inside /\
  SSTableReader.Get (table_of 10 tombstone_inside) (bytes_of "b") = Ok ([], true, true).
Proof. repeat split; vm_compute; reflexivity. Qed.

(** C5: the claim fails on the code.  The stream [("a","1"), ("b", tombstone)]
    is written and the table opens, but the iteration yields only the
    first entry and [Get] does not find ["b"]: reading the empty value of
    the last entry of a block hits the end of the block reader, whose
    [Read] answers [EOF], and the entry is dropped. *)
Theorem table_drops_trailing_tombstone :
  SSTableWriter.write_table 10 tombstone_last = Ok (table_file 10 tombstone_last) /\
  SSTableReader.OpenSSTable (table_file 10 tombstone_last) None
    = Ok (table_of 10 tombstone_last) /\
  SSTableIterator.entries (table_of 10 tombstone_last)
    = Ok [(bytes_of "a", bytes_of "1", false)] /\
  SSTableReader.Get (table_of 10 tombstone_last) (bytes_of "a")
    = Ok (bytes_of "1", false, true) /\
  SSTableReader.Get (table_of 10 tombstone_last) (bytes_of "b") = Ok ([], false, false) /\
  SSTableReader.MayContain (table_of 10 tombstone_last) (bytes_of "b") = Ok true.
Proof. repeat split; vm_compute; reflexivity. Qed.

(** * Further properties of the code *)

(** ** skiplist.go *)

(** ** Byte order *)

Lemma bytes_compare_values a : forall b,
  bytes_compare a b = -1 \/ bytes_compare a b = 0 \/ bytes_compare a b = 1.
Proof.
  induction a as [|x a IH]; intros [|y b]; cbn; auto.
  destruct (_ <? _); [auto|]. destruct (_ <? _); auto.
Qed.

Lemma bytes_compare_antisym a : forall b, bytes_compare b a = - bytes_compare a b.
Proof.
  induction a as [|x a IH]; intros [|y b]; cbn; try done.
  destruct (Z.ltb_spec (byte_to_Z x) (byte_to_Z y));
    destruct (Z.ltb_spec (byte_to_Z y) (byte_to_Z x)); try lia. apply IH.
Qed.

Lemma bytes_compare_trans a : forall b c,
  bytes_compare a b < 0 -> bytes_compare b c < 0 -> bytes_compare a c < 0.
Proof.
  induction a as [|x a IH]; intros [|y b] [|z c]; cbn; try lia.
  destruct (Z.ltb_spec (byte_to_Z x) (byte_to_Z y));
    destruct (Z.ltb_spec (byte_to_Z y) (byte_to_Z z));
    destruct (Z.ltb_spec (byte_to_Z x) (byte_to_Z z)); try lia;
    destruct (Z.ltb_spec (byte_to_Z y) (byte_to_Z x)); try lia;
    destruct (Z.ltb_spec (byte_to_Z z) (byte_to_Z y)); try lia;
    destruct (Z.ltb_spec (byte_to_Z z) (byte_to_Z x)); try lia.
  apply IH.
Qed.

Lemma bytes_compare_lt_neq a b : bytes_compare a b < 0 -> a <> b.
Proof. intros H ->. rewrite bytes_compare_refl in H. lia. Qed.

Lemma bytes_compare_0_iff a b : bytes_compare a b = 0 <-> a = b.
Proof. split; [apply bytes_compare_eq | intros ->; apply bytes_compare_refl]. Qed.

Lemma ascending_sorted keys : ascending keys = true <-> StronglySorted klt keys.
Proof.
  induction keys as [|a rest IH]; [split; [constructor | done]|].
  cbn [ascending]. destruct rest as [|b rest'].
  - split; [repeat constructor | done].
  - rewrite andb_true_iff, IH, Z.ltb_lt. split.
    + intros [Hab Hs]. constructor; [done|].
      apply StronglySorted_inv in Hs as Hs'. destruct Hs' as [_ Hall].
      constructor; [done|].
      eapply Forall_impl; [exact Hall|]. intros c Hc. eapply bytes_compare_trans; eauto.
    + intros Hs. apply StronglySorted_inv in Hs as [Hs Hall].
      split; [|done]. by apply Forall_inv in Hall.
Qed.

Section search.
Variable sl : SkipList.t.
Hypothesis Hcmp : SkipList.comparator sl = DefaultComparator.

Lemma compare_default a b : SkipList.compare sl a b = bytes_compare a b.
Proof. unfold SkipList.compare. by rewrite Hcmp. Qed.

Lemma walk_le i key suffix :
  StronglySorted klt (map key_of suffix) ->
  (SkipList.walk sl i key suffix <= lower_bound key suffix)%nat.
Proof.
  induction suffix as [|n rest IH]; intros Hs; cbn [SkipList.walk lower_bound]; [lia|].
  cbn [map] in Hs. apply StronglySorted_inv in Hs as [Hs Hall].
  specialize (IH Hs). rewrite compare_default.
  destruct (i <? SkipList.height n)%nat.
  - destruct (bytes_compare _ key <? 0); lia.
  - destruct (SkipList.walk sl i key rest) as [|k] eqn:Ew; [lia|].
    destruct rest as [|m rest']; [cbn in IH; lia|].
    cbn [lower_bound] in IH |- *.
    destruct (Z.ltb_spec (bytes_compare (Key (SkipList.entry m)) key) 0) as [Hm|Hm]; [|lia].
    cbn [map] in Hall. apply Forall_inv in Hall.
    assert (bytes_compare (Key (SkipList.entry n)) key < 0) as Hn
      by (eapply bytes_compare_trans; [exact Hall | exact Hm]).
    destruct (Z.ltb_spec (bytes_compare (Key (SkipList.entry n)) key) 0); lia.
Qed.

Lemma walk_level0 key suffix :
  Forall (fun n => (1 <= SkipList.height n)%nat) suffix ->
  SkipList.walk sl 0 key suffix = lower_bound key suffix.
Proof.
  induction suffix as [|n rest IH]; intros Hh; cbn [SkipList.walk lower_bound]; [done|].
  apply Forall_cons in Hh as [Hn Hh]. rewrite compare_default.
  destruct (Nat.ltb_spec 0 (SkipList.height n)); [|lia].
  destruct (_ <? 0); [|done]. by rewrite IH.
Qed.

Lemma lower_bound_le key ns : (lower_bound key ns <= length ns)%nat.
Proof.
  induction ns as [|n rest IH]; cbn; [lia|]. destruct (_ <? 0); lia.
Qed.

Lemma lower_bound_drop key ns : forall pos,
  (pos <= lower_bound key ns)%nat ->
  lower_bound key (drop pos ns) = (lower_bound key ns - pos)%nat.
Proof.
  induction ns as [|n rest IH]; intros pos Hp; cbn [lower_bound] in *.
  - by rewrite drop_nil.
  - destruct pos as [|pos]; [cbn [drop lower_bound]; lia|].
    destruct (_ <? 0); [|lia]. cbn [drop]. rewrite IH by lia. lia.
Qed.

Lemma descend_lb key lvl : forall pos,
  StronglySorted klt (map key_of (SkipList.nodes sl)) ->
  Forall (fun n => (1 <= SkipList.height n)%nat) (SkipList.nodes sl) ->
  (pos <= lower_bound key (SkipList.nodes sl))%nat ->
  (1 <= lvl)%nat ->
  SkipList.descend sl lvl key pos = lower_bound key (SkipList.nodes sl).
Proof.
  induction lvl as [|i IH]; intros pos Hs Hh Hp Hl; [lia|].
  cbn [SkipList.descend].
  assert (StronglySorted klt (map key_of (drop pos (SkipList.nodes sl)))) as Hsd.
  { rewrite <- (take_drop pos (SkipList.nodes sl)), map_app in Hs.
    clear -Hs. induction (map key_of (take pos (SkipList.nodes sl))) as [|a l IHl]; [done|].
    cbn in Hs. apply StronglySorted_inv in Hs as [Hs _]. auto. }
  pose proof (walk_le i key _ Hsd) as Hw.
  rewrite lower_bound_drop in Hw by done.
  destruct i as [|i].
  - cbn [SkipList.descend]. rewrite walk_level0.
    + rewrite lower_bound_drop by done. lia.
    + rewrite <- (take_drop pos (SkipList.nodes sl)) in Hh.
      by apply Forall_app in Hh as [_ Hh].
  - apply IH; try done; lia.
Qed.

End search.

Lemma sl_ok_heights sl :
  sl_ok sl -> Forall (fun n => (1 <= SkipList.height n)%nat) (SkipList.nodes sl).
Proof. intros (_ & _ & Hh & _). eapply Forall_impl; [exact Hh|]. by intros n [? _]. Qed.

Lemma search_lb sl key :
  sl_ok sl -> SkipList.search sl key = lower_bound key (SkipList.nodes sl).
Proof.
  intros Hok. pose proof (sl_ok_heights sl Hok) as Hh.
  destruct Hok as (Hc & Hs & _ & Hl).
  unfold SkipList.search. apply descend_lb; [exact Hc | exact Hs | exact Hh | lia | lia].
Qed.

Lemma forward0_head pos suffix :
  Forall (fun n => (1 <= SkipList.height n)%nat) suffix ->
  SkipList.forward0 pos suffix =
  match suffix with [] => None | n :: _ => Some (pos, n) end.
Proof.
  destruct suffix as [|n rest]; [done|]. intros Hh. apply Forall_cons in Hh as [Hn _].
  cbn [SkipList.forward0]. destruct (Nat.ltb_spec 0 (SkipList.height n)); [done | lia].
Qed.

Lemma forward0_lookup sl pos :
  sl_ok sl ->
  SkipList.forward0 pos (drop pos (SkipList.nodes sl)) =
  match SkipList.nodes sl !! pos with Some n => Some (pos, n) | None => None end.
Proof.
  intros Hok. rewrite forward0_head.
  - pose proof (lookup_drop (SkipList.nodes sl) pos 0) as H.
    rewrite Nat.add_0_r in H. rewrite <- H.
    destruct (drop pos (SkipList.nodes sl)); done.
  - pose proof (sl_ok_heights sl Hok) as Hh.
    rewrite <- (take_drop pos (SkipList.nodes sl)) in Hh.
    by apply Forall_app in Hh as [_ Hh].
Qed.

(** *** Facts on [lower_bound] *)

Lemma lower_bound_before key ns :
  Forall (fun n => klt (key_of n) key) (take (lower_bound key ns) ns).
Proof.
  induction ns as [|n rest IH]; cbn [lower_bound]; [constructor|].
  destruct (Z.ltb_spec (bytes_compare (Key (SkipList.entry n)) key) 0); [|constructor].
  cbn [take]. by constructor.
Qed.

Lemma lower_bound_at key ns n :
  ns !! lower_bound key ns = Some n -> 0 <= bytes_compare (key_of n) key.
Proof.
  induction ns as [|m rest IH]; cbn [lower_bound]; [done|].
  destruct (Z.ltb_spec (bytes_compare (Key (SkipList.entry m)) key) 0).
  - cbn. exact IH.
  - cbn. intros [= <-]. done.
Qed.

Lemma sorted_app_inv (l1 l2 : list (list byte)) :
  StronglySorted klt (l1 ++ l2) ->
  StronglySorted klt l1 /\ StronglySorted klt l2 /\
  Forall (fun a => Forall (klt a) l2) l1.
Proof.
  induction l1 as [|a l1 IH]; cbn; [by repeat constructor|].
  intros Hs. apply StronglySorted_inv in Hs as [Hs Hall].
  destruct (IH Hs) as (H1 & H2 & H3).
  apply Forall_app in Hall as [Ha1 Ha2].
  split; [by constructor|]. split; [done|]. by constructor.
Qed.

Lemma sorted_app (l1 l2 : list (list byte)) :
  StronglySorted klt l1 -> StronglySorted klt l2 ->
  Forall (fun a => Forall (klt a) l2) l1 ->
  StronglySorted klt (l1 ++ l2).
Proof.
  induction l1 as [|a l1 IH]; cbn; [done|].
  intros Hs1 Hs2 Hall. apply StronglySorted_inv in Hs1 as [Hs1 Ha].
  apply Forall_cons in Hall as [Ha2 Hall].
  constructor; [by apply IH|]. apply Forall_app. done.
Qed.

(** In a sorted list the nodes from [lower_bound] on are not below [key]. *)
Lemma lower_bound_after key ns :
  StronglySorted klt (map key_of ns) ->
  Forall (fun n => 0 <= bytes_compare (key_of n) key) (drop (lower_bound key ns) ns).
Proof.
  intros Hs.
  destruct (drop (lower_bound key ns) ns) as [|n rest] eqn:Ed; [constructor|].
  assert (ns !! lower_bound key ns = Some n) as Hn.
  { pose proof (lookup_drop ns (lower_bound key ns) 0) as H.
    rewrite Nat.add_0_r in H. rewrite <- H, Ed. done. }
  apply lower_bound_at in Hn.
  rewrite <- (take_drop (lower_bound key ns) ns), Ed, map_app in Hs.
  apply sorted_app_inv in Hs as (_ & Hs & _). cbn [map] in Hs.
  apply StronglySorted_inv in Hs as [_ Hall].
  constructor; [done|].
  rewrite Forall_map in Hall. eapply Forall_impl; [exact Hall|].
  intros m Hm. unfold klt in Hm. cbn in Hm.
  destruct (Z.ltb_spec (bytes_compare (key_of m) key) 0) as [Hlt|]; [|done].
  exfalso. pose proof (bytes_compare_trans _ _ _ Hm Hlt). fold (key_of n) in H. lia.
Qed.

Lemma not_below_above a b : 0 <= bytes_compare a b -> a <> b -> klt b a.
Proof.
  intros H Hne. unfold klt. rewrite bytes_compare_antisym.
  destruct (bytes_compare_values a b) as [E|[E|E]]; try lia.
  by apply bytes_compare_eq in E.
Qed.

(** *** The two ways of [PutEntry] *)

Lemma PutEntry_update sl e cur :
  sl_ok sl ->
  SkipList.nodes sl !! lower_bound (Key e) (SkipList.nodes sl) = Some cur ->
  Key (SkipList.entry cur) = Key e ->
  SkipList.PutEntry sl e =
  {| SkipList.nodes := <[lower_bound (Key e) (SkipList.nodes sl) := updated_node cur e]>
                         (SkipList.nodes sl);
     SkipList.comparator := SkipList.comparator sl;
     SkipList.level := SkipList.level sl;
     SkipList.size := i64 (SkipList.size sl + i64 (Entry_Size e - Entry_Size (SkipList.entry cur)));
     SkipList.count := SkipList.count sl;
     SkipList.randSeed := SkipList.randSeed sl |}.
Proof.
  intros Hok Hcur Hkey. unfold SkipList.PutEntry.
  rewrite search_lb, forward0_lookup, Hcur by done.
  rewrite compare_default by apply Hok.
  replace (bytes_compare (Key (SkipList.entry cur)) (Key e)) with 0
    by (by rewrite Hkey, bytes_compare_refl).
  done.
Qed.

Lemma PutEntry_insert sl e :
  sl_ok sl ->
  (forall cur, SkipList.nodes sl !! lower_bound (Key e) (SkipList.nodes sl) = Some cur ->
               Key (SkipList.entry cur) <> Key e) ->
  SkipList.PutEntry sl e =
  {| SkipList.nodes := take (lower_bound (Key e) (SkipList.nodes sl)) (SkipList.nodes sl) ++
                       new_node sl e ::
                       drop (lower_bound (Key e) (SkipList.nodes sl)) (SkipList.nodes sl);
     SkipList.comparator := SkipList.comparator sl;
     SkipList.level := Z.max (SkipList.level sl) (SkipList.randomLevel sl).2;
     SkipList.size := i64 (SkipList.size sl + Entry_Size e);
     SkipList.count := i64 (SkipList.count sl + 1);
     SkipList.randSeed := SkipList.lcg (SkipList.randSeed sl) |}.
Proof.
  intros Hok Hne. unfold SkipList.PutEntry.
  rewrite search_lb, forward0_lookup by done.
  assert (forall l r, (if l <? r then r else l) = Z.max l r) as Hmax
    by (intros l r; destruct (Z.ltb_spec l r); lia).
  destruct (SkipList.nodes sl !! _) as [cur|] eqn:Hcur.
  - rewrite compare_default by apply Hok.
    destruct (Z.eqb_spec (bytes_compare (Key (SkipList.entry cur)) (Key e)) 0) as [E|E].
    + apply bytes_compare_eq in E. by apply Hne in E.
    + unfold new_node, SkipList.randomLevel.
      cbn [fst snd SkipList.nodes SkipList.comparator SkipList.level SkipList.size
           SkipList.count SkipList.randSeed]. by rewrite Hmax.
  - unfold new_node, SkipList.randomLevel.
    cbn [fst snd SkipList.nodes SkipList.comparator SkipList.level SkipList.size
         SkipList.count SkipList.randSeed]. by rewrite Hmax.
Qed.

Lemma PutEntry_cases sl e :
  sl_ok sl ->
  (exists cur,
     SkipList.nodes sl !! lower_bound (Key e) (SkipList.nodes sl) = Some cur /\
     Key (SkipList.entry cur) = Key e) \/
  (forall cur, SkipList.nodes sl !! lower_bound (Key e) (SkipList.nodes sl) = Some cur ->
               Key (SkipList.entry cur) <> Key e).
Proof.
  intros _. destruct (SkipList.nodes sl !! _) as [cur|]; [|by right].
  destruct (decide (Key (SkipList.entry cur) = Key e)); [left; eauto|].
  right. by intros ? [= <-].
Qed.

(** From [lower_bound] on, a sorted list is above a key it does not hold
    at that place. *)
Lemma lower_bound_above key ns :
  StronglySorted klt (map key_of ns) ->
  (forall cur, ns !! lower_bound key ns = Some cur -> key_of cur <> key) ->
  Forall (fun n => klt key (key_of n)) (drop (lower_bound key ns) ns).
Proof.
  intros Hs Hne. pose proof (lower_bound_after key ns Hs) as Hge.
  destruct (drop (lower_bound key ns) ns) as [|n rest] eqn:Ed; [constructor|].
  assert (ns !! lower_bound key ns = Some n) as Hn.
  { pose proof (lookup_drop ns (lower_bound key ns) 0) as H.
    rewrite Nat.add_0_r in H. rewrite <- H, Ed. done. }
  apply Forall_cons in Hge as [Hn0 _].
  assert (klt key (key_of n)) as Hkn by (apply not_below_above; auto).
  constructor; [done|].
  rewrite <- (take_drop (lower_bound key ns) ns), Ed, map_app in Hs.
  apply sorted_app_inv in Hs as (_ & Hs & _). cbn [map] in Hs.
  apply StronglySorted_inv in Hs as [_ Hall]. rewrite Forall_map in Hall.
  eapply Forall_impl; [exact Hall|]. intros m Hm.
  eapply bytes_compare_trans; [exact Hkn | exact Hm].
Qed.

Lemma sorted_insert key ns new :
  key_of new = key ->
  StronglySorted klt (map key_of ns) ->
  (forall cur, ns !! lower_bound key ns = Some cur -> key_of cur <> key) ->
  StronglySorted klt
    (map key_of (take (lower_bound key ns) ns ++ new :: drop (lower_bound key ns) ns)).
Proof.
  intros Hk Hs Hne.
  pose proof (lower_bound_before key ns) as Hb.
  pose proof (lower_bound_above key ns Hs Hne) as Ha.
  rewrite <- (take_drop (lower_bound key ns) ns), map_app in Hs.
  apply sorted_app_inv in Hs as (Hs1 & Hs2 & Hcross).
  rewrite map_app. cbn [map]. rewrite Hk.
  apply sorted_app; [done| |].
  - constructor; [done|]. by rewrite Forall_map.
  - rewrite Forall_map. apply Forall_forall. intros n Hn. constructor.
    + rewrite Forall_forall in Hb. by apply Hb.
    + apply (proj1 (Forall_forall _ _) Hcross (key_of n)).
      apply list_elem_of_In, in_map. by apply list_elem_of_In.
Qed.

Lemma randomLevel_snd sl :
  (SkipList.randomLevel sl).2 =
  SkipList.promote (Z.to_nat SkipList.maxLevel) 1 (SkipList.lcg (SkipList.randSeed sl)).
Proof. done. Qed.

Lemma PutEntry_ok sl e : sl_ok sl -> sl_ok (SkipList.PutEntry sl e).
Proof.
  intros Hok. pose proof Hok as (Hc & Hs & Hh & Hl).
  destruct (PutEntry_cases sl e Hok) as [(cur & Hcur & Hkey)|Hne].
  - rewrite (PutEntry_update sl e cur) by done.
    split; [done|]. cbn [SkipList.nodes SkipList.level]. split; [|split; [|done]].
    + replace (map key_of (<[_ := updated_node cur e]> (SkipList.nodes sl)))
        with (map key_of (SkipList.nodes sl)); [done|].
      symmetry. apply list_eq. intros i.
      rewrite !list_lookup_fmap.
      destruct (decide (i = lower_bound (Key e) (SkipList.nodes sl))) as [->|Hi].
      * rewrite list_lookup_insert_eq by (by eapply lookup_lt_Some). by rewrite Hcur.
      * by rewrite list_lookup_insert_ne.
    + apply Forall_insert; [done|].
      rewrite Forall_forall in Hh. apply (Hh cur). by eapply list_elem_of_lookup_2.
  - rewrite (PutEntry_insert sl e) by done.
    pose proof (randomLevel_range sl) as Hr.
    split; [done|]. cbn [SkipList.nodes SkipList.level]. split; [|split; [|lia]].
    + apply sorted_insert; done.
    + rewrite <- (take_drop (lower_bound (Key e) (SkipList.nodes sl)) (SkipList.nodes sl)) in Hh.
      apply Forall_app in Hh as [Hh1 Hh2].
      assert (forall n, (1 ≤ SkipList.height n)%nat ∧ Z.of_nat (SkipList.height n) ≤ SkipList.level sl ->
                (1 ≤ SkipList.height n)%nat ∧
                Z.of_nat (SkipList.height n) ≤ Z.max (SkipList.level sl) (SkipList.randomLevel sl).2)
        as Hw by (intros; lia).
      apply Forall_app. split; [eapply Forall_impl; eauto|].
      constructor; [|eapply Forall_impl; eauto].
      unfold new_node. cbn [SkipList.height]. lia.
Qed.

Lemma NewSkipList_ok : sl_ok SkipList.NewSkipList.
Proof. split; [done|]. split; [constructor|]. split; [constructor|]. cbn. lia. Qed.

Lemma PutEntries_ok es : forall sl, sl_ok sl -> sl_ok (fold_left SkipList.PutEntry es sl).
Proof.
  induction es as [|e es IH]; intros sl Hok; [done|].
  cbn [fold_left]. apply IH. by apply PutEntry_ok.
Qed.

(** *** Lookups *)

Lemma assoc_app key l1 l2 :
  assoc key (l1 ++ l2) =
  match assoc key l1 with Some e => Some e | None => assoc key l2 end.
Proof.
  induction l1 as [|n l1 IH]; [done|]. cbn [app assoc].
  destruct (bool_decide _); done.
Qed.

Lemma assoc_none key l :
  Forall (fun n => key_of n <> key) l -> assoc key l = None.
Proof.
  induction l as [|n l IH]; [done|]. intros H. apply Forall_cons in H as [Hn H].
  cbn [assoc]. rewrite bool_decide_eq_false_2 by done. auto.
Qed.

Lemma below_neq key l :
  Forall (fun n => klt (key_of n) key) l -> Forall (fun n => key_of n <> key) l.
Proof.
  intros H. eapply Forall_impl; [exact H|]. intros n Hn. by apply bytes_compare_lt_neq.
Qed.

Lemma above_neq key l :
  Forall (fun n => klt key (key_of n)) l -> Forall (fun n => key_of n <> key) l.
Proof.
  intros H. eapply Forall_impl; [exact H|].
  intros n Hn E. apply bytes_compare_lt_neq in Hn. by symmetry in E.
Qed.

Lemma lookup_drop_head {A} (l : list A) i :
  l !! i = match drop i l with [] => None | x :: _ => Some x end.
Proof.
  pose proof (lookup_drop l i 0) as H. rewrite Nat.add_0_r in H. rewrite <- H.
  by destruct (drop i l).
Qed.

(** In a sorted list, the node at [lower_bound] decides what the list holds
    for the key. *)
Lemma assoc_lower_bound key ns :
  StronglySorted klt (map key_of ns) ->
  assoc key ns =
  match ns !! lower_bound key ns with
  | Some cur => if bool_decide (key_of cur = key) then Some (SkipList.entry cur) else None
  | None => None
  end.
Proof.
  intros Hs. pose proof (lower_bound_before key ns) as Hb.
  rewrite <- (take_drop (lower_bound key ns) ns) at 1.
  rewrite assoc_app, (assoc_none _ _ (below_neq _ _ Hb)).
  destruct (ns !! lower_bound key ns) as [cur|] eqn:Hcur.
  - rewrite lookup_drop_head in Hcur.
    destruct (drop (lower_bound key ns) ns) as [|n rest] eqn:Ed; [done|].
    injection Hcur as ->. cbn [assoc]. fold (key_of cur).
    destruct (bool_decide (key_of cur = key)) eqn:Ek; [done|].
    apply bool_decide_eq_false in Ek.
    assert (Forall (fun n => klt key (key_of n)) (cur :: rest)) as Ha.
    { rewrite <- Ed. apply lower_bound_above; [done|].
      intros c Hc. rewrite lookup_drop_head, Ed in Hc. by injection Hc as <-. }
    apply Forall_cons in Ha as [_ Ha]. by apply assoc_none, above_neq.
  - rewrite lookup_drop_head in Hcur.
    destruct (drop (lower_bound key ns) ns); done.
Qed.

Lemma Get_assoc sl key :
  sl_ok sl -> SkipList.Get sl key = lookup_answer (assoc key (SkipList.nodes sl)).
Proof.
  intros Hok. unfold SkipList.Get.
  rewrite search_lb, forward0_lookup, assoc_lower_bound by (done || apply Hok).
  destruct (SkipList.nodes sl !! _) as [cur|]; [|done].
  rewrite compare_default by apply Hok. unfold key_of.
  destruct (Z.eqb_spec (bytes_compare (Key (SkipList.entry cur)) key) 0) as [E|E].
  - apply bytes_compare_eq in E. by rewrite bool_decide_eq_true_2.
  - rewrite bool_decide_eq_false_2; [done|].
    intros Heq. by rewrite Heq, bytes_compare_refl in E.
Qed.

Lemma assoc_insert_node key ns i cur upd :
  ns !! i = Some cur -> key_of upd = key_of cur ->
  assoc key (<[i := upd]> ns) =
  match assoc key (take i ns) with
  | Some e => Some e
  | None => if bool_decide (key_of cur = key) then Some (SkipList.entry upd)
            else assoc key (drop (S i) ns)
  end.
Proof.
  intros Hi Hk.
  rewrite insert_take_drop by (by eapply lookup_lt_Some).
  rewrite assoc_app. cbn [assoc]. fold (key_of upd). by rewrite Hk.
Qed.

Lemma assoc_split key ns i cur :
  ns !! i = Some cur ->
  assoc key ns =
  match assoc key (take i ns) with
  | Some e => Some e
  | None => if bool_decide (key_of cur = key) then Some (SkipList.entry cur)
            else assoc key (drop (S i) ns)
  end.
Proof.
  intros Hi. rewrite <- (take_drop_middle ns i cur Hi) at 1.
  rewrite assoc_app. done.
Qed.

(** What the list holds after [PutEntry]. *)
Lemma PutEntry_assoc sl e key :
  sl_ok sl ->
  lookup_answer (assoc key (SkipList.nodes (SkipList.PutEntry sl e))) =
  if bool_decide (Key e = key) then (Value e, Deleted e, true)
  else lookup_answer (assoc key (SkipList.nodes sl)).
Proof.
  intros Hok. pose proof Hok as (Hc & Hs & Hh & Hl).
  pose proof (lower_bound_before (Key e) (SkipList.nodes sl)) as Hb.
  apply below_neq in Hb.
  destruct (PutEntry_cases sl e Hok) as [(cur & Hcur & Hkey)|Hne].
  - rewrite (PutEntry_update sl e cur) by done. cbn [SkipList.nodes].
    rewrite (assoc_insert_node key _ _ cur) by done.
    rewrite (assoc_split key (SkipList.nodes sl) _ cur Hcur).
    assert (key_of cur = Key e) as Hk by exact Hkey. rewrite Hk.
    destruct (bool_decide (Key e = key)) eqn:Ek; [|done].
    apply bool_decide_eq_true in Ek. subst key.
    by rewrite (assoc_none _ _ Hb).
  - rewrite (PutEntry_insert sl e) by done. cbn [SkipList.nodes].
    rewrite assoc_app. cbn [assoc]. unfold new_node at 1. cbn [SkipList.entry].
    pose proof (assoc_app key (take (lower_bound (Key e) (SkipList.nodes sl)) (SkipList.nodes sl))
                  (drop (lower_bound (Key e) (SkipList.nodes sl)) (SkipList.nodes sl))) as Hsplit.
    rewrite take_drop in Hsplit. rewrite Hsplit.
    destruct (bool_decide (Key e = key)) eqn:Ek; [|done].
    apply bool_decide_eq_true in Ek. subst key.
    by rewrite (assoc_none _ _ Hb).
Qed.

Lemma last_write_snoc key es e :
  last_write key (es ++ [e]) =
  if bool_decide (Key e = key) then Some e else last_write key es.
Proof.
  induction es as [|e' es IH]; cbn [app last_write].
  - by destruct (bool_decide _).
  - rewrite IH. destruct (bool_decide (Key e = key)); [done|].
    destruct (last_write key es); done.
Qed.

Lemma Get_last_write es key :
  SkipList.Get (fold_left SkipList.PutEntry es SkipList.NewSkipList) key =
  lookup_answer (last_write key es).
Proof.
  rewrite Get_assoc by apply PutEntries_ok, NewSkipList_ok.
  induction es as [|e es IH] using rev_ind; [done|].
  rewrite fold_left_app. cbn [fold_left].
  rewrite PutEntry_assoc by apply PutEntries_ok, NewSkipList_ok.
  rewrite last_write_snoc, IH. by destruct (bool_decide _).
Qed.

(** *** Size and count *)

Lemma total_size_app l1 l2 : total_size (l1 ++ l2) = total_size l1 + total_size l2.
Proof. induction l1 as [|n l1 IH]; cbn [app total_size fold_right] in *; [done|].
  unfold total_size in *. cbn [fold_right]. rewrite IH. lia. Qed.

Lemma total_size_cons n l :
  total_size (n :: l) =
  len (Key (SkipList.entry n)) + len (Value (SkipList.entry n)) + 9 + total_size l.
Proof. done. Qed.

Lemma i64_idem_add a b : i64 (i64 a + b) = i64 (a + b).
Proof. rewrite (Z.add_comm (i64 a)), i64_add. f_equal. lia. Qed.

Lemma i64_update a b c : i64 (i64 a + i64 (i64 b - i64 c)) = i64 (a + b - c).
Proof.
  rewrite i64_add_sub.
  replace (i64 a + b - c) with (i64 a + (b - c)) by lia.
  rewrite i64_idem_add. f_equal. lia.
Qed.

Lemma PutEntry_total_size sl e :
  sl_ok sl -> SkipList.size sl = i64 (total_size (SkipList.nodes sl)) ->
  SkipList.size (SkipList.PutEntry sl e) =
  i64 (total_size (SkipList.nodes (SkipList.PutEntry sl e))).
Proof.
  intros Hok Hsz.
  destruct (PutEntry_cases sl e Hok) as [(cur & Hcur & Hkey)|Hne].
  - rewrite (PutEntry_update sl e cur) by done. cbn [SkipList.nodes SkipList.size].
    rewrite Hsz. unfold Entry_Size. rewrite i64_update. f_equal.
    rewrite insert_take_drop by (by eapply lookup_lt_Some).
    rewrite <- (take_drop_middle _ _ _ Hcur) at 1.
    rewrite !total_size_app, !total_size_cons. unfold updated_node.
    cbn [SkipList.entry Key Value]. rewrite Hkey. lia.
  - rewrite (PutEntry_insert sl e) by done. cbn [SkipList.nodes SkipList.size].
    rewrite Hsz. unfold Entry_Size. rewrite i64_add, i64_idem_add. f_equal.
    rewrite <- (take_drop (lower_bound (Key e) (SkipList.nodes sl)) (SkipList.nodes sl)) at 1.
    rewrite !total_size_app, !total_size_cons. unfold new_node. cbn [SkipList.entry]. lia.
Qed.

Lemma PutEntry_count sl e :
  sl_ok sl ->
  (is_Some (assoc (Key e) (SkipList.nodes sl)) /\
   length (SkipList.nodes (SkipList.PutEntry sl e)) = length (SkipList.nodes sl) /\
   SkipList.count (SkipList.PutEntry sl e) = SkipList.count sl) \/
  (assoc (Key e) (SkipList.nodes sl) = None /\
   length (SkipList.nodes (SkipList.PutEntry sl e)) = S (length (SkipList.nodes sl)) /\
   SkipList.count (SkipList.PutEntry sl e) = i64 (SkipList.count sl + 1)).
Proof.
  intros Hok. pose proof Hok as (Hc & Hs & Hh & Hl).
  rewrite (assoc_lower_bound (Key e)) by done.
  destruct (PutEntry_cases sl e Hok) as [(cur & Hcur & Hkey)|Hne].
  - left. rewrite (PutEntry_update sl e cur) by done. cbn [SkipList.nodes SkipList.count].
    rewrite Hcur. unfold key_of. rewrite bool_decide_eq_true_2 by done.
    rewrite length_insert. eauto.
  - right. rewrite (PutEntry_insert sl e) by done. cbn [SkipList.nodes SkipList.count].
    split; [|split; [|done]].
    + destruct (SkipList.nodes sl !! _) as [cur|] eqn:Hcur; [|done].
      rewrite bool_decide_eq_false_2; [done|]. by apply Hne.
    + rewrite length_app. cbn [length].
      pose proof (f_equal length (take_drop (lower_bound (Key e) (SkipList.nodes sl))
                                            (SkipList.nodes sl))) as Hl'.
      rewrite length_app in Hl'. lia.
Qed.

Lemma last_write_is_Some key es : is_Some (last_write key es) <-> key ∈ map Key es.
Proof.
  induction es as [|e es IH]; cbn [last_write map].
  - split; [by intros [? ?] | by intros ?%elem_of_nil].
  - rewrite elem_of_cons. destruct (last_write key es) as [e'|] eqn:El.
    + split; [intros _; right; apply IH; eauto | eauto].
    + destruct (bool_decide (Key e = key)) eqn:Ek.
      * apply bool_decide_eq_true in Ek. split; [auto | eauto].
      * apply bool_decide_eq_false in Ek. split; [by intros [? ?]|].
        intros [E|E]; [done|]. apply IH in E. by destruct E.
Qed.

Lemma lookup_answer_is_Some o1 o2 :
  lookup_answer o1 = lookup_answer o2 -> (is_Some o1 <-> is_Some o2).
Proof. destruct o1, o2; cbn; intros [=]; split; intros [? ?]; eauto; done. Qed.

Lemma assoc_is_Some es key :
  is_Some (assoc key (SkipList.nodes (fold_left SkipList.PutEntry es SkipList.NewSkipList)))
  <-> key ∈ map Key es.
Proof.
  rewrite <- last_write_is_Some. apply lookup_answer_is_Some.
  rewrite <- Get_assoc by apply PutEntries_ok, NewSkipList_ok.
  apply Get_last_write.
Qed.

Lemma remove_dups_snoc_length {A} `{EqDecision A} (l : list A) (k : A) :
  length (remove_dups (l ++ [k])) =
  if decide (k ∈ l) then length (remove_dups l) else S (length (remove_dups l)).
Proof.
  destruct (decide (k ∈ l)) as [Hin|Hnin].
  - apply Permutation_length, NoDup_Permutation; try apply NoDup_remove_dups.
    intros x. rewrite !elem_of_remove_dups, elem_of_app, list_elem_of_singleton.
    split; [intros [?| ->]; done | auto].
  - change (S (length (remove_dups l))) with (length (k :: remove_dups l)).
    apply Permutation_length, NoDup_Permutation.
    + apply NoDup_remove_dups.
    + constructor; [by rewrite elem_of_remove_dups | apply NoDup_remove_dups].
    + intros x. rewrite elem_of_cons, !elem_of_remove_dups, elem_of_app, list_elem_of_singleton.
      tauto.
Qed.

Lemma PutEntries_count es :
  let sl := fold_left SkipList.PutEntry es SkipList.NewSkipList in
  length (SkipList.nodes sl) = distinct_keys es /\
  SkipList.count sl = i64 (Z.of_nat (distinct_keys es)).
Proof.
  induction es as [|e es IH] using rev_ind; [done|].
  cbv zeta in *. rewrite fold_left_app. cbn [fold_left].
  set (sl := fold_left SkipList.PutEntry es SkipList.NewSkipList) in *.
  assert (sl_ok sl) as Hok by apply PutEntries_ok, NewSkipList_ok.
  destruct IH as [IHl IHc].
  unfold distinct_keys in *. rewrite map_app. cbn [map]. rewrite remove_dups_snoc_length.
  destruct (PutEntry_count sl e Hok) as [(Hin & Hl & Hcnt)|(Hnin & Hl & Hcnt)].
  - apply assoc_is_Some in Hin. rewrite decide_True by done.
    rewrite Hl, Hcnt. done.
  - rewrite decide_False.
    + rewrite Hl, Hcnt, IHl, IHc. split; [done|].
      rewrite i64_idem_add. f_equal. lia.
    + intros Hin. apply assoc_is_Some in Hin. fold sl in Hin. rewrite Hnin in Hin.
      by destruct Hin.
Qed.

Lemma PutEntries_size es :
  let sl := fold_left SkipList.PutEntry es SkipList.NewSkipList in
  SkipList.size sl = i64 (total_size (SkipList.nodes sl)).
Proof.
  induction es as [|e es IH] using rev_ind; [done|].
  cbv zeta in *. rewrite fold_left_app. cbn [fold_left].
  apply PutEntry_total_size; [apply PutEntries_ok, NewSkipList_ok | done].
Qed.

(** *** The iterator *)

Lemma forward_lookup sl pos :
  sl_ok sl ->
  SkipListIterator.forward sl pos =
  match SkipList.nodes sl !! pos with
  | Some n => SkipListIterator.AtNode pos n
  | None => SkipListIterator.AtNil
  end.
Proof.
  intros Hok. unfold SkipListIterator.forward. rewrite forward0_lookup by done.
  by destruct (SkipList.nodes sl !! pos).
Qed.

Lemma collect_from sl : sl_ok sl -> forall fuel pos,
  (pos <= length (SkipList.nodes sl) < fuel + pos)%nat ->
  SkipListIterator.collect fuel
    {| SkipListIterator.skiplist := sl;
       SkipListIterator.current := SkipListIterator.forward sl pos |} =
  Some (Ok (map node_triple (drop pos (SkipList.nodes sl)))).
Proof.
  intros Hok. induction fuel as [|fuel IH]; intros pos Hf; [lia|].
  cbn [SkipListIterator.collect]. rewrite forward_lookup by done.
  destruct (SkipList.nodes sl !! pos) as [n|] eqn:Hn.
  - unfold SkipListIterator.Valid, SkipListIterator.Key, SkipListIterator.Value,
      SkipListIterator.IsDeleted, SkipListIterator.Next.
    cbn [SkipListIterator.current SkipListIterator.skiplist].
    apply lookup_lt_Some in Hn as Hlt.
    rewrite IH by lia.
    rewrite (drop_S _ _ _ Hn). done.
  - cbn. apply lookup_ge_None in Hn. by rewrite drop_ge.
Qed.

Lemma entries_nodes sl :
  sl_ok sl ->
  SkipListIterator.entries sl = Some (Ok (map node_triple (SkipList.nodes sl))).
Proof.
  intros Hok. unfold SkipListIterator.entries, SkipListIterator.SeekToFirst,
    SkipListIterator.NewIterator. cbn [SkipListIterator.skiplist].
  rewrite collect_from by (done || lia). by rewrite drop_0.
Qed.

Lemma assoc_Some_elem key ns e :
  assoc key ns = Some e -> Key e = key /\ exists n, n ∈ ns /\ SkipList.entry n = e.
Proof.
  induction ns as [|n ns IH]; [done|]. cbn [assoc].
  destruct (bool_decide (Key (SkipList.entry n) = key)) eqn:Ek.
  - apply bool_decide_eq_true in Ek. intros [= <-]. split; [done|].
    exists n. split; [left | done].
  - intros H. destruct (IH H) as (Hk & m & Hm & He). split; [done|].
    exists m. split; [by right | done].
Qed.

(** In a list with distinct keys, a node is what [assoc] finds for its key. *)
Lemma assoc_elem ns n :
  StronglySorted klt (map key_of ns) -> n ∈ ns ->
  assoc (key_of n) ns = Some (SkipList.entry n).
Proof.
  induction ns as [|m ns IH]; intros Hs Hin; [by apply elem_of_nil in Hin|].
  cbn [map] in Hs. apply StronglySorted_inv in Hs as [Hs Hall].
  apply elem_of_cons in Hin as [->|Hin]; cbn [assoc].
  - unfold key_of. by rewrite bool_decide_eq_true_2.
  - rewrite bool_decide_eq_false_2; [by apply IH|].
    rewrite Forall_map, Forall_forall in Hall. specialize (Hall n Hin).
    by apply bytes_compare_lt_neq in Hall.
Qed.

(** X1.  Whatever entries are put into a new skip list, in whatever order,
    its nodes stay in strictly ascending key order along level 0 (so no key
    occurs twice), every node has between 1 and [level] links, and [level]
    stays between 1 and [maxLevel] = 12. *)
Theorem skiplist_keys_ascending (es : list Entry) :
  let sl := fold_left SkipList.PutEntry es SkipList.NewSkipList in
  ascending (map key_of (SkipList.nodes sl)) = true /\
  Forall (fun n => (1 <= SkipList.height n)%nat /\
                   Z.of_nat (SkipList.height n) <= SkipList.level sl) (SkipList.nodes sl) /\
  1 <= SkipList.level sl <= SkipList.maxLevel.
Proof.
  cbv zeta. destruct (PutEntries_ok es _ NewSkipList_ok) as (_ & Hs & Hh & Hl).
  split; [by apply ascending_sorted|]. split; [done|]. exact Hl.
Qed.

(** X2.  [Count] is the number of distinct keys put so far, tombstones
    included: putting a key again, or deleting it, adds no node.  (The
    counter is a Go [int], hence the wrap-around.) *)
Theorem skiplist_count_distinct_keys (es : list Entry) :
  let sl := fold_left SkipList.PutEntry es SkipList.NewSkipList in
  length (SkipList.nodes sl) = distinct_keys es /\
  SkipList.Count sl = i64 (Z.of_nat (distinct_keys es)).
Proof. apply PutEntries_count. Qed.

(** X3.  [Size] is the sum, over the entries the list holds, of
    [len(key) + len(value) + 9], in int64 arithmetic. *)
Theorem skiplist_size_total (es : list Entry) :
  let sl := fold_left SkipList.PutEntry es SkipList.NewSkipList in
  SkipList.Size sl = i64 (total_size (SkipList.nodes sl)).
Proof. apply PutEntries_size. Qed.

(** X4.  After any sequence of [PutEntry] on a new skip list, [Get] finds a
    key exactly when some entry of the sequence carries it, and answers
    with the value and the tombstone flag of the last such entry. *)
Theorem skiplist_get_last_write (es : list Entry) (key : list byte) :
  SkipList.Get (fold_left SkipList.PutEntry es SkipList.NewSkipList) key =
  lookup_answer (last_write key es).
Proof. apply Get_last_write. Qed.

(** X5.  A pass of the iterator from [SeekToFirst] to the end ends, and
    yields the keys in strictly ascending order, one entry for each key
    that [Get] finds, with the value and flag [Get] answers. *)
Theorem skiplist_iterator_pass (es : list Entry) :
  let sl := fold_left SkipList.PutEntry es SkipList.NewSkipList in
  exists l,
    SkipListIterator.entries sl = Some (Ok l) /\
    ascending (map (fun t => t.1.1) l) = true /\
    forall k v d, (k, v, d) ∈ l <-> SkipList.Get sl k = (v, d, true).
Proof.
  cbv zeta. set (sl := fold_left _ _ _).
  assert (sl_ok sl) as Hok by apply PutEntries_ok, NewSkipList_ok.
  exists (map node_triple (SkipList.nodes sl)).
  split; [by apply entries_nodes|]. split.
  - rewrite map_map. apply ascending_sorted, Hok.
  - intros k v d. rewrite Get_assoc by done. split.
    + intros Hin. apply list_elem_of_In, in_map_iff in Hin as (n & Hn & Hin).
      apply list_elem_of_In in Hin. injection Hn as <- <- <-.
      change (Key (SkipList.entry n)) with (key_of n).
      rewrite assoc_elem by (done || apply Hok). done.
    + destruct (assoc k (SkipList.nodes sl)) as [e|] eqn:Ea; [|done].
      cbn. intros [= <- <-].
      apply assoc_Some_elem in Ea as (Hk & n & Hn & He).
      apply list_elem_of_In, in_map_iff. exists n.
      split; [|by apply list_elem_of_In].
      unfold node_triple. by rewrite He, Hk.
Qed.

(** X6.  [Seek(target)] leaves the iterator on the first node whose key is
    not below [target]: every node before it has a smaller key; when every
    key is smaller the iterator is left invalid (nil). *)
Theorem skiplist_seek_lower_bound (es : list Entry) (target : list byte) :
  let sl := fold_left SkipList.PutEntry es SkipList.NewSkipList in
  let it := SkipListIterator.Seek (SkipListIterator.NewIterator sl) target in
  match SkipListIterator.current it with
  | SkipListIterator.AtNode i n =>
      SkipList.nodes sl !! i = Some n /\
      0 <= bytes_compare (key_of n) target /\
      Forall (fun m => bytes_compare (key_of m) target < 0) (take i (SkipList.nodes sl)) /\
      SkipListIterator.Valid it = true
  | SkipListIterator.AtNil =>
      Forall (fun m => bytes_compare (key_of m) target < 0) (SkipList.nodes sl) /\
      SkipListIterator.Valid it = false
  | SkipListIterator.AtHead => False
  end.
Proof.
  cbv zeta. set (sl := fold_left _ _ _).
  assert (sl_ok sl) as Hok by apply PutEntries_ok, NewSkipList_ok.
  unfold SkipListIterator.Seek, SkipListIterator.NewIterator, SkipListIterator.Valid.
  cbn [SkipListIterator.skiplist SkipListIterator.current].
  rewrite search_lb, forward_lookup by done.
  pose proof (lower_bound_before target (SkipList.nodes sl)) as Hb.
  destruct (SkipList.nodes sl !! lower_bound target (SkipList.nodes sl)) as [n|] eqn:Hn.
  - split; [done|]. split; [by eapply lower_bound_at|]. done.
  - apply lookup_ge_None in Hn. rewrite take_ge in Hb by done. done.
Qed.

(** ** The memtable *)

Lemma apply_writes_data ws : forall m m',
  apply_writes m ws = Ok m' ->
  Memtable.data m' = fold_left SkipList.PutEntry (map write_entry ws) (Memtable.data m).
Proof.
  induction ws as [|w ws IH]; intros m m'; cbn [apply_writes map fold_left].
  - by intros [= <-].
  - destruct (apply_write m w) as [m1| |] eqn:E; cbn; try done.
    intros H. rewrite (IH _ _ H). by rewrite (apply_write_PutEntry _ _ _ E).
Qed.

Lemma apply_writes_active ws : forall m,
  Memtable.state m = Memtable.memtableActive ->
  exists m', apply_writes m ws = Ok m' /\
             Memtable.state m' = Memtable.memtableActive /\
             Memtable.maxsize m' = Memtable.maxsize m.
Proof.
  induction ws as [|w ws IH]; intros m Hm; [by exists m|].
  destruct (write_type_dispatch w m Hm) as (m1 & H1 & Hs & E).
  destruct (IH m1 Hs) as (m' & H' & Hs' & Hx).
  exists m'. cbn [apply_writes]. rewrite H1. cbn. split; [done|]. split; [done|].
  rewrite Hx, E. done.
Qed.

(** X7.  On a new (active) memtable every sequence of Put and Delete
    succeeds, and afterwards [Get] answers for every key with the last
    write to it: the value of a Put, the tombstone of a Delete, and not
    found for a key never written. *)
Theorem memtable_get_last_write (maxsize : Z) (ws : list write) :
  exists m,
    apply_writes (Memtable.NewMemtable maxsize) ws = Ok m /\
    forall key,
      Memtable.Get m key = lookup_answer (last_write key (map write_entry ws)).
Proof.
  destruct (apply_writes_active ws (Memtable.NewMemtable maxsize) eq_refl)
    as (m & Hm & _ & _).
  exists m. split; [done|]. intros key. unfold Memtable.Get.
  rewrite (apply_writes_data _ _ _ Hm). apply Get_last_write.
Qed.

(** ** bloom.go *)

Lemma wf_numBits bf : wf bf -> u64 (numBits bf + 7) / 8 = len (bits bf).
Proof.
  intros (Hn & Hr & _). pose proof (len_nonneg (bits bf)).
  rewrite u64_small by lia. rewrite Hn.
  replace (8 * len (bits bf) + 7) with (7 + len (bits bf) * 8) by lia.
  rewrite Z.div_add by lia. done.
Qed.

Lemma header_of_Encode bf rest :
  let data := Encode bf ++ rest in
  take 8 data = put_u64 (numBits bf) /\
  take 4 (drop 8 data) = put_u32 (numHash bf) /\
  take 8 (drop 12 data) = put_u64 (numItems bf) /\
  drop 20 data = bits bf ++ rest.
Proof.
  cbv zeta. unfold Encode. rewrite <- !app_assoc.
  apply header_fields; [apply put_u64_length | apply put_u32_length | apply put_u64_length].
Qed.

(** X8.  [DecodeBloomFilter] undoes [Encode] on every well-formed filter,
    also when other bytes follow the encoding (as in a table file, where
    the footer follows); the encoding is 20 bytes longer than the bit
    array. *)
Theorem bloom_encode_decode (bf : BloomFilter.t) (rest : list byte) :
  wf bf ->
  DecodeBloomFilter (Encode bf ++ rest) = Ok bf /\
  len (Encode bf) = 20 + BloomFilter.Size bf.
Proof.
  intros Hwf. split; [|apply Encode_len].
  pose proof (DecodeBloomFilter_spec (Encode bf ++ rest)) as H. cbv zeta in H.
  destruct (header_of_Encode bf rest) as (H1 & H2 & H3 & H4). cbv zeta in *.
  pose proof Hwf as (Hn & Hr & Hh & Hi).
  rewrite H1, H2, H3, H4, !get_put_u64, get_put_u32 in H.
  rewrite (u64_small (numBits bf)), (u64_small (numItems bf)), (u32_small (numHash bf)) in H by lia.
  rewrite wf_numBits in H by exact Hwf.
  rewrite len_app, Encode_len in H. pose proof (len_nonneg rest). pose proof (len_nonneg (bits bf)).
  destruct (Z.ltb_spec (20 + len (bits bf) + len rest) 20); [lia|].
  destruct (Z.ltb_spec (20 + len (bits bf) + len rest) (20 + len (bits bf))); [lia|].
  cbn [orb] in H. rewrite H. unfold len. rewrite Nat2Z.id, take_app_length.
  by destruct bf.
Qed.

Lemma bloom_encode_decode_witness :
  DecodeBloomFilter (Encode small_filter ++ [x01; x02]) = Ok small_filter /\
  len (Encode small_filter) = 20 + BloomFilter.Size small_filter.
Proof.
  apply (bloom_encode_decode small_filter [x01; x02]).
  unfold wf. vm_compute. intuition discriminate.
Defined.

(** X9.  A truncated encoding is refused: every proper prefix of the
    encoding of a well-formed filter decodes to [ErrCorruptedData]. *)
Theorem bloom_decode_truncated (bf : BloomFilter.t) (n : nat) :
  wf bf -> (n < length (Encode bf))%nat ->
  DecodeBloomFilter (take n (Encode bf)) = Err ErrCorruptedData.
Proof.
  intros Hwf Hn.
  pose proof (DecodeBloomFilter_spec (take n (Encode bf))) as H. cbv zeta in H.
  pose proof (Encode_len bf) as Hl. unfold len in Hl.
  assert (len (take n (Encode bf)) = Z.of_nat n) as Hlen
    by (unfold len; rewrite length_take; lia).
  rewrite Hlen in H.
  destruct (Z.ltb_spec (Z.of_nat n) 20) as [Hs|Hs]; [exact H|].
  cbn [orb] in H.
  assert (take 8 (take n (Encode bf)) = put_u64 (numBits bf)) as H8.
  { rewrite take_take, Nat.min_l by lia.
    destruct (header_of_Encode bf []) as (H1 & _). cbv zeta in H1.
    by rewrite app_nil_r in H1. }
  rewrite H8, get_put_u64 in H.
  pose proof Hwf as (Hnb & Hr & Hh & Hi).
  rewrite (u64_small (numBits bf)) in H by lia.
  rewrite wf_numBits in H by exact Hwf. unfold len in H.
  destruct (Z.ltb_spec (Z.of_nat n) (20 + Z.of_nat (length (bits bf)))); [exact H | lia].
Qed.

Lemma bloom_decode_truncated_witness :
  DecodeBloomFilter (take 27 (Encode small_filter)) = Err ErrCorruptedData.
Proof.
  apply (bloom_decode_truncated small_filter 27).
  - unfold wf. vm_compute. intuition discriminate.
  - vm_compute. lia.
Defined.

Lemma getBit_zero bits idx :
  Forall (fun b => b = x00) bits -> 0 <= idx < 8 * len bits ->
  getBit bits idx = Ok false.
Proof.
  intros Hz Hi. unfold getBit.
  destruct (index_in_range bits (idx / 8)) as [b Hb].
  { split; [apply Z.div_pos; lia | apply Z.div_lt_upper_bound; lia]. }
  rewrite Hb. apply index_Some in Hb as [_ Hb].
  rewrite Forall_forall in Hz. rewrite (Hz b) by (by eapply list_elem_of_lookup_2).
  done.
Qed.

Lemma MayContain_zero bf key :
  wf bf -> 1 <= numHash bf -> Forall (fun b => b = x00) (bits bf) ->
  MayContain bf key = Ok false.
Proof.
  intros (Hn & Hr & Hh & Hi) H1 Hz. unfold MayContain.
  destruct (hash key) as [h1 h2].
  destruct (Z.to_nat (numHash bf)) as [|n] eqn:En; [lia|].
  cbn [MayContain_loop].
  destruct (position_range h1 h2 (numBits bf) 0) as (idx & -> & Hidx); [lia|].
  cbn. rewrite getBit_zero by (done || lia). done.
Qed.

(** X10.  A filter fresh from [NewBloomFilter] (positive arguments whose
    product [make] can allocate) holds no items and reports no key. *)
Theorem bloom_new_reports_nothing (expectedItems bitsPerKey : Z) :
  0 < expectedItems -> 0 < bitsPerKey -> expectedItems * bitsPerKey <= 8 * maxAlloc ->
  exists bf, NewBloomFilter expectedItems bitsPerKey = Ok bf /\
    BloomFilter.NumItems bf = 0 /\
    forall key, MayContain bf key = Ok false.
Proof.
  intros He Hb Hm. eexists. split; [by apply NewBloomFilter_ok|].
  split; [done|]. intros key. apply MayContain_zero.
  - eapply NewBloomFilter_wf; [| | |by apply NewBloomFilter_ok]; done.
  - cbn [numHash]. pose proof (numHash_of_range bitsPerKey). lia.
  - cbn [bits]. apply Forall_forall. intros b Hin.
    by apply elem_of_replicate in Hin as [-> _].
Qed.

Lemma bloom_new_reports_nothing_witness :
  exists bf, NewBloomFilter 1000 10 = Ok bf /\
    BloomFilter.NumItems bf = 0 /\
    forall key, MayContain bf key = Ok false.
Proof.
  apply (bloom_new_reports_nothing 1000 10); [lia | lia | unfold maxAlloc; lia].
Defined.

(** X11.  [Reset] empties a well-formed filter that has at least one hash
    function: afterwards it holds no items, reports no key, and has the
    size and parameters it had. *)
Theorem bloom_reset_reports_nothing (bf : BloomFilter.t) :
  wf bf -> 1 <= numHash bf ->
  BloomFilter.NumItems (Reset bf) = 0 /\
  BloomFilter.Size (Reset bf) = BloomFilter.Size bf /\
  numBits (Reset bf) = numBits bf /\ numHash (Reset bf) = numHash bf /\
  forall key, MayContain (Reset bf) key = Ok false.
Proof.
  intros Hwf H1.
  assert (length (map (fun _ : byte => x00) (bits bf)) = length (bits bf)) as Hl
    by apply length_map.
  split; [done|]. split; [unfold BloomFilter.Size, Reset, len; cbn [bits]; by rewrite Hl|].
  split; [done|]. split; [done|]. intros key. apply MayContain_zero.
  - destruct Hwf as (Hn & Hr & Hh & Hi). unfold wf, Reset, len. cbn. rewrite Hl.
    unfold len in Hn. lia.
  - done.
  - cbn [Reset bits]. apply Forall_forall. intros b Hin.
    apply list_elem_of_In, in_map_iff in Hin as (? & <- & _). done.
Qed.

Lemma bloom_reset_reports_nothing_witness :
  BloomFilter.NumItems (Reset (got small_filter (Add small_filter (bytes_of "k")))) = 0 /\
  BloomFilter.Size (Reset (got small_filter (Add small_filter (bytes_of "k"))))
    = BloomFilter.Size (got small_filter (Add small_filter (bytes_of "k"))) /\
  numBits (Reset (got small_filter (Add small_filter (bytes_of "k"))))
    = numBits (got small_filter (Add small_filter (bytes_of "k"))) /\
  numHash (Reset (got small_filter (Add small_filter (bytes_of "k"))))
    = numHash (got small_filter (Add small_filter (bytes_of "k"))) /\
  forall key, MayContain (Reset (got small_filter (Add small_filter (bytes_of "k")))) key
              = Ok false.
Proof.
  apply (bloom_reset_reports_nothing (got small_filter (Add small_filter (bytes_of "k")))).
  - unfold wf. vm_compute. intuition discriminate.
  - vm_compute. discriminate.
Defined.

(** X12.  [Add] on a well-formed filter succeeds, counts the item, leaves
    size and parameters alone and clears no bit: the added key is reported,
    and so is every key that was reported before. *)
Theorem bloom_add_keeps_members (bf : BloomFilter.t) (key : list byte) :
  wf bf ->
  exists bf', Add bf key = Ok bf' /\
    BloomFilter.NumItems bf' = u64 (BloomFilter.NumItems bf + 1) /\
    BloomFilter.Size bf' = BloomFilter.Size bf /\
    MayContain bf' key = Ok true /\
    forall k, MayContain bf k = Ok true -> MayContain bf' k = Ok true.
Proof.
  intros Hwf.
  destruct (Add_spec bf key Hwf) as (bf' & HA & Hwf' & Hc & Hnb & Hnh & Hm).
  exists bf'. split; [done|]. split; [|split; [|split; [done|]]].
  - unfold Add in HA. destruct (hash key) as [h1 h2].
    destruct (Add_loop _ _ _ _ _ _); cbn in HA; [|done|done].
    by injection HA as <-.
  - unfold BloomFilter.Size, len. by rewrite (proj1 Hc).
  - intros k Hk. by eapply MayContain_covers.
Qed.

Lemma bloom_add_keeps_members_witness :
  exists bf', Add small_filter (bytes_of "k") = Ok bf' /\
    BloomFilter.NumItems bf' = u64 (BloomFilter.NumItems small_filter + 1) /\
    BloomFilter.Size bf' = BloomFilter.Size small_filter /\
    MayContain bf' (bytes_of "k") = Ok true /\
    forall k, MayContain small_filter k = Ok true -> MayContain bf' k = Ok true.
Proof.
  apply (bloom_add_keeps_members small_filter (bytes_of "k")).
  unfold wf. vm_compute. intuition discriminate.
Defined.

Lemma lor_bit_set x k : 0 <= k -> Z.testbit x k = true -> Z.lor x (Z.shiftl 1 k) = x.
Proof.
  intros Hk Hb. apply Z.bits_inj'. intros n Hn.
  rewrite Z.lor_spec, Z.shiftl_1_l, Z.pow2_bits_eqb by lia.
  destruct (Z.eqb_spec k n) as [->|]; [by rewrite Hb | apply orb_false_r].
Qed.

(** Setting a bit that is set changes nothing. *)
Lemma setBit_set bits idx :
  getBit bits idx = Ok true -> setBit bits idx = Ok bits.
Proof.
  unfold getBit, setBit. destruct (index bits (idx / 8)) as [b|] eqn:E; [|done].
  intros [= Hb]. apply index_Some in E as [Hi E].
  assert (0 <= idx mod 8 < 8) as Hk by (apply Z.mod_pos_bound; lia).
  rewrite land_bit in Hb by lia.
  rewrite lor_bit_set, byte_of_to_Z by (done || lia).
  by rewrite list_insert_id.
Qed.

Lemma MayContain_loop_inv n : forall i h1 h2 nb bits,
  MayContain_loop n i h1 h2 nb bits = Ok true ->
  forall j, i <= j < i + Z.of_nat n ->
    exists idx, position h1 h2 nb j = Ok idx /\ getBit bits idx = Ok true.
Proof.
  induction n as [|n IH]; intros i h1 h2 nb bits H j Hj; [lia|].
  cbn [MayContain_loop] in H.
  destruct (position h1 h2 nb i) as [idx| |] eqn:Ep; cbn in H; try done.
  destruct (getBit bits idx) as [[|]| |] eqn:Eg; cbn in H; try done.
  destruct (Z.eq_dec j i) as [->|Hne]; [eauto|].
  apply (IH _ _ _ _ _ H). lia.
Qed.

Lemma Add_loop_set n : forall i h1 h2 nb bits,
  (forall j, i <= j < i + Z.of_nat n ->
     exists idx, position h1 h2 nb j = Ok idx /\ getBit bits idx = Ok true) ->
  Add_loop n i h1 h2 nb bits = Ok bits.
Proof.
  induction n as [|n IH]; intros i h1 h2 nb bits H; [done|].
  cbn [Add_loop]. destruct (H i ltac:(lia)) as (idx & -> & Hg). cbn.
  rewrite (setBit_set _ _ Hg). cbn. apply IH. intros j Hj. apply H. lia.
Qed.

(** X13.  Adding a key the filter already reports sets no new bit: only
    the item counter moves.  So adding the same key twice leaves the bit
    array as adding it once. *)
Theorem bloom_add_reported_key (bf : BloomFilter.t) (key : list byte) :
  MayContain bf key = Ok true ->
  Add bf key = Ok {| bits := bits bf; numBits := numBits bf; numHash := numHash bf;
                     numItems := u64 (numItems bf + 1) |}.
Proof.
  unfold MayContain, Add. destruct (hash key) as [h1 h2]. intros H.
  rewrite Add_loop_set; [done|].
  intros j Hj. eapply MayContain_loop_inv; [exact H | lia].
Qed.

Lemma bloom_add_reported_key_witness :
  Add (got small_filter (Add small_filter (bytes_of "k"))) (bytes_of "k") =
  Ok {| bits := bits (got small_filter (Add small_filter (bytes_of "k")));
        numBits := numBits (got small_filter (Add small_filter (bytes_of "k")));
        numHash := numHash (got small_filter (Add small_filter (bytes_of "k")));
        numItems := u64 (numItems (got small_filter (Add small_filter (bytes_of "k"))) + 1) |}.
Proof.
  apply (bloom_add_reported_key (got small_filter (Add small_filter (bytes_of "k")))).
  vm_compute. reflexivity.
Defined.

(** ** wal.go *)

Lemma encode_record_len ty key value :
  len (WAL.encode_record ty key value) = 21 + len key + len value.
Proof.
  unfold WAL.encode_record, WAL.walMagic.
  rewrite !len_app, !len_put_u32, !len_cons, len_nil. lia.
Qed.

Lemma Write_ok w ty key value w' :
  WAL.Write w ty key value = (w', Ok tt) ->
  WAL.file w' = WAL.file w ++ WAL.encode_record ty key value /\
  WAL.limit w' = WAL.limit w /\ WAL.syncErr w' = WAL.syncErr w /\
  WAL.werr w' = None /\ WAL.syncMode w' = WAL.syncMode w.
Proof.
  unfold WAL.Write. destruct (WAL.werr w); [done|].
  destruct (match WAL.limit w with Some l => _ | None => true end); [|done].
  destruct (WAL.syncMode w) eqn:Es.
  - destruct (WAL.syncErr w); [done|]. by intros [= <-].
  - by intros [= <-].
Qed.

(** X14.  What [Write] appends when it succeeds is one record of
    [21 + len(key) + len(value)] bytes, and [ReadRecord] reads that record
    back, whatever its type byte and whatever follows it, as long as it is
    within the reader's 100 MiB bound; the reader is left right after it. *)
Theorem wal_write_read_record (w w' : WAL.t) (ty : byte) (key value : list byte) :
  WAL.Write w ty key value = (w', Ok tt) ->
  1 + 4 + 4 + len key + len value + 4 <= WAL.maxRecord ->
  exists record,
    WAL.file w' = WAL.file w ++ record /\
    len record = 21 + len key + len value /\
    forall rest, WAL.ReadRecord (record ++ rest) = (rest, Ok (ty, key, value)).
Proof.
  intros Hw Hfit. apply Write_ok in Hw as (Hf & _).
  exists (WAL.encode_record ty key value). split; [done|].
  split; [apply encode_record_len|]. intros rest. by apply ReadRecord_encode.
Qed.

Lemma wal_write_read_record_witness :
  exists record,
    WAL.file (WAL.Write (WAL.empty true) x07 (bytes_of "k") (bytes_of "v")).1
      = WAL.file (WAL.empty true) ++ record /\
    len record = 21 + len (bytes_of "k") + len (bytes_of "v") /\
    forall rest, WAL.ReadRecord (record ++ rest) = (rest, Ok (x07, bytes_of "k", bytes_of "v")).
Proof.
  apply (wal_write_read_record (WAL.empty true) _ x07 (bytes_of "k") (bytes_of "v")).
  - vm_compute. reflexivity.
  - vm_compute. discriminate.
Defined.

(** *** Recovery past a run of good records *)

Lemma recover_loop_prefix ws : forall mem,
  Forall record_fits ws -> Memtable.state mem = Memtable.memtableActive ->
  exists mem',
    apply_writes mem ws = Ok mem' /\
    Memtable.state mem' = Memtable.memtableActive /\
    forall fuel tail recovered corrupted,
      WAL.recover_loop (length ws + fuel) (concat (map encode_write ws) ++ tail)
                       mem recovered corrupted =
      WAL.recover_loop fuel tail mem' (count_up ws recovered) corrupted.
Proof.
  induction ws as [|w ws IH]; intros mem Hfit Hact.
  - exists mem. done.
  - apply Forall_cons in Hfit as [Hw Hfit].
    destruct (write_type_dispatch w mem Hact) as (m1 & H1 & Hs1 & E1).
    destruct (IH m1 Hfit Hs1) as (mem' & Happ & Hs' & Hloop).
    exists mem'. split; [cbn [apply_writes]; rewrite H1; exact Happ|]. split; [done|].
    intros fuel tail recovered corrupted.
    cbn [length map concat Nat.add]. rewrite <- app_assoc.
    rewrite recover_loop_step by done. rewrite <- E1. apply Hloop.
Qed.

(** *** A log cut short inside its last record *)

Lemma ReadFull_short n rem :
  0 < n -> len rem < n ->
  ReadFull n rem = ([], Err EOF) \/ ReadFull n rem = ([], Err ErrUnexpectedEOF).
Proof.
  intros Hn Hl. unfold ReadFull.
  destruct (Z.eqb_spec n 0); [lia|].
  destruct (Z.eqb_spec (len rem) 0) as [E|E].
  - left. destruct rem; [done|]. rewrite len_cons in E. pose proof (len_nonneg rem). lia.
  - right. destruct (Z.ltb_spec (len rem) n); [done | lia].
Qed.

Lemma encode_write_parts w :
  record_fits w ->
  exists lenBytes body,
    encode_write w = WAL.walMagic ++ lenBytes ++ body /\
    length lenBytes = 4%nat /\
    le_get lenBytes = len body /\ 13 <= len body <= WAL.maxRecord.
Proof.
  intros Hfit. unfold record_fits in Hfit.
  pose proof (len_nonneg (write_key w)). pose proof (len_nonneg (write_value w)).
  unfold encode_write, WAL.encode_record.
  eexists _, _. split; [reflexivity|]. split; [apply put_u32_length|].
  assert (WAL.maxRecord < 2^31) by (vm_compute; reflexivity).
  rewrite get_put_u32, i64_small by lia.
  rewrite !(u32_small (1 + 4 + 4 + len (write_key w) + len (write_value w) + 4)) by lia.
  rewrite !len_app, !len_put_u32, len_cons, len_nil. lia.
Qed.

Lemma ReadFull_app_n n a rest :
  n = Z.of_nat (length a) -> ReadFull n (a ++ rest) = (rest, Ok a).
Proof. intros ->. apply ReadFull_app. Qed.

Lemma ReadRecord_torn w n :
  record_fits w -> (n < length (encode_write w))%nat ->
  exists e, WAL.ReadRecord (take n (encode_write w)) = ([], Err e) /\
            (e = EOF \/ e = ErrUnexpectedEOF).
Proof.
  intros Hfit Hn.
  destruct (encode_write_parts w Hfit) as (lenBytes & body & E & Hl4 & Hlb & Hrange).
  rewrite E in *. clear E. rewrite !length_app in Hn. unfold len in *.
  assert (length WAL.walMagic = 4%nat) as Hm4 by done. rewrite Hm4, Hl4 in Hn.
  unfold WAL.ReadRecord.
  destruct (le_lt_dec 4 n) as [H4|H4].
  - rewrite take_app_ge by (rewrite Hm4; lia). rewrite Hm4.
    rewrite (ReadFull_app_n 4 WAL.walMagic) by done.
    rewrite bool_decide_eq_true_2 by done. cbn [negb].
    destruct (le_lt_dec 4 (n - 4)) as [H8|H8].
    + rewrite take_app_ge by (rewrite Hl4; lia). rewrite Hl4.
      rewrite (ReadFull_app_n 4 lenBytes) by (by rewrite Hl4).
      rewrite Hlb.
      destruct (Z.ltb_spec WAL.maxRecord (Z.of_nat (length body))); [lia|].
      destruct (ReadFull_short (Z.of_nat (length body)) (take (n - 4 - 4) body)
                  ltac:(lia) ltac:(unfold len; rewrite length_take; lia)) as [->| ->];
        eexists; (split; [reflexivity|]); auto.
    + rewrite take_app_le by (rewrite Hl4; lia).
      destruct (ReadFull_short 4 (take (n - 4) lenBytes)
                  ltac:(lia) ltac:(unfold len; rewrite length_take; lia)) as [->| ->];
        eexists; (split; [reflexivity|]); auto.
  - rewrite take_app_le by (rewrite Hm4; lia).
    destruct (ReadFull_short 4 (take n WAL.walMagic)
                ltac:(lia) ltac:(unfold len; rewrite length_take; lia)) as [->| ->];
      eexists; (split; [reflexivity|]); auto.
Qed.

Lemma recover_loop_torn w n fuel mem recovered corrupted :
  record_fits w -> (n < length (encode_write w))%nat ->
  exists c, WAL.recover_loop (S fuel) (take n (encode_write w)) mem recovered corrupted
            = Some (Ok (mem, recovered, c)) /\
            (c = corrupted \/ c = i64 (corrupted + 1)).
Proof.
  intros Hfit Hn. rewrite recover_loop_unfold.
  destruct (ReadRecord_torn w n Hfit Hn) as (e & -> & [-> | ->]); [eauto|].
  cbn. eauto.
Qed.

(** X15.  A log that ends inside a record (a crash or a full disk during
    the last append) loses nothing that was written whole: recovery
    returns without error the memtable of the complete records, counts
    them all as recovered, and counts at most the one torn record as
    corrupted. *)
Theorem wal_torn_tail_recovery (ws : list write) (w : write) (n : nat) (maxSize : Z) :
  Forall record_fits ws -> record_fits w -> (n < length (encode_write w))%nat ->
  exists mem corrupted,
    WAL.RecoverMemtable
      (Some (concat (map encode_write ws) ++ take n (encode_write w))) maxSize
    = Some (Ok (mem, count_up ws 0, corrupted)) /\
    apply_writes (Memtable.NewMemtable maxSize) ws = Ok mem /\
    (corrupted = 0 \/ corrupted = 1).
Proof.
  intros Hws Hw Hn.
  destruct (recover_loop_prefix ws (Memtable.NewMemtable maxSize) Hws eq_refl)
    as (mem & Happ & _ & Hloop).
  unfold WAL.RecoverMemtable.
  set (data := concat (map encode_write ws) ++ take n (encode_write w)).
  assert (exists fuel, S (length data) = (length ws + S fuel)%nat) as [fuel ->].
  { exists (length data - length ws)%nat.
    pose proof (concat_encode_length ws). subst data. rewrite length_app. lia. }
  subst data. rewrite Hloop.
  destruct (recover_loop_torn w n fuel mem (count_up ws 0) 0 Hw Hn) as (c & -> & Hc).
  exists mem, c. split; [done|]. split; [done|].
  destruct Hc as [->| ->]; [by left | by right].
Qed.

Lemma wal_torn_tail_recovery_witness :
  exists mem corrupted,
    WAL.RecoverMemtable
      (Some (concat (map encode_write sample_writes) ++
             take 10 (encode_write (WPut (bytes_of "hello") (bytes_of "world"))))) 1024
    = Some (Ok (mem, count_up sample_writes 0, corrupted)) /\
    apply_writes (Memtable.NewMemtable 1024) sample_writes = Ok mem /\
    (corrupted = 0 \/ corrupted = 1).
Proof.
  apply (wal_torn_tail_recovery sample_writes (WPut (bytes_of "hello") (bytes_of "world")) 10 1024).
  - repeat constructor; vm_compute; discriminate.
  - vm_compute. discriminate.
  - vm_compute. lia.
Defined.

(** *** Recovery always returns *)



Lemma count_up_app ws1 ws2 r : count_up (ws1 ++ ws2) r = count_up ws2 (count_up ws1 r).
Proof. unfold count_up. apply fold_left_app. Qed.

Lemma apply_writes_app ws1 : forall ws2 m m1,
  apply_writes m ws1 = Ok m1 -> apply_writes m (ws1 ++ ws2) = apply_writes m1 ws2.
Proof.
  induction ws1 as [|w ws1 IH]; intros ws2 m m1; cbn [apply_writes app].
  - by intros [= <-].
  - destruct (apply_write m w) as [m'| |]; cbn; try done. apply IH.
Qed.

(** X17.  A record that is whole and checks out but carries a type byte
    other than Put (1) or Delete (2) is passed over in silence: recovery
    applies the records around it and counts it neither as recovered nor as
    corrupted. *)
Theorem wal_unknown_type_ignored (ws1 ws2 : list write) (ty : byte)
    (key value : list byte) (maxSize : Z) :
  Forall record_fits ws1 -> Forall record_fits ws2 ->
  1 + 4 + 4 + len key + len value + 4 <= WAL.maxRecord ->
  ty <> WAL.RecordTypePut -> ty <> WAL.RecordTypeDelete ->
  exists mem,
    WAL.RecoverMemtable
      (Some (concat (map encode_write ws1) ++ WAL.encode_record ty key value ++
             concat (map encode_write ws2))) maxSize
    = Some (Ok (mem, count_up (ws1 ++ ws2) 0, 0)) /\
    apply_writes (Memtable.NewMemtable maxSize) (ws1 ++ ws2) = Ok mem.
Proof.
  intros H1 H2 Hfit Hp Hd.
  destruct (recover_loop_prefix ws1 (Memtable.NewMemtable maxSize) H1 eq_refl)
    as (m1 & Happ1 & Hact1 & Hloop).
  unfold WAL.RecoverMemtable.
  set (data := concat (map encode_write ws1) ++ _).
  assert (exists fuel, S (length data) = (length ws1 + S fuel)%nat /\
                       (length ws2 < fuel)%nat) as (fuel & -> & Hfuel).
  { exists (length data - length ws1)%nat.
    pose proof (concat_encode_length ws1). pose proof (concat_encode_length ws2).
    pose proof (encode_record_len ty key value) as Hl.
    pose proof (len_nonneg key). pose proof (len_nonneg value). unfold len in *.
    subst data. rewrite !length_app. lia. }
  subst data. rewrite Hloop, recover_loop_unfold, ReadRecord_encode by done.
  rewrite !bool_decide_eq_false_2 by done.
  destruct (recover_loop_records ws2 fuel m1 (count_up ws1 0) 0 H2 Hfuel Hact1)
    as (mem & Hrec & Happ2).
  exists mem. rewrite Hrec, count_up_app. split; [done|].
  by rewrite (apply_writes_app _ _ _ _ Happ1).
Qed.

Lemma wal_unknown_type_ignored_witness :
  exists mem,
    WAL.RecoverMemtable
      (Some (concat (map encode_write [WPut (bytes_of "a") (bytes_of "1")]) ++
             WAL.encode_record x03 (bytes_of "b") (bytes_of "2") ++
             concat (map encode_write [WDelete (bytes_of "c")]))) 1024
    = Some (Ok (mem, count_up ([WPut (bytes_of "a") (bytes_of "1")] ++
                               [WDelete (bytes_of "c")]) 0, 0)) /\
    apply_writes (Memtable.NewMemtable 1024)
      ([WPut (bytes_of "a") (bytes_of "1")] ++ [WDelete (bytes_of "c")]) = Ok mem.
Proof.
  apply (wal_unknown_type_ignored [WPut (bytes_of "a") (bytes_of "1")]
           [WDelete (bytes_of "c")] x03 (bytes_of "b") (bytes_of "2") 1024).
  - repeat constructor; vm_compute; discriminate.
  - repeat constructor; vm_compute; discriminate.
  - vm_compute. discriminate.
  - discriminate.
  - discriminate.
Defined.

(** *** When [ReadRecord] panics *)

Lemma ReadFull_Ok n rem rem' a :
  0 < n -> ReadFull n rem = (rem', Ok a) -> rem = a ++ rem' /\ len a = n.
Proof.
  intros Hn. unfold ReadFull.
  destruct (Z.eqb_spec n 0); [lia|].
  destruct (len rem =? 0); [done|].
  destruct (Z.ltb_spec (len rem) n); [done|].
  intros [= <- <-]. split; [by rewrite take_drop|].
  unfold len in *. rewrite length_take. lia.
Qed.

Lemma slice_Some_in_range {A} (s : list A) lo hi :
  0 <= lo -> lo <= hi -> hi <= len s -> is_Some (slice s lo hi).
Proof.
  intros H1 H2 H3. unfold slice.
  destruct (Z.leb_spec 0 lo); [|lia]. destruct (Z.leb_spec lo hi); [|lia].
  destruct (Z.leb_spec hi (len s)); [|lia]. cbn. eauto.
Qed.

Lemma parse_record_no_panic recordLen recordData :
  len recordData = recordLen ->
  let keyLen := le_get (take 4 (drop 1 recordData)) in
  let valueLen := le_get (take 4 (drop 5 recordData)) in
  13 + keyLen + valueLen < 2^32 ->
  WAL.parse_record recordLen recordData <> Panic.
Proof.
  intros Hlen. cbv zeta. intros Hsmall. unfold WAL.parse_record.
  set (keyLen := le_get (take 4 (drop 1 recordData))) in *.
  set (valueLen := le_get (take 4 (drop 5 recordData))) in *.
  assert (0 <= keyLen) by apply le_get_range.
  assert (0 <= valueLen) by apply le_get_range.
  destruct (len recordData <? 1 + 4 + 4 + 4); [done|].
  rewrite (u32_small (1 + 4 + 4 + keyLen + valueLen + 4)) by lia.
  destruct (Z.eqb_spec recordLen (1 + 4 + 4 + keyLen + valueLen + 4)) as [E|E]; [|done].
  cbn [negb].
  rewrite !(u32_small (9 + keyLen)) by lia.
  rewrite !(u32_small (9 + keyLen + valueLen)) by lia.
  destruct (slice_Some_in_range recordData 9 (9 + keyLen)) as [k ->]; [lia..|].
  destruct (slice_Some_in_range recordData (9 + keyLen) (9 + keyLen + valueLen))
    as [v ->]; [lia..|].
  assert (len (drop (Z.to_nat (9 + keyLen + valueLen)) recordData) = 4) as ->.
  { unfold len in *. rewrite length_drop. lia. }
  cbn. destruct (negb _); done.
Qed.

(** X18.  [ReadRecord] panics (a slice bound out of range) only on a
    record whose declared key and value lengths pass the length check by
    wrapping around in uint32: [recordLen] equals
    [uint32(13 + keyLen + valueLen)] although the sum is [2^32] or more.
    Records whose lengths add up below [2^32] never make it panic. *)
Theorem wal_read_record_panic (rem rem' : list byte) :
  WAL.ReadRecord rem = (rem', Panic) ->
  let recordLen := le_get (take 4 (drop 4 rem)) in
  let keyLen := le_get (take 4 (drop 9 rem)) in
  let valueLen := le_get (take 4 (drop 13 rem)) in
  recordLen = u32 (13 + keyLen + valueLen) /\ 2^32 <= 13 + keyLen + valueLen.
Proof.
  unfold WAL.ReadRecord.
  destruct (ReadFull 4 rem) as [rem1 [magic|e|]] eqn:E1; [|done|].
  2:{ unfold ReadFull in E1. destruct (4 =? 0); [done|]. destruct (len rem =? 0); [done|].
      destruct (len rem <? 4); done. }
  apply ReadFull_Ok in E1 as [-> Hm]; [|lia].
  destruct (negb _); [done|].
  destruct (ReadFull 4 rem1) as [rem2 [lenBytes|e|]] eqn:E2; [|done|].
  2:{ unfold ReadFull in E2. destruct (4 =? 0); [done|]. destruct (len rem1 =? 0); [done|].
      destruct (len rem1 <? 4); done. }
  apply ReadFull_Ok in E2 as [-> Hl]; [|lia].
  destruct (WAL.maxRecord <? le_get lenBytes); [done|].
  destruct (ReadFull (le_get lenBytes) rem2) as [rem3 [recordData|e|]] eqn:E3; [|done|].
  2:{ unfold ReadFull in E3. destruct (_ =? 0); [done|]. destruct (len rem2 =? 0); [done|].
      destruct (len rem2 <? _); done. }
  intros [= <- Hp]. cbv zeta.
  assert (length magic = 4%nat) as Hm' by (unfold len in Hm; lia).
  assert (length lenBytes = 4%nat) as Hl' by (unfold len in Hl; lia).
  assert (len recordData = le_get lenBytes /\ rem2 = recordData ++ rem3) as [Hr ->].
  { destruct (Z.eqb_spec (le_get lenBytes) 0) as [E0|E0].
    - rewrite E0 in E3. unfold ReadFull in E3. cbn in E3.
      injection E3 as <- <-. rewrite E0. done.
    - pose proof (le_get_range lenBytes).
      apply ReadFull_Ok in E3 as [-> Hr]; [done|lia]. }
  assert (13 <= len recordData) as H13.
  { unfold WAL.parse_record in Hp.
    destruct (Z.ltb_spec (len recordData) (1 + 4 + 4 + 4)); [done | lia]. }
  assert (take 4 (drop 4 (magic ++ lenBytes ++ recordData ++ rem3)) = lenBytes) as ->.
  { rewrite drop_app_length' by done. by rewrite take_app_length'. }
  assert (forall j, (j + 4 <= 13)%nat ->
            take 4 (drop (8 + j) (magic ++ lenBytes ++ recordData ++ rem3)) =
            take 4 (drop j recordData)) as Hfield.
  { intros j Hj. rewrite app_assoc, drop_app_ge by (rewrite length_app; lia).
    rewrite length_app, Hm', Hl'. replace (8 + j - (4 + 4))%nat with j by lia.
    rewrite drop_app_le by (unfold len in H13; lia).
    rewrite take_app_le; [done|]. rewrite length_drop. unfold len in H13. lia. }
  pose proof (Hfield 1%nat ltac:(lia)) as Hk. pose proof (Hfield 5%nat ltac:(lia)) as Hv.
  cbn [Nat.add] in Hk, Hv. rewrite Hk, Hv. clear Hfield Hk Hv.
  set (keyLen := le_get (take 4 (drop 1 recordData))) in *.
  set (valueLen := le_get (take 4 (drop 5 recordData))) in *.
  destruct (Z.lt_ge_cases (13 + keyLen + valueLen) (2^32)) as [Hsmall|Hbig].
  - exfalso. revert Hp. apply parse_record_no_panic; [done|]. exact Hsmall.
  - split; [|done].
    unfold WAL.parse_record in Hp. fold keyLen valueLen in Hp.
    destruct (len recordData <? 1 + 4 + 4 + 4); [done|].
    replace (1 + 4 + 4 + keyLen + valueLen + 4) with (13 + keyLen + valueLen) in Hp by lia.
    destruct (Z.eqb_spec (le_get lenBytes) (u32 (13 + keyLen + valueLen))); done.
Qed.

Lemma wal_read_record_panic_witness :
  le_get (take 4 (drop 4 overflow_record)) =
    u32 (13 + le_get (take 4 (drop 9 overflow_record)) +
         le_get (take 4 (drop 13 overflow_record))) /\
  2^32 <= 13 + le_get (take 4 (drop 9 overflow_record)) +
          le_get (take 4 (drop 13 overflow_record)).
Proof.
  apply (wal_read_record_panic overflow_record []).
  vm_compute. reflexivity.
Defined.

(** The panic reaches the caller of [RecoverMemtable]. *)
Example recovery_panics_on_overflow_record :
  WAL.RecoverMemtable (Some overflow_record) 1024 = Some Panic.
Proof. vm_compute. reflexivity. Qed.

(** *** [ScanToNextRecord] *)

Lemma magic_at_short data j : (length data < j + 4)%nat -> ~ magic_at data j.
Proof.
  intros Hl H. apply (f_equal length) in H.
  rewrite length_take, length_drop in H.
  change (length WAL.walMagic) with 4%nat in H. lia.
Qed.

Lemma magic_at_shift (p data : list byte) j :
  magic_at (p ++ data) (length p + j) <-> magic_at data j.
Proof. unfold magic_at. by rewrite drop_app_add. Qed.

(** The state of the scan: [matchCount] bytes of the magic have just gone
    by, so the stream behaves as if they were still ahead. *)
Lemma scan_spec rem : forall mc, (mc <= 3)%nat ->
  let v := take mc WAL.walMagic ++ rem in
  match WAL.scan mc rem with
  | (rem', true) =>
      exists j, magic_at v j /\ (forall j', magic_at v j' -> (j <= j')%nat) /\
                rem' = drop j v
  | (rem', false) => (forall j, ~ magic_at v j) /\ rem' = []
  end.
Proof.
  induction rem as [|b rest IH]; intros mc Hmc; cbv zeta.
  - cbn [WAL.scan]. split; [|done]. intros j. apply magic_at_short.
    rewrite length_app, length_take. cbn. lia.
  - cbn [WAL.scan].
    destruct (bool_decide (WAL.walMagic !! mc = Some b)) eqn:Em.
    + apply bool_decide_eq_true in Em.
      assert (take (S mc) WAL.walMagic = take mc WAL.walMagic ++ [b]) as Htk
        by (by apply take_S_r).
      destruct (bool_decide (S mc = 4%nat)) eqn:E4.
      * apply bool_decide_eq_true in E4. assert (mc = 3%nat) as -> by lia.
        injection Em as <-. exists 0%nat. split; [done|]. split; [intros; lia | done].
      * apply bool_decide_eq_false in E4.
        specialize (IH (S mc) ltac:(lia)). cbv zeta in IH.
        rewrite Htk, <- app_assoc in IH. exact IH.
    + apply bool_decide_eq_false in Em.
      destruct (bool_decide (WAL.walMagic !! 0%nat = Some b)) eqn:E0.
      * apply bool_decide_eq_true in E0. injection E0 as <-.
        specialize (IH 1%nat ltac:(lia)). cbv zeta in IH.
        change (take 1 WAL.walMagic ++ rest) with (xde :: rest) in IH.
        assert (forall j, (j < mc)%nat ->
                  ~ magic_at (take mc WAL.walMagic ++ xde :: rest) j) as Hno.
        { intros j Hj. unfold magic_at.
          destruct mc as [|[|[|[|?]]]]; [lia| | | |lia];
            destruct j as [|[|[|?]]]; try lia; cbn; try discriminate;
            intros [= ->]; by apply Em. }
        assert (forall j, magic_at (take mc WAL.walMagic ++ xde :: rest) j <->
                          exists j', j = (mc + j')%nat /\ magic_at (xde :: rest) j') as Hiff.
        { intros j. assert (length (take mc WAL.walMagic) = mc) as Hl
            by (rewrite length_take; cbn; lia).
          split.
          - intros H. destruct (le_lt_dec mc j) as [Hge|Hlt]; [|by apply Hno in H].
            exists (j - mc)%nat. split; [lia|].
            apply (magic_at_shift (take mc WAL.walMagic)). rewrite Hl.
            by replace (mc + (j - mc))%nat with j by lia.
          - intros (j' & -> & H). rewrite <- Hl at 2. by apply magic_at_shift. }
        destruct (WAL.scan 1 rest) as [rem' [|]].
        -- destruct IH as (j & Hj & Hmin & ->). exists (mc + j)%nat.
           split; [apply Hiff; eauto|]. split.
           ++ intros j' (j'' & -> & H)%Hiff. apply Hmin in H. lia.
           ++ rewrite <- (length_take_le WAL.walMagic mc) at 1 by (cbn; lia).
              by rewrite drop_app_add.
        -- destruct IH as [IH ->]. split; [|done].
           intros j (j' & -> & H)%Hiff. by apply IH in H.
      * apply bool_decide_eq_false in E0.
        specialize (IH 0%nat ltac:(lia)). cbv zeta in IH. cbn [take app] in IH.
        assert (forall j, (j <= mc)%nat ->
                  ~ magic_at (take mc WAL.walMagic ++ b :: rest) j) as Hno.
        { intros j Hj. unfold magic_at.
          destruct mc as [|[|[|[|?]]]]; [| | | |lia];
            destruct j as [|[|[|[|?]]]]; try lia; cbn; try discriminate;
            intros [= ->]; (by apply Em) || (by apply E0). }
        assert (forall j, magic_at (take mc WAL.walMagic ++ b :: rest) j <->
                          exists j', j = (S mc + j')%nat /\ magic_at rest j') as Hiff.
        { intros j.
          assert (length (take mc WAL.walMagic ++ [b]) = S mc) as Hl
            by (rewrite length_app, length_take; cbn; lia).
          replace (take mc WAL.walMagic ++ b :: rest)
            with ((take mc WAL.walMagic ++ [b]) ++ rest) by (by rewrite <- app_assoc).
          split.
          - intros H. destruct (le_lt_dec (S mc) j) as [Hge|Hlt].
            + exists (j - S mc)%nat. split; [lia|].
              apply (magic_at_shift (take mc WAL.walMagic ++ [b])). rewrite Hl.
              by replace (S mc + (j - S mc))%nat with j by lia.
            + exfalso. apply (Hno j); [lia|]. by rewrite <- app_assoc in H.
          - intros (j' & -> & H). rewrite <- Hl. by apply magic_at_shift. }
        destruct (WAL.scan 0 rest) as [rem' [|]].
        -- destruct IH as (j & Hj & Hmin & ->). exists (S mc + j)%nat.
           split; [apply Hiff; eauto|]. split.
           ++ intros j' (j'' & -> & H)%Hiff. apply Hmin in H. lia.
           ++ replace (take mc WAL.walMagic ++ b :: rest)
                with ((take mc WAL.walMagic ++ [b]) ++ rest) by (by rewrite <- app_assoc).
              assert (length (take mc WAL.walMagic ++ [b]) = S mc) as <-
                by (rewrite length_app, length_take; cbn; lia).
              by rewrite drop_app_add.
        -- destruct IH as [IH ->]. split; [|done].
           intros j (j' & -> & H)%Hiff. by apply IH in H.
Qed.

(** X19.  [ScanToNextRecord] stops at the first occurrence of the magic
    bytes DE AD BE EF in what is left of the log and leaves the reader at
    its first byte; it answers false, with the log used up, exactly when
    the magic does not occur. *)
Theorem wal_scan_first_magic (rem : list byte) :
  match WAL.ScanToNextRecord rem with
  | (rem', true) =>
      exists j, magic_at rem j /\ (forall j', magic_at rem j' -> (j <= j')%nat) /\
                rem' = drop j rem
  | (rem', false) => (forall j, ~ magic_at rem j) /\ rem' = []
  end.
Proof. exact (scan_spec rem 0 ltac:(lia)). Qed.

(** ** The engine: writes, flushes and the log *)

Lemma doFlush_ok db db' :
  DB.doFlush db = (db', Ok tt) ->
  match DB.immutable db with
  | None => db' = db
  | Some imm =>
      exists file reader,
        FlushMemtableToSSTable imm (DB.BloomBitsPerKey (DB.opts db)) = Ok file /\
        SSTableReader.OpenSSTable file None = Ok reader /\
        db' = {| DB.opts := DB.opts db; DB.memtable := DB.memtable db;
                 DB.immutable := None; DB.wal := DB.wal db;
                 DB.sstables := reader :: DB.sstables db;
                 DB.nextSSTableID := u64 (DB.nextSSTableID db + 1);
                 DB.closed := DB.closed db |}
  end.
Proof.
  unfold DB.doFlush. destruct (DB.immutable db) as [imm|]; [|by intros [= <-]].
  destruct (FlushMemtableToSSTable imm _) as [file| |] eqn:Ef; [|done..].
  destruct (SSTableReader.OpenSSTable file None) as [reader| |] eqn:Eo; [|done..].
  intros [= <-]. by exists file, reader.
Qed.


Lemma doFlush_sstables db db' :
  DB.doFlush db = (db', Ok tt) ->
  (length (DB.sstables db) <= length (DB.sstables db'))%nat /\
  (DB.immutable db <> None -> (length (DB.sstables db) < length (DB.sstables db'))%nat).
Proof.
  intros H. apply doFlush_ok in H. destruct (DB.immutable db) as [imm|].
  - destruct H as (f & r & _ & _ & ->). cbn. split; [lia|]. intros _. lia.
  - subst db'. split; [lia | done].
Qed.

Lemma triggerFlush_grows db db' :
  DB.triggerFlush db = (db', Ok tt) ->
  (length (DB.sstables db) < length (DB.sstables db'))%nat.
Proof.
  unfold DB.triggerFlush.
  assert (exists db0, (match DB.immutable db with
                       | Some _ => DB.doFlush db
                       | None => (db, Ok tt)
                       end = (db0, Ok tt) ->
                       (length (DB.sstables db) <= length (DB.sstables db0))%nat) /\
                      match DB.immutable db with
                      | Some _ => DB.doFlush db
                      | None => (db, Ok tt)
                      end.1 = db0) as (db0 & Hle & E0).
  { eexists. split; [|reflexivity].
    destruct (DB.immutable db); [|cbn; lia].
    destruct (DB.doFlush db) as [d r] eqn:E. cbn. intros [= ->].
    by apply doFlush_sstables in E as [? _]. }
  destruct (match DB.immutable db with
            | Some _ => DB.doFlush db
            | None => (db, Ok tt)
            end) as [d0 r0] eqn:E. cbn in E0. subst d0.
  destruct r0 as [[]| |]; [|done..]. specialize (Hle eq_refl).
  match goal with |- context [DB.doFlush ?d] =>
    destruct (DB.doFlush d) as [db2 [[]| |]] eqn:E2; [|done..] end.
  intros [= <-]. apply doFlush_sstables in E2 as [_ E2].
  cbn [DB.immutable DB.sstables] in E2. specialize (E2 ltac:(done)).
  cbn [DB.set_wal DB.sstables]. lia.
Qed.

Lemma DB_write_cases db w db' :
  DB_write db w = (db', Ok tt) ->
  DB.closed db = false /\
  exists wal' m,
    WAL.append (DB.wal db) w = (wal', Ok tt) /\
    apply_write (DB.memtable db) w = Ok m /\
    if Memtable.IsFull m
    then DB.triggerFlush (DB.set_memtable (DB.set_wal db wal') m) = (db', Ok tt)
    else db' = DB.set_memtable (DB.set_wal db wal') m.
Proof.
  destruct w as [k v|k]; cbn [DB_write WAL.append apply_write];
    unfold DB.Put, DB.Delete; (destruct (DB.closed db); [done|]).
  - destruct (WAL.WritePut _ _ _) as [wal' [[]| |]]; [|done..].
    unfold DB.after_write. destruct (Memtable.Put _ _ _) as [m| |]; [|done..].
    intros H. split; [done|]. exists wal', m. split; [done|]. split; [done|].
    destruct (Memtable.IsFull m); [done | by injection H as <-].
  - destruct (WAL.WriteDelete _ _) as [wal' [[]| |]]; [|done..].
    unfold DB.after_write. destruct (Memtable.Delete _ _) as [m| |]; [|done..].
    intros H. split; [done|]. exists wal', m. split; [done|]. split; [done|].
    destruct (Memtable.IsFull m); [done | by injection H as <-].
Qed.

Lemma apply_write_Get m w m' :
  sl_ok (Memtable.data m) -> apply_write m w = Ok m' ->
  forall k, Memtable.Get m' k =
            if bool_decide (write_key w = k)
            then (write_value w, match w with WPut _ _ => false | WDelete _ => true end, true)
            else Memtable.Get m k.
Proof.
  intros Hok Hw k. unfold Memtable.Get.
  rewrite (apply_write_PutEntry _ _ _ Hw).
  rewrite !Get_assoc by (done || by apply PutEntry_ok).
  rewrite PutEntry_assoc by done. by destruct w.
Qed.

(** X21.  A Put or Delete that succeeds without flushing is seen by the
    next [Get]: the key just put reads back with its value, the key just
    deleted is not found (whatever older layers hold), and every other key
    reads as before the write. *)
Theorem db_write_then_get (db db' : DB.t) (w : write) :
  sl_ok (Memtable.data (DB.memtable db)) ->
  DB_write db w = (db', Ok tt) ->
  DB.sstables db' = DB.sstables db ->
  DB.Get db' (write_key w) = write_answer w /\
  forall k, k <> write_key w -> DB.Get db' k = DB.Get db k.
Proof.
  intros Hok Hw Hsst.
  apply DB_write_cases in Hw as (Hc & wal' & m & Happ & Hm & Hfull).
  destruct (Memtable.IsFull m).
  { apply triggerFlush_grows in Hfull. cbn [DB.set_memtable DB.set_wal DB.sstables] in Hfull.
    rewrite Hsst in Hfull. lia. }
  subst db'. unfold DB.Get.
  cbn [DB.set_memtable DB.set_wal DB.closed DB.memtable DB.immutable DB.sstables].
  rewrite Hc. split.
  - rewrite (apply_write_Get _ _ _ Hok Hm), bool_decide_eq_true_2 by done.
    by destruct w.
  - intros k Hk.
    rewrite (apply_write_Get _ _ _ Hok Hm), bool_decide_eq_false_2 by done. done.
Qed.

Lemma db_write_then_get_witness :
  DB.Get (DB_write sample_db (WPut (bytes_of "hello") (bytes_of "world"))).1
         (write_key (WPut (bytes_of "hello") (bytes_of "world")))
    = write_answer (WPut (bytes_of "hello") (bytes_of "world")) /\
  forall k, k <> write_key (WPut (bytes_of "hello") (bytes_of "world")) ->
    DB.Get (DB_write sample_db (WPut (bytes_of "hello") (bytes_of "world"))).1 k
      = DB.Get sample_db k.
Proof.
  apply (db_write_then_get sample_db _ (WPut (bytes_of "hello") (bytes_of "world"))).
  - apply NewSkipList_ok.
  - vm_compute. reflexivity.
  - vm_compute. reflexivity.
Defined.


(** *** The log and the memtable *)






